(** * archipack_molding: the path-to-mesh generator

    A shallow embedding of [archipack_molding.py]: the segment chain built by
    [MoldingGenerator.add_part], the lateral offset of [set_offset], the
    section builder and profile sweep of [make_profile], and the conversion of
    sampled points into parts of [archipack_molding.from_spline].

    Python floats are read as real numbers ([R]); comparisons are the
    classical decisions on [R].  A float division whose divisor can be an exact
    [0.0] raises [ZeroDivisionError] and is modelled by [pydiv].

    [archipack_2d.Line] and [panel.Panel] belong to the add-on but not to this
    file: what [make_profile], [add_part] and [set_offset] call of them is
    modelled from the specification, each such definition saying so.  The
    host's scene and selection are left out; of its property system the file
    keeps the limits of the properties that [from_spline] writes ([length],
    [a0] and [n_parts]); a part is the record of its three numeric
    properties. *)

From Stdlib Require Import Reals Lra Lia List Bool Arith ZArith.
Import ListNotations.

Open Scope R_scope.

(** ** Exceptions *)

Inductive PyExn : Type :=
| ZeroDivisionError
| AttributeError
| UnboundLocalError
| IndexError.

Inductive result (A : Type) : Type :=
| Ok (a : A)
| Raise (e : PyExn).

Arguments Ok {A} a.
Arguments Raise {A} e.

Definition bind {A B : Type} (c : result A) (k : A -> result B) : result B :=
  match c with
  | Ok a => k a
  | Raise e => Raise e
  end.

Notation "x <- c ;; k" := (bind c (fun x => k))
  (at level 61, c at next level, right associativity).

(** [a / b] on floats with a divisor that may be exactly zero. *)
Definition pydiv (a b : R) : result R :=
  if Req_dec_T b 0 then Raise ZeroDivisionError else Ok (a / b).

(** ** mathutils.Vector (2d and 3d) *)

Record Vector : Type := mkVector { x : R; y : R }.

Record Vector3 : Type := mkVector3 { x3 : R; y3 : R; z3 : R }.

Definition vzero : Vector := mkVector 0 0.

Definition vadd (a b : Vector) : Vector := mkVector (x a + x b) (y a + y b).

Definition vsub (a b : Vector) : Vector := mkVector (x a - x b) (y a - y b).

(** [k * v] and [v * k] *)
Definition smul (k : R) (a : Vector) : Vector := mkVector (k * x a) (k * y a).

(** [u * v] on two vectors: the dot product *)
Definition dot (a b : Vector) : R := x a * x b + y a * y b.

(** [v.length] *)
Definition vlength (a : Vector) : R := sqrt (x a * x a + y a * y a).

(** [v.normalized()]: a vector of length zero stays the zero vector *)
Definition normalized (a : Vector) : Vector :=
  if Req_dec_T (vlength a) 0 then vzero else smul (/ vlength a) a.

Definition vsub3 (a b : Vector3) : Vector3 :=
  mkVector3 (x3 a - x3 b) (y3 a - y3 b) (z3 a - z3 b).

(** [v.to_2d()] *)
Definition to_2d (a : Vector3) : Vector := mkVector (x3 a) (y3 a).

(** ** archipack_2d.Line *)

Record Line : Type := mkLine { p : Vector; v : Vector }.

(** [Line.length] *)
Definition length (l : Line) : R := vlength (v l).

(** [Line.lerp(t)] *)
Definition lerp (l : Line) (t : R) : Vector := vadd (p l) (smul t (v l)).

(** Modelled from the spec: [leftNormal] of archipack_2d, the direction turned
    a quarter turn to the left. *)
Definition left_normal (d : Vector) : Vector := mkVector (- y d) (x d).

(** Modelled from the spec: [Line.make_offset] of archipack_2d, "a parallel
    segment obtained by translating origin by offset * leftNormal
    (direction_normalized)"; "no cross-segment intersection trimming is
    performed", so the previous offset line [last] is not used. *)
Definition make_offset (l : Line) (offset : R) (last : option Line) : Line :=
  mkLine (vadd (p l) (smul offset (left_normal (normalized (v l))))) (v l).

(** Modelled from the spec: [Line.sized_normal] of archipack_2d, the "sized
    normal" frame of a line, "position + direction": its position is the point
    of the line at parameter [t]; its vector has length [size] and the
    direction the spec gives a frame at a path end, "the segment's own
    direction". *)
Definition sized_normal (l : Line) (t size : R) : Line :=
  mkLine (lerp l t) (smul size (normalized (v l))).

(** Modelled from the spec: [Line.straight] of archipack_2d, the continuation
    of a line from its point at [t], "scaled to the new part's length". *)
Definition straight (l : Line) (len t : R) : Line :=
  mkLine (lerp l t) (smul len (normalized (v l))).

(** Modelled from the spec: [Line.rotate] of archipack_2d, the direction
    "rotated by the new part's startAngle" about the line's origin. *)
Definition rotate (l : Line) (a : R) : Line :=
  mkLine (p l)
         (mkVector (cos a * x (v l) - sin a * y (v l))
                   (sin a * x (v l) + cos a * y (v l))).

(** ** Molding, StraightMolding *)

(** [StraightMolding(Molding, Line)]: the fields of [Molding.__init__], the
    line it inherits ([p], [v]) and the offset line stored by [set_offset]. *)
Record StraightMolding : Type := mkStraightMolding {
  dist : R;
  t_start : R;
  t_end : R;
  dz : R;
  z0 : R;
  base : Line;
  line : option Line
}.

(** [StraightMolding.__init__(p, v)] *)
Definition StraightMolding_init (pt vec : Vector) : StraightMolding :=
  mkStraightMolding 0 0 0 0 0 (mkLine pt vec) None.

(** [Molding.straight_molding(a0, length)] *)
Definition straight_molding (s : StraightMolding) (a0 len : R) : StraightMolding :=
  let s' := rotate (straight (base s) len 1) a0 in
  StraightMolding_init (p s') (v s').

(** [Molding.set_offset(offset, last)] *)
Definition Molding_set_offset (s : StraightMolding) (offset : R) (last : option Line)
  : StraightMolding :=
  mkStraightMolding (dist s) (t_start s) (t_end s) (dz s) (z0 s) (base s)
                    (Some (make_offset (base s) offset last)).

(** ** archipack_molding_part *)

(** The properties [length], [a0] and [dz] of a part.  Their ranges
    ([length >= 0.01], [a0] within [-2 pi, 2 pi]) are kept by the host's
    property system and are not part of the record. *)
Record archipack_molding_part : Type := mkPart {
  part_length : R;
  part_a0 : R;
  part_dz : R
}.

(** ** MoldingGenerator *)

Record MoldingGenerator : Type := mkGenerator {
  parts : list archipack_molding_part;
  segs : list StraightMolding
}.

(** [MoldingGenerator.__init__(parts)] *)
Definition MoldingGenerator_init (ps : list archipack_molding_part) : MoldingGenerator :=
  mkGenerator ps [].

(** [MoldingGenerator.add_part(part)] *)
Definition add_part (g : MoldingGenerator) (part : archipack_molding_part)
  : MoldingGenerator :=
  let s :=
    match last (map Some (segs g)) None with
    | None =>
        let pt := mkVector 0 0 in
        let vec := smul (part_length part) (mkVector (cos (part_a0 part)) (sin (part_a0 part))) in
        StraightMolding_init pt vec
    | Some s => straight_molding s (part_a0 part) (part_length part)
    end in
  mkGenerator (parts g) (segs g ++ [s]).

(** The loop of [set_offset] and of the head of [make_profile]:
    [for seg in self.segs: seg.line = seg.make_offset(offset, last); last = seg.line] *)
Fixpoint offset_loop (offset : R) (last : option Line) (ss : list StraightMolding)
  : list StraightMolding :=
  match ss with
  | [] => []
  | seg :: rest =>
      let seg' := Molding_set_offset seg offset last in
      seg' :: offset_loop offset (line seg') rest
  end.

(** [MoldingGenerator.set_offset(offset)] *)
Definition set_offset (g : MoldingGenerator) (offset : R) : MoldingGenerator :=
  mkGenerator (parts g) (offset_loop offset None (segs g)).

(** [archipack_molding.get_generator], without the manipulators: the chain of
    all parts, then the offset. *)
Definition build_chain (ps : list archipack_molding_part) : MoldingGenerator :=
  fold_left add_part ps (MoldingGenerator_init ps).

Definition get_generator (ps : list archipack_molding_part) (x_offset : R)
  : MoldingGenerator :=
  set_offset (build_chain ps) x_offset.

(** ** make_profile: sections *)

(** What a statement leaves behind: the state after normal completion, or
    the exception raised together with the state mutated so far. *)
Inductive outcome (S : Type) : Type :=
| Done (s : S)
| Failed (e : PyExn) (s : S).

Arguments Done {S} s.
Arguments Failed {S} e s.

(** An entry of [sections]: [(n, dz / length, z)] *)
Definition section_frame : Type := (Line * R * R)%type.

Definition frame_line (s : section_frame) : Line := fst (fst s).
Definition frame_z (s : section_frame) : R := snd s.

(** [f.line], an attribute that holds [None] until an offset is set *)
Definition get_line (f : StraightMolding) : result Line :=
  match line f with
  | Some l => Ok l
  | None => Raise AttributeError
  end.

(** [closed_path = (f.line.p - (f_last.p + f_last.v)).length < 0.0001] *)
Definition is_closed_path (fl f_last : Line) : bool :=
  if Rlt_dec (vlength (vsub (p fl) (vadd (p f_last) (v f_last)))) 0.0001
  then true else false.

(** [for s, f in enumerate(self.segs)] of the section builder *)
Fixpoint sections_loop (ss : list StraightMolding) (sections : list section_frame)
  : result (list section_frame) :=
  match ss with
  | [] => Ok sections
  | f :: rest =>
      l <- get_line f ;;
      if Req_dec_T (length l) 0 then sections_loop rest sections
      else
        let n := sized_normal l 1 1 in
        slope <- pydiv (dz f) (length l) ;;
        sections_loop rest (sections ++ [(n, slope, z0 f + dz f)])
  end.

(** Lines 147-167: the closed-path test, the first section and the loop.
    [f] is [self.segs[0]]. *)
Definition build_sections (ss : list StraightMolding) (f : StraightMolding)
  : result (bool * list section_frame) :=
  fl <- get_line f ;;
  f_last <- get_line (last ss f) ;;
  let closed_path := is_closed_path fl f_last in
  let n := if closed_path then sized_normal f_last 1 1 else sized_normal fl 0 1 in
  slope <- pydiv (dz f) (length fl) ;;
  sections <- sections_loop ss [(n, slope, z0 f)] ;;
  Ok (closed_path, sections).

(** ** make_profile: the sweep *)

(** [scale = min(10, 1 / cos(0.5 * acos(min(1, max(-1, v0 * v1)))))].
    The divisor is a float cosine of an angle in [0, pi/2], and no float has
    the cosine 0: at the largest angle [acos] returns, the float nearest to pi,
    the half angle has the cosine 6.1e-17, the quotient is 1.6e16 and [min]
    returns the cap.  The division never raises; at the one real angle whose
    cosine is 0 the scale is the cap 10. *)
Definition mitre_scale (v0 v1 : Vector) : R :=
  let c := cos (0.5 * acos (Rmin 1 (Rmax (-1) (dot v0 v1)))) in
  if Req_dec_T c 0 then 10 else Rmin 10 (1 / c).

(** [for p in profile: verts.append((x, y, z))] at one section *)
Definition ring (n : Line) (zl scale : R) (dir : Vector) (z_offset : R)
  (profile : list Vector) : list Vector3 :=
  map (fun pt =>
         let q := vadd (p n) (smul (scale * x pt) dir) in
         mkVector3 (x q) (y q) (zl + y pt + z_offset))
      profile.

(** The variables the sweep loop carries from one section to the next *)
Record sweep_state : Type := mkSweep {
  sw_p0 : Vector;
  sw_v0 : Vector;
  sw_v1 : option Vector;
  sw_verts : list Vector3;
  sw_uv : list R
}.

(** [for s, section in enumerate(sections)]: [todo] holds the sections from
    index [s] on. *)
Fixpoint sweep_loop (profile : list Vector) (z_offset : R) (closed_path : bool)
  (sections : list section_frame) (n_sections : nat)
  (s : nat) (todo : list section_frame) (st : sweep_state) : outcome sweep_state :=
  match todo with
  | [] => Done st
  | section :: rest =>
      let n := frame_line section in
      let zl := frame_z section in
      let p1 := p n in
      let uv := if (0 <? s)%nat
                then sw_uv st ++ [vlength (vsub p1 (sw_p0 st))]
                else sw_uv st in
      let st1 := mkSweep (sw_p0 st) (sw_v0 st) (sw_v1 st) (sw_verts st) uv in
      let next :=
        if (s <? n_sections)%nat then
          match nth_error sections (S s) with
          | Some nxt => Some (Ok (normalized (v (frame_line nxt))))
          | None => Some (Raise IndexError)
          end
        else if closed_path then None
        else Some (match sw_v1 st with
                   | Some v1 => Ok v1
                   | None => Raise UnboundLocalError
                   end) in
      match next with
      | None => Done st1
      | Some (Raise e) => Failed e st1
      | Some (Ok v1) =>
          let v0 := sw_v0 st in
          let dir := normalized (vadd v0 v1) in
          let scale := mitre_scale v0 v1 in
          let verts := sw_verts st ++ ring n zl scale dir z_offset profile in
          sweep_loop profile z_offset closed_path sections n_sections (S s) rest
                     (mkSweep p1 v1 (Some v1) verts uv)
      end
  end.

(** ** panel.Panel, the lofter *)

Record Panel : Type := mkPanel {
  closed_shape : bool;
  index : list nat;
  panel_x : list R;
  panel_y : list R;
  panel_idmat : list Z;
  closed_path : bool;
  user_path_uv_v : list R;
  user_path_verts : nat
}.

Definition n_pts (l : Panel) : nat := List.length (panel_y l).

(** Modelled from the spec: faces of one ring, [k] of them for a closed
    profile ("the last profile point connects back to the first within each
    ring"), [k - 1] for an open one. *)
Definition profil_faces (l : Panel) : nat :=
  if closed_shape l then n_pts l else (n_pts l - 1)%nat.

(** Modelled from the spec: rings of faces along the path, [m - 1] for an open
    path, [m] for a closed one ("the last ring connects back to the first ring
    instead of terminating"). *)
Definition n_path_faces (l : Panel) : nat :=
  if closed_path l then user_path_verts l else (user_path_verts l - 1)%nat.

Definition quad : Type := (nat * nat * nat * nat)%type.

(** Modelled from the spec: [Panel.faces] of panel.py, "a ring of |profile|
    vertices per section, connected to the next section's ring, forming a quad
    strip".  The spec does not fix the order of a quad's four corners. *)
Definition Panel_faces (l : Panel) (offset : nat) : list quad :=
  flat_map
    (fun i =>
       let k0 := (offset + i * n_pts l)%nat in
       let k1 := if closed_path l && (S i =? user_path_verts l)%nat
                 then offset else (k0 + n_pts l)%nat in
       map (fun j =>
              let j1 := if (S j =? n_pts l)%nat then 0%nat else S j in
              ((k1 + j)%nat, (k1 + j1)%nat, (k0 + j1)%nat, (k0 + j)%nat))
           (seq 0 (profil_faces l)))
    (seq 0 (n_path_faces l)).

(** Modelled from the spec: [Panel.mat] of panel.py, "materialIds: sequence of
    int aligned with faces": face [j] of each ring carries [idmat[j]]. *)
Definition Panel_mat (l : Panel) : list Z :=
  flat_map (fun _ => firstn (profil_faces l) (panel_idmat l))
           (seq 0 (n_path_faces l)).

Definition uv_quad : Type := list (R * R).

(** ** make_profile *)

Record Buffers : Type := mkBuffers {
  verts : list Vector3;
  faces : list quad;
  matids : list Z;
  uvs : list uv_quad
}.

Section MakeProfile.

(** [Panel.uv] of panel.py: the layout of the UV quads is in neither the
    sources nor the spec, and is taken as a parameter. *)
Variable Panel_uv : Panel -> list uv_quad.

(** [MoldingGenerator.make_profile].  The state it leaves is the generator,
    whose segments got their offset line, and the caller's buffers.
    [sections[-1] = (n, dz, z0)] rewrites the entry it has just read and is
    left out. *)
Definition make_profile (g : MoldingGenerator) (profile : list Vector) (idmat : Z)
  (x_offset z_offset extend : R) (closed : bool) (b : Buffers)
  : outcome (MoldingGenerator * Buffers) :=
  let ss := offset_loop x_offset None (segs g) in
  let g' := mkGenerator (parts g) ss in
  match ss with
  | [] => Done (g', b)
  | f :: _ =>
      match build_sections ss f with
      | Raise e => Failed e (g', b)
      | Ok (closed_path, sections) =>
          let user_path_verts := List.length sections in
          let offset := List.length (verts b) in
          match sections with
          | [] => Done (g', b)
          | first :: _ =>
              let n_sections := (user_path_verts - 1)%nat in
              let st := mkSweep (p (frame_line first))
                                (normalized (v (frame_line first))) None (verts b) [] in
              match sweep_loop profile z_offset closed_path sections n_sections 0 sections st with
              | Failed e st' =>
                  Failed e (g', mkBuffers (sw_verts st') (faces b) (matids b) (uvs b))
              | Done st' =>
                  let user_path_verts :=
                    if closed_path then (user_path_verts - 1)%nat else user_path_verts in
                  let lofter :=
                    mkPanel closed
                            (seq 0 (List.length profile))
                            (map x profile)
                            (map y profile)
                            (map (fun _ => idmat) (seq 0 (List.length profile)))
                            closed_path (sw_uv st') user_path_verts in
                  Done (g', mkBuffers (sw_verts st')
                                      (faces b ++ Panel_faces lofter offset)
                                      (matids b ++ Panel_mat lofter)
                                      (uvs b ++ Panel_uv lofter))
              end
          end
      end
  end.

End MakeProfile.

(** ** update: the profiles *)

(** [archipack_molding.update], the profile of ['SQUARE'] *)
Definition molding_SQUARE (profil_x profil_y : R) : list Vector :=
  [mkVector 0 profil_y; mkVector 0 0; mkVector profil_x 0; mkVector profil_x profil_y].

(** [archipack_molding.update], the profile of ['CIRCLE']: the radius is
    [min(self.profil_radius, x, y)], the rounded corner has [segs = 6] steps of
    [da = pi / (2 * segs)]. *)
Definition molding_CIRCLE (profil_x profil_y profil_radius : R) : list Vector :=
  let r := Rmin (Rmin profil_radius profil_x) profil_y in
  let segs := 6%nat in
  let da := PI / (2 * INR segs) in
  [mkVector 0 profil_y; mkVector 0 0; mkVector profil_x 0]
    ++ map (fun a => mkVector (profil_x + r * (cos (INR a * da) - 1))
                              (profil_y + r * (sin (INR a * da) - 1)))
           (seq 0 (segs + 1)).

(** [archipack_molding.update], the table of the profile of ['COMPLEX'] *)
Definition COMPLEX_table : list (R * R) :=
  [(-0.28, 1.83); (-0.355, 1.77); (-0.415, 1.695); (-0.46, 1.605); (-0.49, 1.51);
   (-0.5, 1.415); (-0.49, 1.315); (-0.46, 1.225); (-0.415, 1.135); (-0.355, 1.06);
   (-0.28, 1.0); (-0.255, 0.925); (-0.33, 0.855); (-0.5, 0.855); (-0.5, 0.0);
   (0.5, 0.0); (0.5, 0.855); (0.33, 0.855); (0.255, 0.925); (0.28, 1.0);
   (0.355, 1.06); (0.415, 1.135); (0.46, 1.225); (0.49, 1.315); (0.5, 1.415);
   (0.49, 1.51); (0.46, 1.605); (0.415, 1.695); (0.355, 1.77); (0.28, 1.83);
   (0.19, 1.875); (0.1, 1.905); (0.0, 1.915); (-0.095, 1.905); (-0.19, 1.875)].

(** [archipack_molding.update], the profile of ['COMPLEX']:
    [[Vector((sx * x, sy * y)) for x, y in [...]]] *)
Definition molding_COMPLEX (profil_x profil_y : R) : list Vector :=
  map (fun xy => mkVector (profil_x * fst xy) (profil_y * snd xy)) COMPLEX_table.

(** ** from_spline *)

(** [from_spline], the branch of a ['POLY'] spline:
    [pts = [wM * p.co.to_3d() for p in spline.points]], closed by
    [pts.append(pts[0])] when the spline is cyclic. *)
Definition spline_points_POLY (wM : Vector3 -> Vector3) (points : list Vector3)
  (use_cyclic_u : bool) : result (list Vector3) :=
  let pts := map wM points in
  if use_cyclic_u then
    match pts with
    | [] => Raise IndexError
    | p0 :: _ => Ok (pts ++ [p0])
    end
  else Ok pts.

(** [math.atan2(y, x)] on reals, with values in (-pi, pi] *)
Definition atan2 (yy xx : R) : R :=
  if Rlt_dec 0 xx then atan (yy / xx)
  else if Rlt_dec xx 0 then
    if Rle_dec 0 yy then atan (yy / xx) + PI else atan (yy / xx) - PI
  else if Rlt_dec 0 yy then PI / 2
  else if Rlt_dec yy 0 then - (PI / 2)
  else 0.

(** The two corrections of [da]:
    [if da > pi: da -= 2 * pi] then [if da < -pi: da += 2 * pi] *)
Definition wrap_angle (da : R) : R :=
  let da1 := if Rgt_dec da PI then da - 2 * PI else da in
  if Rlt_dec da1 (- PI) then da1 + 2 * PI else da1.

(** [length = FloatProperty(min=0.01)]: a value below the minimum of the
    property is stored as the minimum. *)
Definition length_property (value : R) : R := Rmax 0.01 value.

(** [a0 = FloatProperty(min=-2 * pi, max=2 * pi)]: a value outside the limits
    of the property is stored as the nearer limit. *)
Definition a0_property (value : R) : R := Rmax (- 2 * PI) (Rmin (2 * PI) value).

(** [for i, p1 in enumerate(pts)] of [from_spline]: the values the properties
    of [self.parts[i]] hold after [p.length = ...; p.dz = ...; p.a0 = da], in
    order.  The loop's own [a0] adds up [da], not the stored [p.a0]. *)
Fixpoint from_spline_loop (p0 : Vector3) (a0 : R) (pts : list Vector3)
  : list archipack_molding_part :=
  match pts with
  | [] => []
  | p1 :: rest =>
      let dp := vsub3 p1 p0 in
      let da := wrap_angle (atan2 (y3 dp) (x3 dp) - a0) in
      mkPart (length_property (vlength (to_2d dp))) (a0_property da) (z3 dp)
        :: from_spline_loop p1 (a0 + da) rest
  end.

(** A part as [parts.add()] creates it: the defaults of the properties *)
Definition default_part : archipack_molding_part := mkPart 2 0 0.

(** [update_parts]: the collection cut or filled up to [n_parts] entries *)
Definition update_parts (n_parts : nat) (ps : list archipack_molding_part)
  : list archipack_molding_part :=
  firstn n_parts ps ++ repeat default_part (n_parts - List.length ps).

(** [p = self.parts[i]; p.length = ...; p.dz = ...; p.a0 = ...] for the
    successive [i]: the three fields of the first entries are overwritten. *)
Fixpoint assign_parts (ps written : list archipack_molding_part)
  : list archipack_molding_part :=
  match written, ps with
  | [], _ => ps
  | w :: ws, _ :: ps' => w :: assign_parts ps' ws
  | _ :: _, [] => []
  end.

(** [archipack_molding.from_spline], from the sampled points [pts] on:
    [n_parts] has the minimum 1 of its property. *)
Definition from_spline (ps : list archipack_molding_part) (user_path_reverse : bool)
  (pts : list Vector3) : list archipack_molding_part :=
  let n_parts := Nat.max 1 (List.length pts - 1) in
  let ps := update_parts n_parts ps in
  match (if user_path_reverse then rev pts else pts) with
  | [] => ps
  | p0 :: rest => assign_parts ps (from_spline_loop p0 0 rest)
  end.

(** ** from_spline: a 'BEZIER' spline *)

(** A point of [spline.bezier_points] *)
Record BezierSplinePoint : Type := mkBezierSplinePoint {
  co : Vector3;
  handle_left : Vector3;
  handle_right : Vector3
}.

Definition vlength3 (a : Vector3) : R :=
  sqrt (x3 a * x3 a + y3 a * y3 a + z3 a * z3 a).

(** [v.normalized()] on a 3d vector *)
Definition normalized3 (a : Vector3) : Vector3 :=
  if Req_dec_T (vlength3 a) 0 then mkVector3 0 0 0
  else mkVector3 (x3 a / vlength3 a) (y3 a / vlength3 a) (z3 a / vlength3 a).

(** [d1 == v] on vectors: equality of the coordinates, here on reals *)
Definition veq3 (a b : Vector3) : bool :=
  if Req_dec_T (x3 a) (x3 b) then
    if Req_dec_T (y3 a) (y3 b) then
      if Req_dec_T (z3 a) (z3 b) then true else false
    else false
  else false.

(** [for i in range(resolution): pts.append(seg[i].to_3d())]; [seg[i]] raises
    [IndexError] past the end of [seg]. *)
Fixpoint append_first (n : nat) (seg pts : list Vector3) : result (list Vector3) :=
  match n with
  | O => Ok pts
  | S n' =>
      match seg with
      | [] => Raise IndexError
      | q :: seg' => append_first n' seg' (pts ++ [q])
      end
  end.

Section Bezier.

(** [mathutils.geometry.interpolate_bezier(knot1, handle1, handle2, knot2,
    resolution)], a function of the host. *)
Variable geometry_interpolate_bezier :
  Vector3 -> Vector3 -> Vector3 -> Vector3 -> nat -> list Vector3.

(** [archipack_molding.interpolate_bezier(pts, wM, p0, p1, resolution)]: the
    value of [pts] after the call.  [resolution] is the [IntProperty]
    [user_defined_resolution], not negative. *)
Definition interpolate_bezier (pts : list Vector3) (wM : Vector3 -> Vector3)
  (p0 p1 : BezierSplinePoint) (resolution : nat) : result (list Vector3) :=
  match resolution with
  | O => Ok (pts ++ [wM (co p0)])
  | S _ =>
      let v := normalized3 (vsub3 (co p1) (co p0)) in
      let d1 := normalized3 (vsub3 (handle_right p0) (co p0)) in
      let d2 := normalized3 (vsub3 (co p1) (handle_left p1)) in
      if veq3 d1 v && veq3 d2 v then Ok (pts ++ [wM (co p0)])
      else
        let seg := geometry_interpolate_bezier
                     (wM (co p0)) (wM (handle_right p0))
                     (wM (handle_left p1)) (wM (co p1)) (S resolution) in
        append_first resolution seg pts
  end.

(** [for i in range(1, len(points))] of [from_spline], with [p0 = points[i - 1]]
    and [p1 = points[i]] *)
Fixpoint bezier_loop (wM : Vector3 -> Vector3) (resolution : nat)
  (p0 : BezierSplinePoint) (rest : list BezierSplinePoint) (pts : list Vector3)
  : result (list Vector3) :=
  match rest with
  | [] => Ok pts
  | p1 :: rest' =>
      pts' <- interpolate_bezier pts wM p0 p1 resolution ;;
      bezier_loop wM resolution p1 rest' pts'
  end.

(** [from_spline], the branch of a ['BEZIER'] spline.  Both ends of the branch
    read [points[-1]], which raises [IndexError] on a spline without points. *)
Definition spline_points_BEZIER (wM : Vector3 -> Vector3) (resolution : nat)
  (points : list BezierSplinePoint) (use_cyclic_u : bool) : result (list Vector3) :=
  match points with
  | [] => Raise IndexError
  | first :: rest =>
      pts <- bezier_loop wM resolution first rest [] ;;
      if use_cyclic_u then
        pts <- interpolate_bezier pts wM (last points first) first resolution ;;
        match pts with
        | [] => Raise IndexError
        | q :: _ => Ok (pts ++ [q])
        end
      else Ok (pts ++ [wM (co (last points first))])
  end.

End Bezier.

(** * The vocabulary of the statements *)

(** The offset line [set_offset] and [make_profile] give a segment *)
Definition offset_line (offset : R) (s : StraightMolding) : Line :=
  make_offset (base s) offset None.

(** [f.line.length == 0] negated *)
Definition nonzero (l : Line) : bool :=
  if Req_dec_T (length l) 0 then false else true.

(** The number of segments whose offset line has a nonzero length *)
Definition n_nonzero (offset : R) (ss : list StraightMolding) : nat :=
  List.length (filter (fun s => nonzero (offset_line offset s)) ss).

(** The section at the end of a segment with a nonzero offset line *)
Definition end_section (offset : R) (s : StraightMolding) : section_frame :=
  (sized_normal (offset_line offset s) 1 1,
   dz s / length (offset_line offset s),
   z0 s + dz s).

(** The test [closed_path] of a chain whose first segment is [f] *)
Definition chain_closed (offset : R) (f : StraightMolding) (ss : list StraightMolding)
  : bool :=
  is_closed_path (offset_line offset f) (offset_line offset (last ss f)).

(** The list [sections] of a chain whose first segment is [f] *)
Definition chain_sections (offset : R) (f : StraightMolding) (ss : list StraightMolding)
  : list section_frame :=
  ((if chain_closed offset f ss
    then sized_normal (offset_line offset (last ss f)) 1 1
    else sized_normal (offset_line offset f) 0 1),
   dz f / length (offset_line offset f),
   z0 f)
    :: map (end_section offset)
           (filter (fun s => nonzero (offset_line offset s)) ss).


(** The spec's SectionFrame: what the sweep uses at one emitted section *)
Record SectionFrame : Type := mkFrame {
  position : Vector;
  tangentDirection : Vector;
  mitreScale : R;
  elevationAtSection : R
}.

(** The frame at a joint: its direction is the normalized sum of the unit
    vectors of the incoming and the outgoing section. *)
Definition joint_frame (sec : section_frame) (v_in v_out : Vector) : SectionFrame :=
  mkFrame (p (frame_line sec)) (normalized (vadd v_in v_out))
          (mitre_scale v_in v_out) (frame_z sec).

(** The frames emitted for the sections [secs]: every section but the last
    joins its own vector with the next section's; the last section of an open
    path has only its own vector, the last section of a closed path is the
    wrap joint again and is left out. *)
Fixpoint frames_of (closed_path : bool) (secs : list section_frame) : list SectionFrame :=
  match secs with
  | [] => []
  | sec :: rest =>
      let v_in := normalized (v (frame_line sec)) in
      match rest with
      | [] => if closed_path then [] else [joint_frame sec v_in v_in]
      | nxt :: _ =>
          joint_frame sec v_in (normalized (v (frame_line nxt)))
            :: frames_of closed_path rest
      end
  end.

(** The vertices of one frame: [frame.position + mitreScale * px * dir] in the
    plane, [elevation + py + zOffset] in height. *)
Definition frame_vertices (z_offset : R) (profile : list Vector) (fr : SectionFrame)
  : list Vector3 :=
  map (fun pt =>
         mkVector3 (x (position fr) + mitreScale fr * x pt * x (tangentDirection fr))
                   (y (position fr) + mitreScale fr * x pt * y (tangentDirection fr))
                   (elevationAtSection fr + y pt + z_offset))
      profile.

(** [user_path_uv_v]: the distances between successive section positions,
    starting from the position [p0]. *)
Fixpoint path_steps (p0 : Vector) (todo : list section_frame) : list R :=
  match todo with
  | [] => []
  | sec :: rest =>
      vlength (vsub (p (frame_line sec)) p0) :: path_steps (p (frame_line sec)) rest
  end.

(** The number of frames the sweep emits and hands to the lofter as
    [user_path_verts] *)
Definition frame_count (cp : bool) (secs : list section_frame) : nat :=
  if cp then (List.length secs - 1)%nat else List.length secs.

(** The lofter [make_profile] builds *)
Definition sweep_panel (closed : bool) (profile : list Vector) (idmat : Z)
  (cp : bool) (secs : list section_frame) : Panel :=
  mkPanel closed
          (seq 0 (List.length profile))
          (map x profile)
          (map y profile)
          (map (fun _ => idmat) (seq 0 (List.length profile)))
          cp
          match secs with
          | [] => []
          | first :: rest => path_steps (p (frame_line first)) rest
          end
          (frame_count cp secs).

(** The buffers after a call that completes *)
Definition swept_buffers (Panel_uv : Panel -> list uv_quad)
  (closed : bool) (profile : list Vector) (idmat : Z) (z_offset : R)
  (cp : bool) (secs : list section_frame) (b : Buffers) : Buffers :=
  let lofter := sweep_panel closed profile idmat cp secs in
  mkBuffers (verts b ++ flat_map (frame_vertices z_offset profile) (frames_of cp secs))
            (faces b ++ Panel_faces lofter (List.length (verts b)))
            (matids b ++ Panel_mat lofter)
            (uvs b ++ Panel_uv lofter).

(** The generator after the head of [make_profile] *)
Definition reoffset (g : MoldingGenerator) (offset : R) : MoldingGenerator :=
  mkGenerator (parts g) (map (fun s => Molding_set_offset s offset None) (segs g)).

(** The state a call leaves behind, whether it completed or raised *)
Definition state_after {S : Type} (o : outcome S) : S :=
  match o with
  | Done s => s
  | Failed _ s => s
  end.

(** The caller's four buffers after a call of [make_profile] *)
Definition buffers_after (o : outcome (MoldingGenerator * Buffers)) : Buffers :=
  snd (state_after o).

(** The frames a call gets to sweep: none on an empty chain, none when the
    first section cannot be built. *)
Definition emitted_frames (x_offset : R) (g : MoldingGenerator) : list SectionFrame :=
  match segs g with
  | [] => []
  | f :: _ =>
      if nonzero (offset_line x_offset f)
      then frames_of (chain_closed x_offset f (segs g))
                     (chain_sections x_offset f (segs g))
      else []
  end.

(** [new] holds [old] as a prefix: every old entry is there, at its index. *)
Definition extends {A : Type} (old new : list A) : Prop :=
  exists added, new = old ++ added.

(** The segment [add_part] makes of the first part *)
Definition first_molding (part : archipack_molding_part) : StraightMolding :=
  StraightMolding_init
    (mkVector 0 0)
    (smul (part_length part) (mkVector (cos (part_a0 part)) (sin (part_a0 part)))).

(** A segment reduced to the origin *)
Definition degenerate (s : StraightMolding) : Prop :=
  base s = mkLine vzero vzero.

(** A segment with the elevation fields of [Molding.__init__] *)
Definition flat (s : StraightMolding) : Prop := dz s = 0 /\ z0 s = 0.

(** The unit vector of a section: [n.v.normalized()] *)
Definition section_unit (sec : section_frame) : Vector :=
  normalized (v (frame_line sec)).

(** The segments whose offset line is not degenerate, in order *)
Definition nonzero_segs (offset : R) (ss : list StraightMolding) : list StraightMolding :=
  filter (fun s => nonzero (offset_line offset s)) ss.

(** The turns written so far: the value of [a0] in the loop *)
Definition sum_a0 (ps : list archipack_molding_part) : R :=
  fold_right (fun part acc => part_a0 part + acc) 0 ps.

(** [atan2(dp.y, dp.x)] for the step from [pt] to [qt] *)
Definition heading (pt qt : Vector3) : R :=
  atan2 (y3 (vsub3 qt pt)) (x3 (vsub3 qt pt)).

(** The corners of the square of side 2 *)
Definition square_points : list Vector3 :=
  [mkVector3 0 0 0; mkVector3 2 0 0; mkVector3 2 2 0; mkVector3 0 2 0].

(** The four parts of the square of side 2, walked from the origin along x *)
Definition square_chain_parts : list archipack_molding_part :=
  [mkPart 2 0 0; mkPart 2 (PI / 2) 0; mkPart 2 (PI / 2) 0; mkPart 2 (PI / 2) 0].

(** The chain of lines that starts at [pt] and turns by each part's [a0] from
    the heading [A], each line as long as its part *)
Fixpoint polar_chain (pt : Vector) (A : R) (ps : list archipack_molding_part)
  : list Line :=
  match ps with
  | [] => []
  | part :: rest =>
      let A' := A + part_a0 part in
      let vec := smul (part_length part) (mkVector (cos A') (sin A')) in
      mkLine pt vec :: polar_chain (vadd pt vec) A' rest
  end.

(** The lines from point to point of a sampled path, in the plane, the first
    one starting at [pt] *)
Fixpoint path_lines (pt : Vector) (p0 : Vector3) (rest : list Vector3) : list Line :=
  match rest with
  | [] => []
  | p1 :: r =>
      let d := to_2d (vsub3 p1 p0) in
      mkLine pt d :: path_lines (vadd pt d) p1 r
  end.

(** Each line starts where the one before it ends *)
Fixpoint chained (ls : list Line) : Prop :=
  match ls with
  | a :: (b :: _) as tl => p b = lerp a 1 /\ chained tl
  | _ => True
  end.

(** Once a line has no direction, the lines after it are that same line *)
Fixpoint stuck (ls : list Line) : Prop :=
  match ls with
  | a :: tl => (v a = vzero -> Forall (fun b => b = a) tl) /\ stuck tl
  | [] => True
  end.

(** Every step of the path is, in the plane, at least as long as the minimum
    0.01 of the length property *)
Fixpoint planar_steps (p0 : Vector3) (rest : list Vector3) : Prop :=
  match rest with
  | [] => True
  | p1 :: r => 0.01 <= vlength (to_2d (vsub3 p1 p0)) /\ planar_steps p1 r
  end.

(** A value for each step of a path, from a point to the next one *)
Fixpoint step_values {B : Type} (f : Vector3 -> Vector3 -> B) (pts : list Vector3)
  : list B :=
  match pts with
  | a :: (b :: _) as tl => f a b :: step_values f tl
  | _ => []
  end.

(** [k * v] on a 3d vector *)
Definition smul3 (k : R) (a : Vector3) : Vector3 :=
  mkVector3 (k * x3 a) (k * y3 a) (k * z3 a).

(** A straight segment of a Bezier spline: both handles lie on the chord side
    of their point, in the direction of the chord *)
Definition straight_segment (p0 p1 : BezierSplinePoint) : Prop :=
  exists k1 k2 : R,
    0 < k1 /\ 0 < k2
    /\ vsub3 (handle_right p0) (co p0) = smul3 k1 (vsub3 (co p1) (co p0))
    /\ vsub3 (co p1) (handle_left p1) = smul3 k2 (vsub3 (co p1) (co p0)).

Fixpoint straight_run (p0 : BezierSplinePoint) (rest : list BezierSplinePoint) : Prop :=
  match rest with
  | [] => True
  | p1 :: r => straight_segment p0 p1 /\ straight_run p1 r
  end.

(** Every segment of the spline is straight, the closing one of a cyclic
    spline too *)
Definition straight_spline (points : list BezierSplinePoint) (use_cyclic_u : bool) : Prop :=
  match points with
  | [] => True
  | first :: rest =>
      straight_run first rest
      /\ (use_cyclic_u = true -> straight_segment (last points first) first)
  end.

(** [mathutils.geometry.interpolate_bezier] returns as many points as it is
    asked for *)
Definition returns_resolution
  (geometry_interpolate_bezier :
     Vector3 -> Vector3 -> Vector3 -> Vector3 -> nat -> list Vector3) : Prop :=
  forall k1 h1 h2 k2 n,
    List.length (geometry_interpolate_bezier k1 h1 h2 k2 n) = n.

(** * Properties *)

(** ** Vectors *)

Lemma vector_eq (a b : Vector) : x a = x b -> y a = y b -> a = b.
Proof. destruct a, b; simpl; intros; subst; reflexivity. Qed.

Lemma vlength_nonneg (a : Vector) : 0 <= vlength a.
Proof. apply sqrt_pos. Qed.

Lemma vlength_zero_iff (a : Vector) : vlength a = 0 <-> a = vzero.
Proof.
  unfold vlength; split.
  - intros H. apply sqrt_eq_0 in H; [|nra].
    apply vector_eq; simpl; nra.
  - intros ->. simpl. replace (0 * 0 + 0 * 0) with 0 by ring. apply sqrt_0.
Qed.

Lemma vlength_vzero : vlength vzero = 0.
Proof. apply vlength_zero_iff; reflexivity. Qed.

Lemma vlength_smul (k : R) (a : Vector) : vlength (smul k a) = Rabs k * vlength a.
Proof.
  unfold vlength, smul; simpl.
  replace (k * x a * (k * x a) + k * y a * (k * y a))
    with (k² * (x a * x a + y a * y a)) by (unfold Rsqr; ring).
  rewrite sqrt_mult_alt by apply Rle_0_sqr.
  now rewrite sqrt_Rsqr_abs.
Qed.

Lemma vlength_left_normal (a : Vector) : vlength (left_normal a) = vlength a.
Proof. unfold vlength, left_normal; simpl. f_equal. ring. Qed.

Lemma normalized_vzero : normalized vzero = vzero.
Proof.
  unfold normalized. destruct (Req_dec_T (vlength vzero) 0) as [_|H]; [reflexivity|].
  now destruct H; apply vlength_vzero.
Qed.

Lemma vlength_normalized (a : Vector) : vlength a <> 0 -> vlength (normalized a) = 1.
Proof.
  intros H. unfold normalized. destruct (Req_dec_T (vlength a) 0); [contradiction|].
  rewrite vlength_smul. pose proof (vlength_nonneg a).
  rewrite Rabs_pos_eq; [now field|].
  left. apply Rinv_0_lt_compat. lra.
Qed.

Lemma normalized_unit (a : Vector) : vlength a = 1 -> normalized a = a.
Proof.
  intros H. unfold normalized. destruct (Req_dec_T (vlength a) 0); [lra|].
  rewrite H. apply vector_eq; simpl; field.
Qed.

Lemma dot_self (a : Vector) : dot a a = (vlength a)².
Proof.
  unfold dot, vlength. rewrite Rsqr_sqrt; [reflexivity|nra].
Qed.

(** ** The offset chain *)

Lemma offset_loop_map (offset : R) (ss : list StraightMolding) :
  forall lst, offset_loop offset lst ss
              = map (fun s => Molding_set_offset s offset None) ss.
Proof.
  induction ss as [|s ss IH]; intros lst; simpl; [reflexivity|].
  rewrite IH. reflexivity.
Qed.

Lemma get_line_set_offset (s : StraightMolding) (offset : R) :
  get_line (Molding_set_offset s offset None) = Ok (offset_line offset s).
Proof. reflexivity. Qed.

Lemma last_map {A B : Type} (f : A -> B) (l : list A) (d : A) :
  last (map f l) (f d) = f (last l d).
Proof.
  induction l as [|a l IH]; [reflexivity|].
  destruct l; [reflexivity|]. exact IH.
Qed.

(** ** The sections *)

Lemma sections_loop_ok (offset : R) (ss : list StraightMolding) :
  forall init,
    sections_loop (map (fun s => Molding_set_offset s offset None) ss) init
    = Ok (init ++ map (end_section offset)
                      (filter (fun s => nonzero (offset_line offset s)) ss)).
Proof.
  induction ss as [|s ss IH]; intros init; simpl.
  - now rewrite app_nil_r.
  - unfold nonzero at 1, pydiv.
    destruct (Req_dec_T (length (offset_line offset s)) 0) as [Hz|Hz]; simpl.
    + fold (offset_line offset s). rewrite Hz.
      destruct (Req_dec_T 0 0); [|lra]. apply IH.
    + fold (offset_line offset s).
      destruct (Req_dec_T (length (offset_line offset s)) 0); [contradiction|].
      simpl. rewrite IH, <- app_assoc. reflexivity.
Qed.

Lemma build_sections_ok (offset : R) (f : StraightMolding) (ss : list StraightMolding) :
  nonzero (offset_line offset f) = true ->
  build_sections (map (fun s => Molding_set_offset s offset None) ss)
                 (Molding_set_offset f offset None)
  = Ok (chain_closed offset f ss, chain_sections offset f ss).
Proof.
  intros Hnz. unfold build_sections.
  rewrite get_line_set_offset. simpl bind.
  rewrite (last_map (fun s => Molding_set_offset s offset None)).
  rewrite get_line_set_offset. simpl bind.
  unfold nonzero in Hnz. unfold pydiv.
  destruct (Req_dec_T (length (offset_line offset f)) 0); [discriminate|].
  simpl bind. rewrite sections_loop_ok. reflexivity.
Qed.

Lemma build_sections_zero (offset : R) (f : StraightMolding) (ss : list StraightMolding) :
  nonzero (offset_line offset f) = false ->
  build_sections (map (fun s => Molding_set_offset s offset None) ss)
                 (Molding_set_offset f offset None)
  = Raise ZeroDivisionError.
Proof.
  intros Hnz. unfold build_sections.
  rewrite get_line_set_offset. simpl bind.
  rewrite (last_map (fun s => Molding_set_offset s offset None)).
  rewrite get_line_set_offset. simpl bind.
  unfold nonzero in Hnz. unfold pydiv.
  destruct (Req_dec_T (length (offset_line offset f)) 0); [reflexivity|discriminate].
Qed.

Lemma chain_sections_length (offset : R) (f : StraightMolding) (ss : list StraightMolding) :
  List.length (chain_sections offset f ss) = S (n_nonzero offset ss).
Proof. unfold chain_sections, n_nonzero. simpl. now rewrite length_map. Qed.

(** ** The frames of the sweep *)

Lemma frames_of_length (closed_path : bool) (secs : list section_frame) :
  secs <> [] ->
  List.length (frames_of closed_path secs)
  = if closed_path then (List.length secs - 1)%nat else List.length secs.
Proof.
  induction secs as [|sec rest IH]; [congruence|]. intros _.
  destruct rest as [|nxt rest'].
  - simpl. now destruct closed_path.
  - change (frames_of closed_path (sec :: nxt :: rest'))
      with (joint_frame sec (normalized (v (frame_line sec)))
                        (normalized (v (frame_line nxt)))
              :: frames_of closed_path (nxt :: rest')).
    cbn [List.length]. rewrite IH by congruence.
    destruct closed_path; cbn [List.length]; lia.
Qed.

Lemma frame_vertices_length (z_offset : R) (profile : list Vector) (frs : list SectionFrame) :
  List.length (flat_map (frame_vertices z_offset profile) frs)
  = (List.length profile * List.length frs)%nat.
Proof.
  induction frs as [|fr frs IH]; simpl; [lia|].
  rewrite length_app, IH. unfold frame_vertices. rewrite length_map. lia.
Qed.

Lemma sweep_loop_done (profile : list Vector) (z_offset : R) (cp : bool)
  (sections : list section_frame) :
  forall todo pre st,
    sections = pre ++ todo ->
    match todo with
    | sec :: _ => sw_v0 st = normalized (v (frame_line sec))
    | [] => True
    end ->
    (pre <> [] -> sw_v1 st = Some (sw_v0 st)) ->
    (cp = true \/ pre <> [] \/ (2 <= List.length todo)%nat) ->
    exists st',
      sweep_loop profile z_offset cp sections (List.length sections - 1)
                 (List.length pre) todo st = Done st'
      /\ sw_verts st'
         = sw_verts st ++ flat_map (frame_vertices z_offset profile) (frames_of cp todo)
      /\ sw_uv st'
         = sw_uv st ++ match pre, todo with
                       | [], sec :: rest => path_steps (p (frame_line sec)) rest
                       | _, _ => path_steps (sw_p0 st) todo
                       end.
Proof.
  induction todo as [|sec rest IH]; intros pre st Hs Hv0 Hv1 Hcase.
  - exists st. simpl. destruct pre; now rewrite !app_nil_r.
  - assert (Hlen : (List.length sections - 1 = List.length pre + List.length rest)%nat).
    { rewrite Hs, length_app. simpl. lia. }
    assert (Huv : forall A B : list R,
               (if (0 <? List.length pre)%nat then A else B)
               = match pre with [] => B | _ => A end).
    { intros A B. destruct pre; reflexivity. }
    destruct rest as [|nxt rest'].
    + simpl. rewrite Hlen, Huv. simpl.
      replace (List.length pre <? List.length pre + 0)%nat with false
        by (symmetry; apply Nat.ltb_ge; lia).
      destruct cp.
      * eexists; split; [reflexivity|]. simpl. rewrite app_nil_r.
        split; [reflexivity|]. destruct pre; [now rewrite app_nil_r|reflexivity].
      * assert (Hpre : pre <> []).
        { destruct Hcase as [H|[H|H]]; [discriminate|exact H|simpl in H; lia]. }
        rewrite (Hv1 Hpre). eexists; split; [reflexivity|].
        simpl. rewrite app_nil_r, Hv0. split; [reflexivity|].
        destruct pre; [congruence|reflexivity].
    + assert (Hnth : nth_error sections (S (List.length pre)) = Some nxt).
      { rewrite Hs. rewrite nth_error_app2 by lia.
        replace (S (List.length pre) - List.length pre)%nat with 1%nat by lia.
        reflexivity. }
      assert (Hlt : (List.length pre <? List.length sections - 1)%nat = true).
      { apply Nat.ltb_lt. rewrite Hlen. simpl. lia. }
      assert (Hfr : frames_of cp (sec :: nxt :: rest')
                    = joint_frame sec (normalized (v (frame_line sec)))
                                  (normalized (v (frame_line nxt)))
                        :: frames_of cp (nxt :: rest')) by reflexivity.
      rewrite Hfr. clear Hfr.
      remember (nxt :: rest') as rest eqn:Hrest.
      cbn [sweep_loop]. rewrite Hlt, Hnth, Huv. cbv zeta.
      match goal with
      | |- exists st', sweep_loop _ _ _ _ _ _ _ ?st1 = _ /\ _ =>
          destruct (IH (pre ++ [sec]) st1) as [st' [Hrun [Hverts Huvs]]]
      end.
      * rewrite <- app_assoc. exact Hs.
      * reflexivity.
      * intros _. reflexivity.
      * right; left. destruct pre; discriminate.
      * exists st'. split; [|split].
        -- rewrite length_app in Hrun. simpl in Hrun.
           rewrite Nat.add_1_r in Hrun. exact Hrun.
        -- rewrite Hverts. cbn [sw_verts flat_map]. rewrite <- app_assoc.
           rewrite Hv0. reflexivity.
        -- rewrite Huvs. cbn [sw_uv sw_p0].
           destruct pre; cbn [app]; [reflexivity|].
           rewrite <- app_assoc. reflexivity.
Qed.

(** ** make_profile on a chain whose first offset line is not degenerate *)

Lemma nonzero_filter_head (offset : R) (f : StraightMolding) (rest : list StraightMolding) :
  nonzero (offset_line offset f) = true ->
  (1 <= n_nonzero offset (f :: rest))%nat.
Proof. intros H. unfold n_nonzero. simpl. rewrite H. simpl. lia. Qed.

Lemma make_profile_done (Panel_uv : Panel -> list uv_quad) (g : MoldingGenerator)
  (f : StraightMolding) (rest : list StraightMolding)
  (profile : list Vector) (idmat : Z) (x_offset z_offset extend : R)
  (closed : bool) (b : Buffers) :
  segs g = f :: rest ->
  nonzero (offset_line x_offset f) = true ->
  make_profile Panel_uv g profile idmat x_offset z_offset extend closed b
  = Done (reoffset g x_offset,
          swept_buffers Panel_uv closed profile idmat z_offset
                        (chain_closed x_offset f (segs g))
                        (chain_sections x_offset f (segs g)) b).
Proof.
  intros Hsegs Hnz. unfold make_profile, reoffset.
  rewrite offset_loop_map, Hsegs. cbv zeta.
  cbn [map]. cbv beta iota.
  change (Molding_set_offset f x_offset None
            :: map (fun s => Molding_set_offset s x_offset None) rest)
    with (map (fun s => Molding_set_offset s x_offset None) (f :: rest)).
  rewrite (build_sections_ok x_offset f (f :: rest) Hnz).
  set (cp := chain_closed x_offset f (f :: rest)).
  set (secs := chain_sections x_offset f (f :: rest)).
  assert (Hlen : List.length secs = S (n_nonzero x_offset (f :: rest)))
    by apply chain_sections_length.
  pose proof (nonzero_filter_head x_offset f rest Hnz) as Hge.
  destruct secs as [|first more] eqn:Hsecs; [discriminate|].
  cbv beta iota.
  match goal with
  | |- match sweep_loop _ _ _ _ _ _ _ ?st with _ => _ end = _ =>
      destruct (sweep_loop_done profile z_offset cp (first :: more)
                                (first :: more) [] st)
        as [st' [Hrun [Hverts Huvs]]]
  end.
  - reflexivity.
  - reflexivity.
  - congruence.
  - right; right. rewrite Hlen. lia.
  - change (List.length (@nil section_frame)) with 0%nat in Hrun. rewrite Hrun.
    unfold swept_buffers, sweep_panel, frame_count.
    rewrite Hverts, Huvs. reflexivity.
Qed.

Lemma make_profile_zero (Panel_uv : Panel -> list uv_quad) (g : MoldingGenerator)
  (f : StraightMolding) (rest : list StraightMolding)
  (profile : list Vector) (idmat : Z) (x_offset z_offset extend : R)
  (closed : bool) (b : Buffers) :
  segs g = f :: rest ->
  nonzero (offset_line x_offset f) = false ->
  make_profile Panel_uv g profile idmat x_offset z_offset extend closed b
  = Failed ZeroDivisionError (reoffset g x_offset, b).
Proof.
  intros Hsegs Hnz. unfold make_profile, reoffset.
  rewrite offset_loop_map, Hsegs. cbv zeta.
  cbn [map]. cbv beta iota.
  change (Molding_set_offset f x_offset None
            :: map (fun s => Molding_set_offset s x_offset None) rest)
    with (map (fun s => Molding_set_offset s x_offset None) (f :: rest)).
  rewrite (build_sections_zero x_offset f (f :: rest) Hnz). reflexivity.
Qed.

Lemma make_profile_empty (Panel_uv : Panel -> list uv_quad) (g : MoldingGenerator)
  (profile : list Vector) (idmat : Z) (x_offset z_offset extend : R)
  (closed : bool) (b : Buffers) :
  segs g = [] ->
  make_profile Panel_uv g profile idmat x_offset z_offset extend closed b
  = Done (reoffset g x_offset, b).
Proof. intros Hsegs. unfold make_profile, reoffset. rewrite Hsegs. reflexivity. Qed.

(** ** What a call leaves in the buffers *)

Lemma make_profile_verts (Panel_uv : Panel -> list uv_quad) (g : MoldingGenerator)
  (profile : list Vector) (idmat : Z) (x_offset z_offset extend : R)
  (closed : bool) (b : Buffers) :
  verts (buffers_after
           (make_profile Panel_uv g profile idmat x_offset z_offset extend closed b))
  = verts b ++ flat_map (frame_vertices z_offset profile) (emitted_frames x_offset g).
Proof.
  unfold emitted_frames. destruct (segs g) as [|f rest] eqn:Hsegs.
  - rewrite make_profile_empty by assumption. simpl. now rewrite app_nil_r.
  - destruct (nonzero (offset_line x_offset f)) eqn:Hnz.
    + rewrite (make_profile_done _ _ f rest) by assumption.
      rewrite Hsegs. reflexivity.
    + rewrite (make_profile_zero _ _ f rest) by assumption.
      simpl. now rewrite app_nil_r.
Qed.

Lemma extends_nth_error {A : Type} (old new : list A) (i : nat) (a : A) :
  extends old new -> nth_error old i = Some a -> nth_error new i = Some a.
Proof.
  intros [added ->] H. rewrite nth_error_app1; [exact H|].
  apply nth_error_Some. congruence.
Qed.

Lemma extends_refl {A : Type} (l : list A) : extends l l.
Proof. exists []. now rewrite app_nil_r. Qed.

Lemma extends_app {A : Type} (l added : list A) : extends l (l ++ added).
Proof. now exists added. Qed.

(** C10. [make_profile] only appends to the caller's buffers: after every
    call, completed or not, each of [verts], [faces], [matids] and [uvs] is
    the buffer passed in followed by new entries, so every entry present
    before the call is still there at the same index; on an empty segment list
    the call returns with the four buffers as they were passed in. *)
Theorem make_profile_append_only (Panel_uv : Panel -> list uv_quad)
  (g : MoldingGenerator) (profile : list Vector) (idmat : Z)
  (x_offset z_offset extend : R) (closed : bool) (b : Buffers) :
  let run := make_profile Panel_uv g profile idmat x_offset z_offset extend closed b in
  let b' := buffers_after run in
  (extends (verts b) (verts b') /\ extends (faces b) (faces b')
   /\ extends (matids b) (matids b') /\ extends (uvs b) (uvs b'))
  /\ (forall i e, nth_error (verts b) i = Some e -> nth_error (verts b') i = Some e)
  /\ (forall i e, nth_error (faces b) i = Some e -> nth_error (faces b') i = Some e)
  /\ (forall i e, nth_error (matids b) i = Some e -> nth_error (matids b') i = Some e)
  /\ (forall i e, nth_error (uvs b) i = Some e -> nth_error (uvs b') i = Some e)
  /\ (segs g = [] -> exists g', run = Done (g', b)).
Proof.
  intros run b'.
  assert (Hext : extends (verts b) (verts b') /\ extends (faces b) (faces b')
                 /\ extends (matids b) (matids b') /\ extends (uvs b) (uvs b')).
  { subst b' run. destruct (segs g) as [|f rest] eqn:Hsegs.
    - rewrite make_profile_empty by assumption. simpl.
      repeat split; apply extends_refl.
    - destruct (nonzero (offset_line x_offset f)) eqn:Hnz.
      + rewrite (make_profile_done _ _ f rest) by assumption. simpl.
        repeat split; apply extends_app.
      + rewrite (make_profile_zero _ _ f rest) by assumption. simpl.
        repeat split; apply extends_refl. }
  split; [exact Hext|].
  destruct Hext as [Hv [Hf [Hm Hu]]].
  repeat split; try (intros i e; now apply extends_nth_error).
  intros Hsegs. exists (reoffset g x_offset). subst run.
  now apply make_profile_empty.
Qed.

(** ** Chains built by add_part *)

Lemma last_map_Some {A : Type} (l : list A) (d : A) :
  l <> [] -> last (map Some l) None = Some (last l d).
Proof.
  induction l as [|a l IH]; [congruence|]. intros _.
  destruct l as [|a' l']; [reflexivity|].
  change (last (map Some (a' :: l')) None = Some (last (a' :: l') d)).
  apply IH. discriminate.
Qed.

Lemma fold_add_part_segs (ps : list archipack_molding_part) :
  forall g, exists more, segs (fold_left add_part ps g) = segs g ++ more.
Proof.
  induction ps as [|part ps IH]; intros g; simpl.
  - exists []. now rewrite app_nil_r.
  - destruct (IH (add_part g part)) as [more Hmore].
    rewrite Hmore. unfold add_part. cbn [segs].
    rewrite <- app_assoc. now eexists.
Qed.

Lemma build_chain_head (part : archipack_molding_part) (ps : list archipack_molding_part) :
  exists rest, segs (build_chain (part :: ps)) = first_molding part :: rest.
Proof.
  unfold build_chain. simpl.
  destruct (fold_add_part_segs ps (add_part (MoldingGenerator_init (part :: ps)) part))
    as [more Hmore].
  rewrite Hmore. simpl. now eexists.
Qed.

Lemma straight_molding_degenerate (s : StraightMolding) (a0 len : R) :
  degenerate s -> degenerate (straight_molding s a0 len).
Proof.
  unfold degenerate, straight_molding. intros ->.
  unfold StraightMolding_init, rotate, straight, lerp. cbn [base p v].
  rewrite normalized_vzero. f_equal; apply vector_eq; simpl; ring.
Qed.

Lemma add_part_degenerate (g : MoldingGenerator) (part : archipack_molding_part) :
  segs g <> [] -> Forall degenerate (segs g) ->
  Forall degenerate (segs (add_part g part)).
Proof.
  intros Hne Hall. unfold add_part. cbn [segs].
  apply Forall_app. split; [exact Hall|].
  constructor; [|constructor].
  rewrite (last_map_Some _ (first_molding part) Hne).
  apply straight_molding_degenerate.
  rewrite Forall_forall in Hall. apply Hall.
  destruct (exists_last Hne) as [l' [a ->]]. rewrite last_last.
  apply in_or_app. right. now left.
Qed.

Lemma fold_add_part_degenerate (ps : list archipack_molding_part) :
  forall g, segs g <> [] -> Forall degenerate (segs g) ->
            Forall degenerate (segs (fold_left add_part ps g)).
Proof.
  induction ps as [|part ps IH]; intros g Hne Hall; simpl; [exact Hall|].
  apply IH.
  - unfold add_part. cbn [segs]. destruct (segs g); discriminate.
  - now apply add_part_degenerate.
Qed.

Lemma offset_line_degenerate (offset : R) (s : StraightMolding) :
  degenerate s -> offset_line offset s = mkLine vzero vzero.
Proof.
  unfold degenerate, offset_line, make_offset. intros ->. cbn [p v].
  rewrite normalized_vzero. f_equal. apply vector_eq; simpl; ring.
Qed.

Lemma nonzero_degenerate (offset : R) (s : StraightMolding) :
  degenerate s -> nonzero (offset_line offset s) = false.
Proof.
  intros H. rewrite (offset_line_degenerate _ _ H). unfold nonzero, length.
  cbn [v]. destruct (Req_dec_T (vlength vzero) 0) as [_|Hn]; [reflexivity|].
  now destruct Hn; apply vlength_vzero.
Qed.

Lemma n_nonzero_degenerate (offset : R) (ss : list StraightMolding) :
  Forall degenerate ss -> n_nonzero offset ss = 0%nat.
Proof.
  unfold n_nonzero. induction 1 as [|s ss Hs _ IH]; [reflexivity|].
  simpl. now rewrite (nonzero_degenerate _ _ Hs).
Qed.

Lemma chain_closed_degenerate (offset : R) (f : StraightMolding) (ss : list StraightMolding) :
  degenerate f -> Forall degenerate ss -> chain_closed offset f ss = true.
Proof.
  intros Hf Hall. unfold chain_closed.
  assert (Hl : degenerate (last ss f)).
  { destruct ss as [|a ss']; [exact Hf|].
    rewrite Forall_forall in Hall. apply Hall.
    assert (Hne : a :: ss' <> []) by discriminate.
    destruct (exists_last Hne) as [l' [z ->]]. rewrite last_last.
    apply in_or_app. right. now left. }
  rewrite !offset_line_degenerate by assumption.
  unfold is_closed_path. cbn [p v].
  replace (vsub vzero (vadd vzero vzero)) with vzero
    by (apply vector_eq; simpl; ring).
  rewrite vlength_vzero.
  destruct (Rlt_dec 0 0.0001) as [_|Hn]; [reflexivity|]. exfalso. apply Hn. lra.
Qed.

Lemma first_molding_degenerate (offset : R) (part : archipack_molding_part) :
  nonzero (offset_line offset (first_molding part)) = false ->
  degenerate (first_molding part).
Proof.
  unfold nonzero, length, offset_line, make_offset, degenerate, first_molding,
    StraightMolding_init. cbn [base v p].
  destruct (Req_dec_T _ 0) as [Hz|]; [|discriminate]. intros _.
  apply vlength_zero_iff in Hz. rewrite Hz. reflexivity.
Qed.

Lemma build_chain_degenerate (offset : R) (part : archipack_molding_part)
  (ps : list archipack_molding_part) :
  nonzero (offset_line offset (first_molding part)) = false ->
  Forall degenerate (segs (build_chain (part :: ps))).
Proof.
  intros Hz. apply first_molding_degenerate in Hz.
  unfold build_chain. simpl. apply fold_add_part_degenerate.
  - discriminate.
  - constructor; [exact Hz|constructor].
Qed.

Lemma offset_line_zero (s : StraightMolding) : offset_line 0 s = base s.
Proof.
  unfold offset_line, make_offset. destruct (base s) as [pt vec]. cbn [p v].
  f_equal. apply vector_eq; simpl; ring.
Qed.

Lemma is_closed_path_iff (fl f_last : Line) :
  is_closed_path fl f_last = true
  <-> vlength (vsub (p fl) (vadd (p f_last) (v f_last))) < 0.0001.
Proof.
  unfold is_closed_path.
  destruct (Rlt_dec _ 0.0001); split; intros H; [assumption|reflexivity|discriminate|contradiction].
Qed.

Lemma emitted_frames_length (x_offset : R) (g : MoldingGenerator)
  (f : StraightMolding) (rest : list StraightMolding) :
  segs g = f :: rest ->
  nonzero (offset_line x_offset f) = true ->
  List.length (emitted_frames x_offset g)
  = if chain_closed x_offset f (segs g)
    then n_nonzero x_offset (segs g) else S (n_nonzero x_offset (segs g)).
Proof.
  intros Hsegs Hnz. unfold emitted_frames. rewrite Hsegs, Hnz.
  rewrite frames_of_length by discriminate.
  rewrite chain_sections_length.
  destruct (chain_closed x_offset f (f :: rest)); lia.
Qed.

(** C1, as amended. For every chain with at least one segment whose first
    segment is not of length zero, the section builder of [make_profile] takes
    the path for closed exactly when the start of the first segment's offset
    line and the end point of the last segment's offset line, the lines
    [x_offset] moves the segments to, are less than 1e-4 apart; at [x_offset]
    0 these are the origin of the first segment and the end point of the last.
    The call completes, and the sweep emits N_nonzero frames on a closed path
    and N_nonzero + 1 on an open one, N_nonzero being the number of segments
    of nonzero length; the same count and the closed flag reach the lofter. *)
Theorem closed_path_frame_count (Panel_uv : Panel -> list uv_quad)
  (g : MoldingGenerator) (f : StraightMolding) (rest : list StraightMolding)
  (profile : list Vector) (idmat : Z)
  (x_offset z_offset extend : R) (closed : bool) (b : Buffers) :
  segs g = f :: rest ->
  nonzero (offset_line x_offset f) = true ->
  let fl := offset_line x_offset f in
  let f_last := offset_line x_offset (last (segs g) f) in
  let cp := chain_closed x_offset f (segs g) in
  let count := if cp then n_nonzero x_offset (segs g)
               else S (n_nonzero x_offset (segs g)) in
  let run := make_profile Panel_uv g profile idmat x_offset z_offset extend closed b in
  (cp = true <-> vlength (vsub (p fl) (vadd (p f_last) (v f_last))) < 0.0001)
  /\ (x_offset = 0 ->
      (cp = true
       <-> vlength (vsub (p (base f))
                         (vadd (p (base (last (segs g) f)))
                               (v (base (last (segs g) f))))) < 0.0001))
  /\ run = Done (reoffset g x_offset,
                 swept_buffers Panel_uv closed profile idmat z_offset cp
                               (chain_sections x_offset f (segs g)) b)
  /\ verts (buffers_after run)
     = verts b ++ flat_map (frame_vertices z_offset profile) (emitted_frames x_offset g)
  /\ List.length (emitted_frames x_offset g) = count
  /\ user_path_verts (sweep_panel closed profile idmat cp
                                  (chain_sections x_offset f (segs g))) = count
  /\ closed_path (sweep_panel closed profile idmat cp
                              (chain_sections x_offset f (segs g))) = cp.
Proof.
  intros Hsegs Hnz. cbv zeta.
  split; [apply is_closed_path_iff|]. split; [|split; [|split; [|split; [|split]]]].
  - intros ->. unfold chain_closed. rewrite !offset_line_zero.
    apply is_closed_path_iff.
  - now apply (make_profile_done _ _ _ rest).
  - apply make_profile_verts.
  - now apply (emitted_frames_length _ _ _ rest).
  - unfold sweep_panel, frame_count. cbn [user_path_verts].
    rewrite chain_sections_length.
    destruct (chain_closed x_offset f (segs g)); lia.
  - reflexivity.
Qed.

(** ** A single straight segment of length 2 *)

Lemma vlength_mk (a b c : R) : 0 <= c -> a * a + b * b = c * c -> vlength (mkVector a b) = c.
Proof.
  intros Hc H. unfold vlength. cbn [x y]. rewrite H. now apply sqrt_square.
Qed.

Lemma set_offset_segs (g : MoldingGenerator) (offset : R) :
  segs (set_offset g offset) = map (fun s => Molding_set_offset s offset None) (segs g).
Proof. unfold set_offset. cbn [segs]. apply offset_loop_map. Qed.

Lemma offset_line_set_offset (o o' : R) (s : StraightMolding) :
  offset_line o (Molding_set_offset s o' None) = offset_line o s.
Proof. reflexivity. Qed.

Lemma straight_line_first (len dz0 : R) :
  offset_line 0 (first_molding (mkPart len 0 dz0))
  = mkLine (mkVector 0 0) (mkVector len 0).
Proof.
  unfold offset_line, make_offset, first_molding, StraightMolding_init.
  cbn [base p v part_length part_a0]. rewrite cos_0, sin_0.
  f_equal; apply vector_eq; simpl; ring.
Qed.

Lemma straight_line_nonzero (len dz0 : R) :
  0 < len -> nonzero (offset_line 0 (first_molding (mkPart len 0 dz0))) = true.
Proof.
  intros Hlen. rewrite straight_line_first. unfold nonzero, length. cbn [v].
  rewrite (vlength_mk len 0 len) by (lra || ring).
  destruct (Req_dec_T len 0); [lra|reflexivity].
Qed.

Lemma straight_line_open (len dz0 : R) :
  1 <= len ->
  chain_closed 0 (first_molding (mkPart len 0 dz0)) [first_molding (mkPart len 0 dz0)]
  = false.
Proof.
  intros Hlen. unfold chain_closed. cbn [last]. rewrite straight_line_first.
  unfold is_closed_path, vsub, vadd. cbn [p v x y].
  rewrite (vlength_mk _ _ len) by (lra || ring).
  destruct (Rlt_dec len 0.0001); [lra|reflexivity].
Qed.

Lemma closed_path_frame_count_witness :
  segs (build_chain [mkPart 2 0 0]) = [first_molding (mkPart 2 0 0)]
  /\ nonzero (offset_line 0 (first_molding (mkPart 2 0 0))) = true
  /\ List.length (emitted_frames 0 (build_chain [mkPart 2 0 0]))
     = if chain_closed 0 (first_molding (mkPart 2 0 0))
                       (segs (build_chain [mkPart 2 0 0]))
       then n_nonzero 0 (segs (build_chain [mkPart 2 0 0]))
       else S (n_nonzero 0 (segs (build_chain [mkPart 2 0 0]))).
Proof.
  assert (Hsegs : segs (build_chain [mkPart 2 0 0]) = [first_molding (mkPart 2 0 0)])
    by reflexivity.
  assert (Hnz : nonzero (offset_line 0 (first_molding (mkPart 2 0 0))) = true)
    by (apply straight_line_nonzero; lra).
  split; [exact Hsegs|]. split; [exact Hnz|].
  exact (proj1 (proj2 (proj2 (proj2 (proj2
           (closed_path_frame_count (fun _ => []) (build_chain [mkPart 2 0 0])
              (first_molding (mkPart 2 0 0)) [] (molding_SQUARE 0.02 0.1)
              0%Z 0 0 0 true (mkBuffers [] [] [] []) Hsegs Hnz)))))).
Defined.

Lemma In_firstn {A : Type} (n : nat) (l : list A) (a : A) :
  In a (firstn n l) -> In a l.
Proof.
  intros H. rewrite <- (firstn_skipn n l). apply in_or_app. now left.
Qed.

Lemma Panel_mat_idmat (closed : bool) (profile : list Vector) (idmat : Z)
  (cp : bool) (secs : list section_frame) :
  Forall (fun m => m = idmat) (Panel_mat (sweep_panel closed profile idmat cp secs)).
Proof.
  unfold Panel_mat. apply Forall_flat_map. apply Forall_forall. intros i _.
  apply Forall_forall. intros m Hm. apply In_firstn in Hm.
  unfold sweep_panel in Hm. cbn [panel_idmat] in Hm.
  apply in_map_iff in Hm. now destruct Hm as [_ [-> _]].
Qed.

(** C6. A profile of k points swept over the m frames of a path appends k*m
    vertices, and every material id the lofter emits is the id supplied; the
    SQUARE profile (4 points, closed) swept over one straight open segment of
    length 2 at offset 0 appends 2 * 4 = 8 vertices, one ring of 4 faces and
    4 material ids, each the id supplied. *)
Theorem sweep_vertex_count (Panel_uv : Panel -> list uv_quad) :
  (forall g profile idmat x_offset z_offset extend closed b,
      let run := make_profile Panel_uv g profile idmat x_offset z_offset extend closed b in
      List.length (verts (buffers_after run))
      = (List.length (verts b)
         + List.length profile * List.length (emitted_frames x_offset g))%nat
      /\ exists ms, matids (buffers_after run) = matids b ++ ms
                    /\ Forall (fun m => m = idmat) ms)
  /\ (forall profil_x profil_y idmat b,
         let g := get_generator [mkPart 2 0 0] 0 in
         let run := make_profile Panel_uv g (molding_SQUARE profil_x profil_y)
                                 idmat 0 0 0 true b in
         exists g' vs fs us,
           run = Done (g', mkBuffers (verts b ++ vs) (faces b ++ fs)
                                     (matids b ++ [idmat; idmat; idmat; idmat])
                                     (uvs b ++ us))
           /\ List.length (emitted_frames 0 g) = 2%nat
           /\ List.length vs = 8%nat
           /\ List.length fs = 4%nat).
Proof.
  split.
  - intros g profile idmat x_offset z_offset extend closed b run. split.
    + subst run. rewrite make_profile_verts, length_app, frame_vertices_length.
      reflexivity.
    + subst run. destruct (segs g) as [|f rest] eqn:Hsegs.
      * rewrite make_profile_empty by assumption. exists [].
        simpl. rewrite app_nil_r. split; [reflexivity|constructor].
      * destruct (nonzero (offset_line x_offset f)) eqn:Hnz.
        -- rewrite (make_profile_done _ _ f rest) by assumption.
           eexists; split; [reflexivity|]. apply Panel_mat_idmat.
        -- rewrite (make_profile_zero _ _ f rest) by assumption. exists [].
           simpl. rewrite app_nil_r. split; [reflexivity|constructor].
  - intros profil_x profil_y idmat b g run.
    set (f := first_molding (mkPart 2 0 0)).
    assert (Hsegs : segs g = [Molding_set_offset f 0 None]) by reflexivity.
    assert (Hnz : nonzero (offset_line 0 (Molding_set_offset f 0 None)) = true).
    { rewrite offset_line_set_offset. apply straight_line_nonzero. lra. }
    assert (Hcp : chain_closed 0 (Molding_set_offset f 0 None) (segs g) = false).
    { rewrite Hsegs. apply (straight_line_open 2 0). lra. }
    assert (Hlen : List.length (chain_sections 0 (Molding_set_offset f 0 None) (segs g))
                   = 2%nat).
    { rewrite chain_sections_length, Hsegs. unfold n_nonzero. cbn [filter].
      rewrite Hnz. reflexivity. }
    subst run. rewrite (make_profile_done _ _ _ [] _ _ _ _ _ _ _ Hsegs Hnz).
    rewrite Hcp. unfold swept_buffers.
    do 4 eexists. split; [|split; [|split]].
    + f_equal. f_equal. f_equal.
      unfold Panel_mat, n_path_faces, profil_faces, n_pts, sweep_panel, frame_count.
      cbn [closed_path user_path_verts closed_shape panel_y panel_idmat].
      rewrite Hlen. reflexivity.
    + rewrite (emitted_frames_length _ _ _ [] Hsegs Hnz), Hcp, Hsegs.
      unfold n_nonzero. cbn [filter]. rewrite Hnz. reflexivity.
    + rewrite frame_vertices_length, frames_of_length, Hlen; [reflexivity|].
      intros E. rewrite E in Hlen. discriminate.
    + unfold Panel_faces, n_path_faces, profil_faces, n_pts, sweep_panel, frame_count.
      cbn [closed_path user_path_verts closed_shape panel_y].
      rewrite Hlen. reflexivity.
Qed.

(** ** A first part of length zero *)

Lemma first_molding_zero (offset a0 dz0 : R) :
  nonzero (offset_line offset (first_molding (mkPart 0 a0 dz0))) = false.
Proof.
  unfold nonzero, length, offset_line, make_offset, first_molding, StraightMolding_init.
  cbn [base v part_length part_a0]. unfold smul. cbn [x y].
  rewrite (vlength_mk _ _ 0) by (lra || ring).
  destruct (Req_dec_T 0 0); [reflexivity|lra].
Qed.

(** C3, at the failing input: a chain whose first part has length 0 makes
    [make_profile] raise [ZeroDivisionError] at the first section
    ([f.dz / f.line.length]), whatever the angle, the other parts and the
    offset; nothing is appended. *)
Theorem zero_length_first_part_raises (Panel_uv : Panel -> list uv_quad)
  (a0 dz0 : R) (ps : list archipack_molding_part) (profile : list Vector) (idmat : Z)
  (x_offset z_offset extend : R) (closed : bool) (b : Buffers) :
  let g := get_generator (mkPart 0 a0 dz0 :: ps) x_offset in
  make_profile Panel_uv g profile idmat x_offset z_offset extend closed b
  = Failed ZeroDivisionError (g, b).
Proof.
  intros g.
  destruct (build_chain_head (mkPart 0 a0 dz0) ps) as [rest Hhead].
  assert (Hsegs : segs g
                  = Molding_set_offset (first_molding (mkPart 0 a0 dz0)) x_offset None
                      :: map (fun s => Molding_set_offset s x_offset None) rest).
  { subst g. unfold get_generator. rewrite set_offset_segs, Hhead. reflexivity. }
  rewrite (make_profile_zero _ _ _ _ _ _ _ _ _ _ _ Hsegs).
  - f_equal. f_equal. subst g. unfold reoffset, get_generator, set_offset.
    cbn [parts segs]. rewrite !offset_loop_map, map_map. reflexivity.
  - rewrite offset_line_set_offset. apply first_molding_zero.
Qed.

(** ** Elevation *)

Lemma fold_add_part_flat (ps : list archipack_molding_part) :
  forall g, Forall flat (segs g) -> Forall flat (segs (fold_left add_part ps g)).
Proof.
  induction ps as [|part ps IH]; intros g Hall; simpl; [exact Hall|].
  apply IH. unfold add_part. cbn [segs]. apply Forall_app. split; [exact Hall|].
  constructor; [|constructor].
  destruct (last (map Some (segs g)) None); split; reflexivity.
Qed.

Lemma build_chain_flat (ps : list archipack_molding_part) :
  Forall flat (segs (build_chain ps)).
Proof. apply fold_add_part_flat. constructor. Qed.

Lemma frames_of_elevation (cp : bool) (secs : list section_frame) :
  Forall (fun sec => frame_z sec = 0) secs ->
  Forall (fun fr => elevationAtSection fr = 0) (frames_of cp secs).
Proof.
  induction secs as [|sec rest IH]; intros Hall; [constructor|].
  inversion Hall as [|? ? Hsec Hrest]; subst.
  destruct rest as [|nxt rest'].
  - simpl. destruct cp; repeat constructor. exact Hsec.
  - change (frames_of cp (sec :: nxt :: rest'))
      with (joint_frame sec (normalized (v (frame_line sec)))
                        (normalized (v (frame_line nxt)))
              :: frames_of cp (nxt :: rest')).
    constructor; [exact Hsec|]. now apply IH.
Qed.

Lemma chain_sections_flat (offset : R) (f : StraightMolding) (ss : list StraightMolding) :
  flat f -> Forall flat ss ->
  Forall (fun sec => frame_z sec = 0) (chain_sections offset f ss).
Proof.
  intros [_ Hz0] Hall. unfold chain_sections. constructor; [exact Hz0|].
  apply Forall_map. apply Forall_forall. intros s Hs.
  apply filter_In in Hs. destruct Hs as [Hs _].
  rewrite Forall_forall in Hall. destruct (Hall s Hs) as [Hdz Hz].
  unfold end_section, frame_z. cbn [snd]. rewrite Hdz, Hz. ring.
Qed.

(** C2, at the failing input: [add_part] copies no [dz] into the segments it
    builds, so every frame of every chain carries the elevation 0 of
    [Molding.__init__]; for the single part of length 2 rising by 1 the two
    frames are at elevation 0 and 0, while the parts' [dz] sum to 1 at the end
    of the segment. *)
Theorem elevation_never_accumulates :
  (forall ps x_offset,
      Forall (fun fr => elevationAtSection fr = 0)
             (emitted_frames x_offset (build_chain ps)))
  /\ map elevationAtSection (emitted_frames 0 (build_chain [mkPart 2 0 1])) = [0; 0]
  /\ part_dz (mkPart 2 0 1) = 1.
Proof.
  assert (Hall : forall ps x_offset,
             Forall (fun fr => elevationAtSection fr = 0)
                    (emitted_frames x_offset (build_chain ps))).
  { intros ps x_offset. unfold emitted_frames.
    pose proof (build_chain_flat ps) as Hflat.
    destruct (segs (build_chain ps)) as [|f rest]; [constructor|].
    destruct (nonzero (offset_line x_offset f)); [|constructor].
    apply frames_of_elevation. apply chain_sections_flat; [|exact Hflat].
    now inversion Hflat. }
  split; [exact Hall|]. split; [|reflexivity].
  specialize (Hall [mkPart 2 0 1] 0).
  assert (Hsegs : segs (build_chain [mkPart 2 0 1]) = [first_molding (mkPart 2 0 1)])
    by reflexivity.
  assert (Hnz : nonzero (offset_line 0 (first_molding (mkPart 2 0 1))) = true)
    by (apply straight_line_nonzero; lra).
  pose proof (emitted_frames_length 0 _ _ [] Hsegs Hnz) as Hlen.
  rewrite Hsegs, (straight_line_open 2 1) in Hlen by lra.
  unfold n_nonzero in Hlen. cbn [filter] in Hlen. rewrite Hnz in Hlen.
  cbn [List.length] in Hlen.
  destruct (emitted_frames 0 (build_chain [mkPart 2 0 1])) as [|fr1 [|fr2 [|fr3 frs]]];
    try discriminate.
  inversion Hall as [|? ? H1 Hall']; subst. inversion Hall' as [|? ? H2 _]; subst.
  simpl. now rewrite H1, H2.
Qed.

(** ** The mitre scale *)

Lemma unit_square (a : Vector) : vlength a = 1 -> x a * x a + y a * y a = 1.
Proof.
  intros H. pose proof (dot_self a) as Hd. rewrite H in Hd.
  unfold dot, Rsqr in Hd. lra.
Qed.

Lemma unit_dot_bound (a b : Vector) :
  vlength a = 1 -> vlength b = 1 -> -1 <= dot a b <= 1.
Proof.
  intros Ha Hb. apply unit_square in Ha. apply unit_square in Hb.
  unfold dot.
  pose proof (Rle_0_sqr (x a - x b)). pose proof (Rle_0_sqr (y a - y b)).
  pose proof (Rle_0_sqr (x a + x b)). pose proof (Rle_0_sqr (y a + y b)).
  unfold Rsqr in *. nra.
Qed.

Lemma unit_dot_one (a b : Vector) :
  vlength a = 1 -> vlength b = 1 -> (dot a b = 1 <-> a = b).
Proof.
  intros Ha Hb. split.
  - intros Hd. apply unit_square in Ha. apply unit_square in Hb. unfold dot in Hd.
    assert (H : (x a - x b) * (x a - x b) + (y a - y b) * (y a - y b) = 0) by nra.
    pose proof (Rle_0_sqr (x a - x b)) as Hx. pose proof (Rle_0_sqr (y a - y b)) as Hy.
    unfold Rsqr in Hx, Hy.
    assert (Hx0 : (x a - x b) * (x a - x b) = 0) by lra.
    assert (Hy0 : (y a - y b) * (y a - y b) = 0) by lra.
    apply Rsqr_0_uniq in Hx0. apply Rsqr_0_uniq in Hy0.
    apply vector_eq; lra.
  - intros ->. rewrite dot_self, Hb. unfold Rsqr. ring.
Qed.

Lemma clamp_unit (d : R) : -1 <= d <= 1 -> Rmin 1 (Rmax (-1) d) = d.
Proof.
  intros [H1 H2]. rewrite Rmax_right by exact H1. now rewrite Rmin_right.
Qed.

Lemma half_angle_bound (c : R) : 0 <= 0.5 * acos c <= PI / 2.
Proof. pose proof (acos_bound c). lra. Qed.

Lemma half_angle_cos_pos (c : R) : -1 < c <= 1 -> 0 < cos (0.5 * acos c).
Proof.
  intros Hc. pose proof (acos_bound c) as Hb.
  assert (Hlt : acos c < PI).
  { destruct Hb as [_ [Hlt|Heq]]; [exact Hlt|].
    assert (Hcos : cos (acos c) = c) by (apply cos_acos; lra).
    rewrite Heq, cos_PI in Hcos. lra. }
  apply cos_gt_0; lra.
Qed.

Lemma mitre_scale_at (v0 v1 : Vector) :
  vlength v0 = 1 -> vlength v1 = 1 ->
  let c := cos (0.5 * acos (dot v0 v1)) in
  mitre_scale v0 v1 = if Req_dec_T c 0 then 10 else Rmin 10 (1 / c).
Proof.
  intros H0 H1 c. unfold mitre_scale.
  rewrite clamp_unit by now apply unit_dot_bound. reflexivity.
Qed.

Lemma half_angle_cos_nonneg (c : R) : 0 <= cos (0.5 * acos c).
Proof. pose proof (half_angle_bound c). apply cos_ge_0; lra. Qed.

Lemma inv_cos_ge_1 (c : R) : 0 < c <= 1 -> 1 <= 1 / c.
Proof.
  intros [Hpos Hle]. apply (Rmult_le_reg_r c); [exact Hpos|].
  unfold Rdiv. rewrite Rmult_assoc, Rinv_l by lra. lra.
Qed.

(** C4. For unit vectors [v_in] and [v_out] the mitre scale of the sweep is
    [min(10, 1 / cos(0.5 * angle))], [angle] being the angle between them; it
    lies in [1, 10] for every pair; and it is 1 exactly when the two vectors
    are equal, that is collinear at angle 0.  The divisor [cos(0.5 * angle)] is
    0 for exactly opposite vectors only, where the scale is the cap 10; for
    every pair [scale * cos(0.5 * angle) = min(10 * cos(0.5 * angle), 1)]. *)
Theorem mitre_scale_bounds (v_in v_out : Vector) :
  vlength v_in = 1 -> vlength v_out = 1 ->
  let angle := acos (dot v_in v_out) in
  (cos (0.5 * angle) <> 0 ->
   mitre_scale v_in v_out = Rmin 10 (1 / cos (0.5 * angle)))
  /\ (cos (0.5 * angle) = 0 -> mitre_scale v_in v_out = 10)
  /\ mitre_scale v_in v_out * cos (0.5 * angle) = Rmin (10 * cos (0.5 * angle)) 1
  /\ 1 <= mitre_scale v_in v_out <= 10
  /\ (mitre_scale v_in v_out = 1 <-> v_in = v_out)
  /\ (v_in = v_out <-> angle = 0)
  /\ (cos (0.5 * angle) = 0 <-> dot v_in v_out = -1).
Proof.
  intros Hin Hout angle.
  pose proof (unit_dot_bound _ _ Hin Hout) as Hd.
  pose proof (mitre_scale_at v_in v_out Hin Hout) as Hscale.
  cbv zeta in Hscale. fold angle in Hscale.
  pose proof (half_angle_bound (dot v_in v_out)) as Hh. fold angle in Hh.
  pose proof (half_angle_cos_nonneg (dot v_in v_out)) as Hc0. fold angle in Hc0.
  pose proof (COS_bound (0.5 * angle)) as [_ Hc1].
  assert (Hzero : v_in = v_out <-> angle = 0).
  { rewrite <- (unit_dot_one _ _ Hin Hout). unfold angle. split.
    - intros ->. apply acos_1.
    - intros H0. rewrite <- (cos_acos (dot v_in v_out)) by exact Hd.
      rewrite H0. apply cos_0. }
  assert (Hopp : cos (0.5 * angle) = 0 <-> dot v_in v_out = -1).
  { split.
    - intros Hc. destruct (Req_dec_T (dot v_in v_out) (-1)) as [He|Hne]; [exact He|].
      assert (0 < cos (0.5 * angle)) by (apply half_angle_cos_pos; lra). lra.
    - intros He. unfold angle. rewrite He.
      replace (-1) with (- (1)) by ring. rewrite acos_opp, acos_1.
      replace (0.5 * (PI - 0)) with (PI / 2) by lra. apply cos_PI2. }
  assert (Hbound : 1 <= mitre_scale v_in v_out <= 10).
  { rewrite Hscale. destruct (Req_dec_T (cos (0.5 * angle)) 0) as [Hz|Hnz]; [lra|].
    assert (Hinv : 1 <= 1 / cos (0.5 * angle)) by (apply inv_cos_ge_1; lra).
    split; [apply Rmin_glb; lra|apply Rmin_l]. }
  split; [|split; [|split; [|split; [exact Hbound|split; [|split;
    [exact Hzero|exact Hopp]]]]]].
  - intros Hnz. rewrite Hscale.
    destruct (Req_dec_T (cos (0.5 * angle)) 0); [contradiction|reflexivity].
  - intros Hz. rewrite Hscale.
    destruct (Req_dec_T (cos (0.5 * angle)) 0); [reflexivity|contradiction].
  - rewrite Hscale. destruct (Req_dec_T (cos (0.5 * angle)) 0) as [Hz|Hnz].
    + rewrite Hz. rewrite Rmin_left by lra. ring.
    + assert (Hpos : 0 < cos (0.5 * angle)) by lra.
      unfold Rmin.
      destruct (Rle_dec 10 (1 / cos (0.5 * angle))) as [Hle|Hgt];
        destruct (Rle_dec (10 * cos (0.5 * angle)) 1) as [Hle'|Hgt'];
        try reflexivity.
      * exfalso. apply Hgt'.
        apply (Rmult_le_compat_r (cos (0.5 * angle))) in Hle; [|lra].
        unfold Rdiv in Hle. rewrite Rmult_assoc, Rinv_l in Hle by exact Hnz. lra.
      * exfalso. apply Hgt.
        apply (Rmult_le_reg_r (cos (0.5 * angle))); [exact Hpos|].
        unfold Rdiv. rewrite Rmult_assoc, Rinv_l by exact Hnz. lra.
      * field. exact Hnz.
  - split.
    + intros H1. apply Hzero. rewrite Hscale in H1.
      destruct (Req_dec_T (cos (0.5 * angle)) 0) as [Hz|Hnz]; [lra|].
      assert (Hq : 1 / cos (0.5 * angle) = 1).
      { unfold Rmin in H1. destruct (Rle_dec 10 (1 / cos (0.5 * angle))); lra. }
      assert (Hc : cos (0.5 * angle) = 1).
      { apply (Rmult_eq_compat_r (cos (0.5 * angle))) in Hq.
        unfold Rdiv in Hq. rewrite Rmult_assoc, Rinv_l in Hq by exact Hnz. lra. }
      assert (Hhalf : 0.5 * angle = 0).
      { apply cos_inj; [pose proof PI_RGT_0; lra|pose proof PI_RGT_0; lra|].
        now rewrite cos_0. }
      lra.
    + intros Heq. rewrite Hscale. apply Hzero in Heq. rewrite Heq.
      replace (0.5 * 0) with 0 by ring. rewrite cos_0.
      destruct (Req_dec_T 1 0); [lra|].
      replace (1 / 1) with 1 by field. apply Rmin_right. lra.
Qed.

Lemma mitre_scale_bounds_witness :
  vlength (mkVector 1 0) = 1
  /\ vlength (mkVector (-1) 0) = 1
  /\ 1 <= mitre_scale (mkVector 1 0) (mkVector (-1) 0) <= 10.
Proof.
  assert (H : vlength (mkVector 1 0) = 1) by (apply vlength_mk; (lra || ring)).
  assert (H' : vlength (mkVector (-1) 0) = 1) by (apply vlength_mk; (lra || ring)).
  split; [exact H|]. split; [exact H'|].
  exact (proj1 (proj2 (proj2 (proj2
           (mitre_scale_bounds (mkVector 1 0) (mkVector (-1) 0) H H'))))).
Defined.

(** ** The direction of the frames *)

Lemma nonzero_length (l : Line) : nonzero l = true -> length l <> 0.
Proof.
  unfold nonzero. destruct (Req_dec_T (length l) 0); [discriminate|trivial].
Qed.

Lemma sized_normal_unit (l : Line) (t : R) :
  length l <> 0 -> vlength (v (sized_normal l t 1)) = 1.
Proof.
  intros Hl. unfold sized_normal. cbn [v]. rewrite vlength_smul.
  rewrite vlength_normalized by exact Hl. rewrite Rabs_R1. ring.
Qed.

Lemma smul_one (u : Vector) : smul 1 u = u.
Proof. apply vector_eq; simpl; ring. Qed.

Lemma normalized_idem (u : Vector) : normalized (normalized u) = normalized u.
Proof.
  destruct (Req_dec_T (vlength u) 0) as [Hz|Hnz].
  - assert (H : normalized u = vzero)
      by (unfold normalized; destruct (Req_dec_T (vlength u) 0); [reflexivity|contradiction]).
    rewrite H. apply normalized_vzero.
  - apply normalized_unit. now apply vlength_normalized.
Qed.

(** The unit vector of the section of a line is the unit direction of the
    line, whatever the line. *)
Lemma section_unit_direction (l : Line) (t : R) :
  normalized (v (sized_normal l t 1)) = normalized (v l).
Proof. unfold sized_normal. cbn [v]. rewrite smul_one. apply normalized_idem. Qed.

(** The unit vector of the section of a line that is not degenerate has
    length 1 and is the unit direction of the line. *)
Lemma section_direction (l : Line) (t : R) :
  length l <> 0 ->
  normalized (v (sized_normal l t 1)) = v (sized_normal l t 1)
  /\ vlength (normalized (v (sized_normal l t 1))) = 1
  /\ normalized (v (sized_normal l t 1)) = normalized (v l).
Proof.
  intros Hl. pose proof (sized_normal_unit l t Hl) as Hu.
  rewrite (normalized_unit _ Hu). repeat split; [exact Hu|].
  rewrite <- (normalized_unit _ Hu). apply section_unit_direction.
Qed.

Lemma normalized_double (u : Vector) : vlength u = 1 -> normalized (vadd u u) = u.
Proof.
  intros Hu.
  assert (H2 : vlength (vadd u u) = 2).
  { replace (vadd u u) with (smul 2 u) by (apply vector_eq; simpl; ring).
    rewrite vlength_smul, Hu, Rabs_pos_eq; lra. }
  unfold normalized. destruct (Req_dec_T (vlength (vadd u u)) 0); [lra|].
  rewrite H2. apply vector_eq; simpl; field.
Qed.


Lemma frames_of_open_last (secs : list section_frame) (d : SectionFrame) :
  secs <> [] ->
  forall d', last (frames_of false secs) d
             = joint_frame (last secs d') (section_unit (last secs d'))
                           (section_unit (last secs d')).
Proof.
  induction secs as [|s0 rest IH]; [congruence|]. intros _ d'.
  destruct rest as [|s1 rest']; [reflexivity|].
  change (frames_of false (s0 :: s1 :: rest'))
    with (joint_frame s0 (section_unit s0) (section_unit s1)
            :: frames_of false (s1 :: rest')).
  assert (Hne : frames_of false (s1 :: rest') <> []).
  { intros E. apply (f_equal (@List.length _)) in E.
    rewrite frames_of_length in E by discriminate. discriminate. }
  destruct (frames_of false (s1 :: rest')) as [|fr frs] eqn:Hfr; [congruence|].
  change (last (s0 :: s1 :: rest') d') with (last (s1 :: rest') d').
  rewrite <- (IH ltac:(discriminate) d'). reflexivity.
Qed.

Lemma emitted_frames_open (x_offset : R) (g : MoldingGenerator)
  (f : StraightMolding) (rest : list StraightMolding) :
  segs g = f :: rest ->
  nonzero (offset_line x_offset f) = true ->
  chain_closed x_offset f (segs g) = false ->
  emitted_frames x_offset g
  = frames_of false
      ((sized_normal (offset_line x_offset f) 0 1,
        dz f / length (offset_line x_offset f), z0 f)
         :: end_section x_offset f
         :: map (end_section x_offset) (nonzero_segs x_offset rest)).
Proof.
  intros Hsegs Hnz Hcp. unfold emitted_frames. rewrite Hsegs, Hnz.
  rewrite Hsegs in Hcp. rewrite Hcp. unfold chain_sections. rewrite Hcp.
  cbn [filter]. rewrite Hnz. reflexivity.
Qed.

(** The first frame of an open path: at the start of the first segment, along
    the unit vector of that segment's own section. *)
Lemma open_first_frame (x_offset : R) (g : MoldingGenerator)
  (f : StraightMolding) (rest : list StraightMolding) :
  segs g = f :: rest ->
  nonzero (offset_line x_offset f) = true ->
  chain_closed x_offset f (segs g) = false ->
  exists fr frs,
    emitted_frames x_offset g = fr :: frs
    /\ position fr = lerp (offset_line x_offset f) 0
    /\ tangentDirection fr = normalized (v (sized_normal (offset_line x_offset f) 0 1)).
Proof.
  intros Hsegs Hnz Hcp. rewrite (emitted_frames_open _ _ _ _ Hsegs Hnz Hcp).
  do 2 eexists. split; [reflexivity|]. split; [reflexivity|].
  cbn [tangentDirection joint_frame frame_line fst end_section].
  change (v (sized_normal (offset_line x_offset f) 1 1))
    with (v (sized_normal (offset_line x_offset f) 0 1)).
  apply normalized_double.
  now apply section_direction, nonzero_length.
Qed.






(** ** The offset, applied again *)

Lemma make_profile_generator (Panel_uv : Panel -> list uv_quad) (g : MoldingGenerator)
  (profile : list Vector) (idmat : Z) (x_offset z_offset extend : R)
  (closed : bool) (b : Buffers) :
  fst (state_after
         (make_profile Panel_uv g profile idmat x_offset z_offset extend closed b))
  = reoffset g x_offset.
Proof.
  destruct (segs g) as [|f rest] eqn:Hsegs.
  - now rewrite make_profile_empty.
  - destruct (nonzero (offset_line x_offset f)) eqn:Hnz.
    + now rewrite (make_profile_done _ _ f rest).
    + now rewrite (make_profile_zero _ _ f rest).
Qed.

Lemma reoffset_set_offset (g : MoldingGenerator) (offset : R) :
  reoffset g offset = set_offset g offset.
Proof. unfold reoffset, set_offset. now rewrite offset_loop_map. Qed.

(** C9. Applying the lateral offset is idempotent: [set_offset] called again
    with the same offset, or the re-offsetting at the head of [make_profile]
    after [set_offset], leaves the generator with the same offset line on every
    segment; the offset lines are a function of the chain and the offset only. *)
Theorem set_offset_idempotent (Panel_uv : Panel -> list uv_quad) (g : MoldingGenerator)
  (offset : R) (profile : list Vector) (idmat : Z) (z_offset extend : R)
  (closed : bool) (b : Buffers) :
  set_offset (set_offset g offset) offset = set_offset g offset
  /\ fst (state_after
            (make_profile Panel_uv (set_offset g offset) profile idmat
                          offset z_offset extend closed b))
     = set_offset g offset
  /\ map line (segs (set_offset g offset))
     = map (fun s => Some (make_offset (base s) offset None)) (segs g)
  /\ map base (segs (set_offset g offset)) = map base (segs g).
Proof.
  assert (Hidem : set_offset (set_offset g offset) offset = set_offset g offset).
  { unfold set_offset. cbn [parts segs]. rewrite !offset_loop_map, map_map.
    reflexivity. }
  split; [exact Hidem|]. split; [|split].
  - rewrite make_profile_generator, reoffset_set_offset. exact Hidem.
  - rewrite set_offset_segs, map_map. reflexivity.
  - rewrite set_offset_segs, map_map. cbn [base Molding_set_offset].
    induction (segs g) as [|s ss IH]; [reflexivity|]. simpl. now rewrite IH.
Qed.

(** ** from_spline *)

Lemma atan2_x_pos (yy xx : R) : 0 < xx -> atan2 yy xx = atan (yy / xx).
Proof. intros H. unfold atan2. destruct (Rlt_dec 0 xx); [reflexivity|contradiction]. Qed.

Lemma atan2_x_neg_y_nonneg (yy xx : R) :
  xx < 0 -> 0 <= yy -> atan2 yy xx = atan (yy / xx) + PI.
Proof.
  intros Hx Hy. unfold atan2.
  destruct (Rlt_dec 0 xx); [lra|]. destruct (Rlt_dec xx 0); [|contradiction].
  destruct (Rle_dec 0 yy); [reflexivity|contradiction].
Qed.

Lemma atan2_x_neg_y_neg (yy xx : R) :
  xx < 0 -> yy < 0 -> atan2 yy xx = atan (yy / xx) - PI.
Proof.
  intros Hx Hy. unfold atan2.
  destruct (Rlt_dec 0 xx); [lra|]. destruct (Rlt_dec xx 0); [|contradiction].
  destruct (Rle_dec 0 yy); [lra|reflexivity].
Qed.

Lemma atan2_x_zero_y_pos (yy xx : R) : xx = 0 -> 0 < yy -> atan2 yy xx = PI / 2.
Proof.
  intros Hx Hy. unfold atan2.
  destruct (Rlt_dec 0 xx); [lra|]. destruct (Rlt_dec xx 0); [lra|].
  destruct (Rlt_dec 0 yy); [reflexivity|contradiction].
Qed.

Lemma atan2_x_zero_y_neg (yy xx : R) : xx = 0 -> yy < 0 -> atan2 yy xx = - (PI / 2).
Proof.
  intros Hx Hy. unfold atan2.
  destruct (Rlt_dec 0 xx); [lra|]. destruct (Rlt_dec xx 0); [lra|].
  destruct (Rlt_dec 0 yy); [lra|]. destruct (Rlt_dec yy 0); [reflexivity|contradiction].
Qed.

Lemma atan2_bound (yy xx : R) : - PI < atan2 yy xx <= PI.
Proof.
  pose proof PI_RGT_0 as Hpi. pose proof (atan_bound (yy / xx)) as Hat.
  unfold atan2.
  destruct (Rlt_dec 0 xx); [lra|].
  destruct (Rlt_dec xx 0) as [Hx|Hx].
  - destruct (Rle_dec 0 yy) as [Hy|Hy].
    + assert (Hq : yy / xx <= 0).
      { pose proof (Rinv_lt_0_compat xx Hx) as Hinv. unfold Rdiv. nra. }
      assert (atan (yy / xx) <= 0).
      { rewrite <- atan_0. destruct Hq as [Hq|Hq].
        - left. now apply atan_increasing.
        - rewrite Hq. lra. }
      lra.
    + assert (Hq : 0 < yy / xx).
      { pose proof (Rinv_lt_0_compat xx Hx) as Hinv. unfold Rdiv. nra. }
      assert (0 < atan (yy / xx)) by (rewrite <- atan_0; now apply atan_increasing).
      lra.
  - destruct (Rlt_dec 0 yy); [lra|]. destruct (Rlt_dec yy 0); lra.
Qed.

Lemma wrap_angle_id (d : R) : - PI <= d <= PI -> wrap_angle d = d.
Proof.
  intros H. unfold wrap_angle.
  destruct (Rgt_dec d PI); [lra|]. destruct (Rlt_dec d (- PI)); [lra|reflexivity].
Qed.

Lemma wrap_angle_high (d : R) : PI < d -> wrap_angle d = d - 2 * PI.
Proof.
  intros H. unfold wrap_angle. pose proof PI_RGT_0.
  destruct (Rgt_dec d PI); [|lra].
  destruct (Rlt_dec (d - 2 * PI) (- PI)); [lra|reflexivity].
Qed.

Lemma wrap_angle_low (d : R) : d < - PI -> wrap_angle d = d + 2 * PI.
Proof.
  intros H. unfold wrap_angle. pose proof PI_RGT_0.
  destruct (Rgt_dec d PI); [lra|].
  destruct (Rlt_dec d (- PI)); [reflexivity|lra].
Qed.

Lemma wrap_angle_turn (d : R) :
  exists k : Z, wrap_angle d = d + 2 * IZR k * PI.
Proof.
  destruct (Rlt_dec PI d) as [Hh|Hh].
  - exists (-1)%Z. rewrite wrap_angle_high by exact Hh. simpl. ring.
  - destruct (Rlt_dec d (- PI)) as [Hl|Hl].
    + exists 1%Z. rewrite wrap_angle_low by exact Hl. simpl. ring.
    + exists 0%Z. rewrite wrap_angle_id by lra. simpl. ring.
Qed.

Lemma wrap_angle_range (d : R) :
  - 3 * PI <= d <= 3 * PI -> - PI <= wrap_angle d <= PI.
Proof.
  intros H. pose proof PI_RGT_0.
  destruct (Rlt_dec PI d) as [Hh|Hh].
  - rewrite wrap_angle_high by exact Hh. lra.
  - destruct (Rlt_dec d (- PI)) as [Hl|Hl].
    + rewrite wrap_angle_low by exact Hl. lra.
    + rewrite wrap_angle_id by lra. lra.
Qed.

Lemma from_spline_loop_length (pts : list Vector3) :
  forall p0 a0, List.length (from_spline_loop p0 a0 pts) = List.length pts.
Proof. induction pts as [|p1 rest IH]; intros; simpl; [reflexivity|now rewrite IH]. Qed.

Lemma length_property_id (d : R) : 0.01 <= d -> length_property d = d.
Proof. intros H. unfold length_property. now apply Rmax_right. Qed.

Lemma a0_property_id (d : R) : - (2 * PI) <= d <= 2 * PI -> a0_property d = d.
Proof.
  intros [H1 H2]. unfold a0_property. rewrite Rmin_right by exact H2.
  apply Rmax_right. lra.
Qed.

(** The loop keeps its [a0] the heading of the last step up to one turn, so
    that the angle it writes is within the limits of the property. *)
Lemma turn_in_property (a0 t : R) :
  - 3 * PI < a0 <= 3 * PI -> - PI < t <= PI ->
  - (2 * PI) < wrap_angle (t - a0) < 2 * PI
  /\ a0_property (wrap_angle (t - a0)) = wrap_angle (t - a0)
  /\ - 3 * PI < a0 + wrap_angle (t - a0) <= 3 * PI.
Proof.
  intros Ha Ht. pose proof PI_RGT_0 as Hpi.
  assert (H : - (2 * PI) < wrap_angle (t - a0) < 2 * PI
              /\ - 3 * PI < a0 + wrap_angle (t - a0) <= 3 * PI).
  { destruct (Rlt_dec PI (t - a0)) as [Hh|Hh].
    - rewrite wrap_angle_high by exact Hh. lra.
    - destruct (Rlt_dec (t - a0) (- PI)) as [Hl|Hl].
      + rewrite wrap_angle_low by exact Hl. lra.
      + rewrite wrap_angle_id by lra. lra. }
  destruct H as [H1 H2]. split; [exact H1|]. split; [|exact H2].
  apply a0_property_id. lra.
Qed.

Lemma from_spline_loop_nth (pts : list Vector3) :
  forall p0 a0 i pt qt,
    - 3 * PI < a0 <= 3 * PI ->
    nth_error (p0 :: pts) i = Some pt ->
    nth_error (p0 :: pts) (S i) = Some qt ->
    nth_error (from_spline_loop p0 a0 pts) i
    = Some (mkPart (length_property (vlength (to_2d (vsub3 qt pt))))
                   (wrap_angle (heading pt qt
                                - (a0 + sum_a0 (firstn i (from_spline_loop p0 a0 pts)))))
                   (z3 (vsub3 qt pt)))
    /\ - 3 * PI < a0 + sum_a0 (firstn i (from_spline_loop p0 a0 pts)) <= 3 * PI.
Proof.
  induction pts as [|p1 rest IH]; intros p0 a0 i pt qt Ha Hp Hq.
  - destruct i; discriminate.
  - destruct (turn_in_property a0 (atan2 (y3 (vsub3 p1 p0)) (x3 (vsub3 p1 p0))) Ha
                (atan2_bound _ _)) as [_ [Hprop Ha']].
    destruct i as [|i'].
    + simpl in Hp, Hq. injection Hp as <-. injection Hq as <-.
      cbn [from_spline_loop nth_error firstn]. unfold sum_a0. cbn [fold_right].
      rewrite Hprop, !Rplus_0_r. split; [reflexivity|exact Ha].
    + simpl in Hp. change (nth_error (p1 :: rest) (S i') = Some qt) in Hq.
      assert (Hsum : a0 + sum_a0 (firstn (S i') (from_spline_loop p0 a0 (p1 :: rest)))
                     = a0 + wrap_angle (atan2 (y3 (vsub3 p1 p0)) (x3 (vsub3 p1 p0)) - a0)
                       + sum_a0 (firstn i'
                           (from_spline_loop p1
                              (a0 + wrap_angle (atan2 (y3 (vsub3 p1 p0))
                                                      (x3 (vsub3 p1 p0)) - a0))
                              rest))).
      { cbn [from_spline_loop firstn]. unfold sum_a0. cbn [fold_right part_a0].
        rewrite Hprop. ring. }
      rewrite Hsum. exact (IH p1 _ i' pt qt Ha' Hp Hq).
Qed.

Lemma sum_a0_snoc (ps : list archipack_molding_part) :
  forall i part,
    nth_error ps i = Some part ->
    sum_a0 (firstn (S i) ps) = sum_a0 (firstn i ps) + part_a0 part.
Proof.
  induction ps as [|q ps IH]; intros i part Hi; [destruct i; discriminate|].
  destruct i as [|i'].
  - simpl in Hi. injection Hi as <-. unfold sum_a0. simpl. ring.
  - simpl in Hi.
    change (sum_a0 (firstn (S (S i')) (q :: ps)))
      with (part_a0 q + sum_a0 (firstn (S i') ps)).
    change (sum_a0 (firstn (S i') (q :: ps)))
      with (part_a0 q + sum_a0 (firstn i' ps)).
    rewrite (IH i' part Hi). ring.
Qed.

Lemma assign_parts_all (written : list archipack_molding_part) :
  forall ps, List.length ps = List.length written -> assign_parts ps written = written.
Proof.
  induction written as [|w ws IH]; intros ps Hlen.
  - destruct ps; [reflexivity|discriminate].
  - destruct ps as [|q ps']; [discriminate|]. simpl. f_equal. apply IH.
    simpl in Hlen. lia.
Qed.

Lemma update_parts_length (n : nat) (ps : list archipack_molding_part) :
  List.length (update_parts n ps) = n.
Proof.
  unfold update_parts. rewrite length_app, length_firstn, repeat_length. lia.
Qed.

Lemma from_spline_traversal (ps : list archipack_molding_part) (user_path_reverse : bool)
  (pts : list Vector3) (p0 p1 : Vector3) (rest : list Vector3) :
  (if user_path_reverse then rev pts else pts) = p0 :: p1 :: rest ->
  from_spline ps user_path_reverse pts = from_spline_loop p0 0 (p1 :: rest).
Proof.
  intros Hpts. unfold from_spline. rewrite Hpts.
  apply assign_parts_all. rewrite update_parts_length, from_spline_loop_length.
  assert (Hlen : List.length pts = S (S (List.length rest))).
  { apply (f_equal (@List.length _)) in Hpts.
    destruct user_path_reverse; [rewrite length_rev in Hpts|]; exact Hpts. }
  rewrite Hlen. simpl. lia.
Qed.

(** C7, as amended. For every sequence of at least two sampled points, taken
    in the order of traversal, [from_spline] writes one part per step: its
    length is the planar distance of the step, or the minimum 0.01 of the
    length property when the step is shorter than that, its [dz] the
    difference in z, and its [a0] the heading [atan2] of the step minus the
    turns written so far, corrected by one step of 2 pi at most.  That [a0] is
    the heading itself for the first part, differs from the signed angle
    between the two consecutive steps by whole turns for the later ones, is
    always strictly between -2 pi and 2 pi, within the limits of the [a0]
    property, and lies in the closed interval [-pi, pi] whenever the turns
    written so far are within [-2 pi, 2 pi]. *)
Theorem from_spline_parts (ps : list archipack_molding_part) (user_path_reverse : bool)
  (pts : list Vector3) :
  (2 <= List.length pts)%nat ->
  let path := if user_path_reverse then rev pts else pts in
  let written := from_spline ps user_path_reverse pts in
  List.length written = (List.length pts - 1)%nat
  /\ (forall i pt qt,
         nth_error path i = Some pt ->
         nth_error path (S i) = Some qt ->
         exists part,
           nth_error written i = Some part
           /\ part_length part = Rmax 0.01 (vlength (to_2d (vsub3 qt pt)))
           /\ (0.01 <= vlength (to_2d (vsub3 qt pt)) ->
               part_length part = vlength (to_2d (vsub3 qt pt)))
           /\ part_dz part = z3 qt - z3 pt
           /\ part_a0 part = wrap_angle (heading pt qt - sum_a0 (firstn i written))
           /\ - (2 * PI) < part_a0 part < 2 * PI
           /\ (- 2 * PI <= sum_a0 (firstn i written) <= 2 * PI ->
               - PI <= part_a0 part <= PI))
  /\ (forall pt qt,
         nth_error path 0 = Some pt ->
         nth_error path 1 = Some qt ->
         exists part, nth_error written 0 = Some part /\ part_a0 part = heading pt qt)
  /\ (forall i ot pt qt,
         nth_error path i = Some ot ->
         nth_error path (S i) = Some pt ->
         nth_error path (S (S i)) = Some qt ->
         exists part k,
           nth_error written (S i) = Some part
           /\ part_a0 part = heading pt qt - heading ot pt + 2 * IZR k * PI).
Proof.
  intros Hlen path written.
  assert (Hplen : List.length path = List.length pts).
  { subst path. destruct user_path_reverse; [apply length_rev|reflexivity]. }
  destruct path as [|p0 [|p1 rest]] eqn:Hpath; try (simpl in Hplen; lia).
  assert (Hw : written = from_spline_loop p0 0 (p1 :: rest)).
  { subst written. now apply from_spline_traversal. }
  pose proof PI_RGT_0 as Hpi.
  assert (H0 : - 3 * PI < 0 <= 3 * PI) by lra.
  assert (Hnth : forall i pt qt,
             nth_error (p0 :: p1 :: rest) i = Some pt ->
             nth_error (p0 :: p1 :: rest) (S i) = Some qt ->
             nth_error written i
             = Some (mkPart (length_property (vlength (to_2d (vsub3 qt pt))))
                            (wrap_angle (heading pt qt - sum_a0 (firstn i written)))
                            (z3 (vsub3 qt pt)))
             /\ - 3 * PI < sum_a0 (firstn i written) <= 3 * PI).
  { intros i pt qt Hp Hq. rewrite Hw.
    destruct (from_spline_loop_nth _ p0 0 i pt qt H0 Hp Hq) as [Hn Hs].
    rewrite Rplus_0_l in Hn, Hs. now split. }
  split; [|split; [|split]].
  - rewrite Hw, from_spline_loop_length, <- Hplen. simpl. lia.
  - intros i pt qt Hp Hq. destruct (Hnth i pt qt Hp Hq) as [Hn Hs].
    eexists. split; [exact Hn|].
    cbn [part_length part_dz part_a0].
    pose proof (atan2_bound (y3 (vsub3 qt pt)) (x3 (vsub3 qt pt))) as Hat.
    split; [reflexivity|]. split; [apply length_property_id|].
    split; [reflexivity|]. split; [reflexivity|]. split.
    + now apply (turn_in_property (sum_a0 (firstn i written)) (heading pt qt)).
    + intros Hturns. apply wrap_angle_range. unfold heading. lra.
  - intros pt qt Hp Hq. destruct (Hnth 0%nat pt qt Hp Hq) as [Hn _].
    eexists. split; [exact Hn|].
    cbn [part_a0 firstn]. unfold sum_a0. cbn [fold_right]. rewrite Rminus_0_r.
    apply wrap_angle_id. pose proof (atan2_bound (y3 (vsub3 qt pt)) (x3 (vsub3 qt pt))).
    unfold heading. lra.
  - intros i ot pt qt Ho Hp Hq.
    destruct (Hnth i ot pt Ho Hp) as [H1 _].
    destruct (Hnth (S i) pt qt Hp Hq) as [H2 _].
    rewrite (sum_a0_snoc _ _ _ H1) in H2. cbn [part_a0] in H2.
    destruct (wrap_angle_turn (heading ot pt - sum_a0 (firstn i written))) as [k1 Hk1].
    destruct (wrap_angle_turn
                (heading pt qt
                 - (sum_a0 (firstn i written)
                    + wrap_angle (heading ot pt - sum_a0 (firstn i written)))))
      as [k2 Hk2].
    eexists. exists (k2 - k1)%Z. split; [exact H2|].
    cbn [part_a0]. rewrite Hk2, Hk1, minus_IZR. ring.
Qed.

Lemma from_spline_parts_witness :
  (2 <= List.length [mkVector3 0 0 0; mkVector3 2 0 0])%nat
  /\ List.length (from_spline [] false [mkVector3 0 0 0; mkVector3 2 0 0]) = 1%nat.
Proof.
  assert (H : (2 <= List.length [mkVector3 0 0 0; mkVector3 2 0 0])%nat) by (simpl; lia).
  split; [exact H|].
  exact (proj1 (from_spline_parts [] false [mkVector3 0 0 0; mkVector3 2 0 0] H)).
Defined.

(** C7, the counterexample: on the path that goes one unit up and straight
    back, the second part gets the angle [-pi], which is outside (-pi, pi];
    and on the path of one step of 0.005 along the x axis the part gets the
    length 0.01, the minimum of the property, which is not the planar distance
    0.005 of the step. *)
Lemma from_spline_u_turn_angle :
  (exists part,
      nth_error (from_spline [] false
                             [mkVector3 0 0 0; mkVector3 0 1 0; mkVector3 0 0 0]) 1
      = Some part
      /\ part_a0 part = - PI
      /\ (- PI < part_a0 part <= PI -> False))
  /\ (exists part,
         nth_error (from_spline [] false [mkVector3 0 0 0; mkVector3 0.005 0 0]) 0
         = Some part
         /\ vlength (to_2d (vsub3 (mkVector3 0.005 0 0) (mkVector3 0 0 0))) = 0.005
         /\ part_length part = 0.01
         /\ part_length part
            <> vlength (to_2d (vsub3 (mkVector3 0.005 0 0) (mkVector3 0 0 0)))).
Proof.
  pose proof PI_RGT_0 as Hpi.
  assert (H0 : - 3 * PI < 0 <= 3 * PI) by lra.
  split.
  - set (A := mkVector3 0 0 0). set (B := mkVector3 0 1 0).
    assert (HAB : heading A B = PI / 2)
      by (unfold heading; apply atan2_x_zero_y_pos; simpl; lra).
    assert (HBA : heading B A = - (PI / 2))
      by (unfold heading; apply atan2_x_zero_y_neg; simpl; lra).
    rewrite (from_spline_traversal [] false _ A B [A]) by reflexivity.
    destruct (from_spline_loop_nth [B; A] A 0 1 B A H0 eq_refl eq_refl) as [Hn _].
    rewrite Hn. eexists. split; [reflexivity|]. cbn [part_a0].
    cbn [from_spline_loop firstn]. unfold sum_a0. cbn [fold_right part_a0].
    change (atan2 (y3 (vsub3 B A)) (x3 (vsub3 B A))) with (heading A B).
    rewrite HAB, HBA.
    rewrite (wrap_angle_id (PI / 2 - 0)) by lra.
    rewrite (a0_property_id (PI / 2 - 0)) by lra.
    rewrite wrap_angle_id by lra.
    split; [lra|]. intros H. lra.
  - set (A := mkVector3 0 0 0). set (B := mkVector3 0.005 0 0).
    assert (Hd : vlength (to_2d (vsub3 B A)) = 0.005).
    { unfold to_2d, vsub3, A, B. cbn [x3 y3 z3]. apply vlength_mk; lra. }
    rewrite (from_spline_traversal [] false _ A B []) by reflexivity.
    cbn [from_spline_loop nth_error]. eexists. split; [reflexivity|].
    split; [exact Hd|]. cbn [part_length]. rewrite Hd.
    assert (Hl : length_property 0.005 = 0.01)
      by (unfold length_property; apply Rmax_left; lra).
    rewrite Hl. split; [reflexivity|lra].
Qed.

(** ** The square, sampled and rebuilt *)

Lemma from_spline_loop_step (p0 p1 : Vector3) (rest : list Vector3)
  (a0 len da dzv a1 : R) :
  vlength (to_2d (vsub3 p1 p0)) = len ->
  wrap_angle (heading p0 p1 - a0) = da ->
  z3 (vsub3 p1 p0) = dzv ->
  a0 + da = a1 ->
  0.01 <= len ->
  - (2 * PI) <= da <= 2 * PI ->
  from_spline_loop p0 a0 (p1 :: rest)
  = mkPart len da dzv :: from_spline_loop p1 a1 rest.
Proof.
  intros Hl Hd <- <- Hlen Hda. cbn [from_spline_loop].
  change (atan2 (y3 (vsub3 p1 p0)) (x3 (vsub3 p1 p0))) with (heading p0 p1).
  rewrite Hl, Hd, (length_property_id _ Hlen), (a0_property_id _ Hda).
  reflexivity.
Qed.

Lemma straight_molding_quarter (s : StraightMolding) (pt : Vector) (a b : R) :
  base s = mkLine pt (mkVector a b) ->
  a * a + b * b = 2 * 2 ->
  base (straight_molding s (PI / 2) 2)
  = mkLine (mkVector (x pt + a) (y pt + b)) (mkVector (- b) a).
Proof.
  intros Hs Hab. unfold straight_molding, StraightMolding_init, rotate, straight, lerp.
  cbn [base p v]. rewrite Hs. cbn [p v].
  assert (Hlen : vlength (mkVector a b) = 2) by (apply vlength_mk; lra).
  unfold normalized. rewrite Hlen. destruct (Req_dec_T 2 0); [lra|].
  rewrite cos_PI2, sin_PI2. f_equal; apply vector_eq; simpl; field.
Qed.

Lemma square_parts (ps : list archipack_molding_part) :
  from_spline ps false (square_points ++ [mkVector3 0 0 0])
  = [mkPart 2 0 0; mkPart 2 (PI / 2) 0; mkPart 2 (PI / 2) 0; mkPart 2 (PI / 2) 0].
Proof.
  pose proof PI_RGT_0 as Hpi.
  set (A := mkVector3 0 0 0). set (B := mkVector3 2 0 0).
  set (C := mkVector3 2 2 0). set (D := mkVector3 0 2 0).
  assert (HAB : heading A B = 0).
  { unfold heading. rewrite atan2_x_pos by (simpl; lra).
    simpl. replace ((0 - 0) / (2 - 0)) with 0 by field. apply atan_0. }
  assert (HBC : heading B C = PI / 2)
    by (unfold heading; apply atan2_x_zero_y_pos; simpl; lra).
  assert (HCD : heading C D = PI).
  { unfold heading. rewrite atan2_x_neg_y_nonneg by (simpl; lra).
    simpl. replace ((2 - 2) / (0 - 2)) with 0 by field. rewrite atan_0. ring. }
  assert (HDA : heading D A = - (PI / 2))
    by (unfold heading; apply atan2_x_zero_y_neg; simpl; lra).
  rewrite (from_spline_traversal ps false _ A B [C; D; A]) by reflexivity.
  rewrite (from_spline_loop_step A B _ 0 2 0 0 0);
    [|apply vlength_mk; simpl; lra|rewrite HAB, wrap_angle_id by lra; lra
     |simpl; ring|lra|lra|lra].
  rewrite (from_spline_loop_step B C _ 0 2 (PI / 2) 0 (PI / 2));
    [|apply vlength_mk; simpl; lra|rewrite HBC, wrap_angle_id by lra; lra
     |simpl; ring|lra|lra|lra].
  rewrite (from_spline_loop_step C D _ (PI / 2) 2 (PI / 2) 0 PI);
    [|apply vlength_mk; simpl; lra|rewrite HCD, wrap_angle_id by lra; lra
     |simpl; ring|lra|lra|lra].
  rewrite (from_spline_loop_step D A _ PI 2 (PI / 2) 0 (3 * PI / 2));
    [|apply vlength_mk; simpl; lra|rewrite HDA, wrap_angle_low by lra; lra
     |simpl; ring|lra|lra|lra].
  reflexivity.
Qed.

(** C8. Sampling the cyclic square (0,0,0), (2,0,0), (2,2,0), (0,2,0) gives
    the five points of the closed loop; [from_spline] turns them into four
    parts of length 2 with the angles 0, pi/2, pi/2, pi/2 and [dz] 0; and the
    chain [add_part] builds from these parts starts its four segments at the
    four corners, in order, and ends where it began. *)
Theorem square_round_trip (ps : list archipack_molding_part) :
  spline_points_POLY (fun pt => pt) square_points true
  = Ok (square_points ++ [mkVector3 0 0 0])
  /\ from_spline ps false (square_points ++ [mkVector3 0 0 0])
     = [mkPart 2 0 0; mkPart 2 (PI / 2) 0; mkPart 2 (PI / 2) 0; mkPart 2 (PI / 2) 0]
  /\ map (fun s => p (base s))
         (segs (build_chain (from_spline ps false (square_points ++ [mkVector3 0 0 0]))))
     = map to_2d square_points
  /\ (forall d,
         lerp (base (last (segs (build_chain
                 (from_spline ps false (square_points ++ [mkVector3 0 0 0])))) d)) 1
         = mkVector 0 0).
Proof.
  split; [reflexivity|]. split; [apply square_parts|].
  rewrite square_parts.
  set (s0 := first_molding (mkPart 2 0 0)).
  set (s1 := straight_molding s0 (PI / 2) 2).
  set (s2 := straight_molding s1 (PI / 2) 2).
  set (s3 := straight_molding s2 (PI / 2) 2).
  assert (Hsegs : segs (build_chain [mkPart 2 0 0; mkPart 2 (PI / 2) 0;
                                     mkPart 2 (PI / 2) 0; mkPart 2 (PI / 2) 0])
                  = [s0; s1; s2; s3]) by reflexivity.
  assert (B0 : base s0 = mkLine (mkVector 0 0) (mkVector 2 0)).
  { subst s0. unfold first_molding, StraightMolding_init. cbn [base part_length part_a0].
    rewrite cos_0, sin_0. f_equal. apply vector_eq; simpl; ring. }
  assert (B1 : base s1 = mkLine (mkVector 2 0) (mkVector 0 2)).
  { subst s1. rewrite (straight_molding_quarter s0 _ _ _ B0) by ring.
    f_equal; apply vector_eq; simpl; ring. }
  assert (B2 : base s2 = mkLine (mkVector 2 2) (mkVector (- 2) 0)).
  { subst s2. rewrite (straight_molding_quarter s1 _ _ _ B1) by ring.
    f_equal; apply vector_eq; simpl; ring. }
  assert (B3 : base s3 = mkLine (mkVector 0 2) (mkVector 0 (- 2))).
  { subst s3. rewrite (straight_molding_quarter s2 _ _ _ B2) by ring.
    f_equal; apply vector_eq; simpl; ring. }
  rewrite Hsegs. split.
  - cbn [map]. rewrite B0, B1, B2, B3. reflexivity.
  - intros d. cbn [last]. rewrite B3. apply vector_eq; simpl; ring.
Qed.

(** * Further properties of the code *)

(** ** The chain of add_part *)

Lemma add_part_segs (g : MoldingGenerator) (part : archipack_molding_part) :
  exists s, segs (add_part g part) = segs g ++ [s]
            /\ match segs g with
               | [] => s = first_molding part
               | a :: tl => s = straight_molding (last (a :: tl) a)
                                                 (part_a0 part) (part_length part)
               end.
Proof.
  unfold add_part. cbn [segs]. eexists. split; [reflexivity|].
  destruct (segs g) as [|a tl] eqn:Hs; [reflexivity|].
  rewrite (last_map_Some (a :: tl) a) by discriminate. reflexivity.
Qed.

Lemma fold_add_part_parts (ps : list archipack_molding_part) :
  forall g, parts (fold_left add_part ps g) = parts g.
Proof.
  induction ps as [|part ps IH]; intros g; simpl; [reflexivity|]. now rewrite IH.
Qed.

Lemma chained_snoc (ls : list Line) (b : Line) :
  chained ls ->
  (forall d, ls <> [] -> p b = lerp (last ls d) 1) ->
  chained (ls ++ [b]).
Proof.
  induction ls as [|a tl IH]; intros Hc Hb; [exact I|].
  destruct tl as [|a' tl'].
  - simpl. split; [|exact I]. apply (Hb a). discriminate.
  - change (chained ((a :: a' :: tl') ++ [b]))
      with (p a' = lerp a 1 /\ chained ((a' :: tl') ++ [b])).
    destruct Hc as [Hc1 Hc2]. split; [exact Hc1|].
    apply IH; [exact Hc2|]. intros d _. apply (Hb d). discriminate.
Qed.

Lemma fold_add_part_chained (ps : list archipack_molding_part) :
  forall g,
    chained (map base (segs g)) ->
    List.length (segs (fold_left add_part ps g))
    = (List.length (segs g) + List.length ps)%nat
    /\ chained (map base (segs (fold_left add_part ps g))).
Proof.
  induction ps as [|part ps IH]; intros g Hc; simpl.
  - split; [lia|exact Hc].
  - destruct (add_part_segs g part) as [s [Hs Hwhat]].
    destruct (IH (add_part g part)) as [Hlen Hch].
    + rewrite Hs, map_app. apply chained_snoc; [exact Hc|].
      intros d Hne. destruct (segs g) as [|a tl]; [now destruct Hne|].
      assert (Hl : last (map base (a :: tl)) d = base (last (a :: tl) a)).
      { rewrite <- (last_map base (a :: tl) a).
        destruct (exists_last (l := map base (a :: tl)) ltac:(discriminate))
          as [l' [z Hz]].
        rewrite Hz, !last_last. reflexivity. }
      rewrite Hl, Hwhat. reflexivity.
    + split; [|exact Hch]. rewrite Hlen, Hs, length_app. simpl. lia.
Qed.

Lemma chained_nth (ls : list Line) :
  chained ls ->
  forall i a b, nth_error ls i = Some a -> nth_error ls (S i) = Some b ->
                p b = lerp a 1.
Proof.
  induction ls as [|a0 tl IH]; intros Hc i a b Ha Hb; [destruct i; discriminate|].
  destruct tl as [|a1 tl']; [destruct i; discriminate|].
  destruct Hc as [Hc1 Hc2]. destruct i as [|i'].
  - simpl in Ha, Hb. injection Ha as <-. injection Hb as <-. exact Hc1.
  - apply (IH Hc2 i'); assumption.
Qed.

(** X1. [add_part], called for each part in turn, builds one segment per part
    and leaves the parts as they are; the first segment starts at the origin
    and every later one starts at the end point of the segment before it. *)
Theorem build_chain_connected (ps : list archipack_molding_part) :
  List.length (segs (build_chain ps)) = List.length ps
  /\ parts (build_chain ps) = ps
  /\ (forall s, nth_error (segs (build_chain ps)) 0 = Some s ->
                p (base s) = mkVector 0 0)
  /\ (forall i s t,
         nth_error (segs (build_chain ps)) i = Some s ->
         nth_error (segs (build_chain ps)) (S i) = Some t ->
         p (base t) = lerp (base s) 1).
Proof.
  destruct (fold_add_part_chained ps (MoldingGenerator_init ps) I) as [Hlen Hch].
  fold (build_chain ps) in Hlen, Hch. split; [exact Hlen|]. split; [|split].
  - unfold build_chain. now rewrite fold_add_part_parts.
  - intros s Hs. destruct ps as [|part ps']; [discriminate|].
    destruct (build_chain_head part ps') as [rest Hhead].
    rewrite Hhead in Hs. simpl in Hs. injection Hs as <-. reflexivity.
  - intros i s t Hs Ht.
    apply (chained_nth _ Hch i); now apply map_nth_error.
Qed.

Lemma vlength_polar (A : R) : vlength (mkVector (cos A) (sin A)) = 1.
Proof.
  apply vlength_mk; [lra|]. pose proof (sin2_cos2 A) as H. unfold Rsqr in H. lra.
Qed.

Lemma normalized_polar (len A : R) :
  0 < len ->
  normalized (smul len (mkVector (cos A) (sin A))) = mkVector (cos A) (sin A).
Proof.
  intros Hlen.
  assert (Hl : vlength (smul len (mkVector (cos A) (sin A))) = len).
  { rewrite vlength_smul, vlength_polar, Rabs_pos_eq; lra. }
  unfold normalized. rewrite Hl. destruct (Req_dec_T len 0); [lra|].
  apply vector_eq; simpl; field; lra.
Qed.

Lemma straight_molding_polar (s : StraightMolding) (pt : Vector) (len A a0 len' : R) :
  base s = mkLine pt (smul len (mkVector (cos A) (sin A))) ->
  0 < len ->
  base (straight_molding s a0 len')
  = mkLine (vadd pt (smul len (mkVector (cos A) (sin A))))
           (smul len' (mkVector (cos (A + a0)) (sin (A + a0)))).
Proof.
  intros Hs Hlen. unfold straight_molding, StraightMolding_init, rotate, straight, lerp.
  cbn [base p v]. rewrite Hs. cbn [p v]. rewrite normalized_polar by exact Hlen.
  f_equal; apply vector_eq; simpl; rewrite ?cos_plus, ?sin_plus; ring.
Qed.

Lemma fold_add_part_polar (ps : list archipack_molding_part) :
  forall g front sl pt len A,
    segs g = front ++ [sl] ->
    base sl = mkLine pt (smul len (mkVector (cos A) (sin A))) ->
    0 < len ->
    Forall (fun part => 0 < part_length part) ps ->
    map base (segs (fold_left add_part ps g))
    = map base (segs g)
        ++ polar_chain (vadd pt (smul len (mkVector (cos A) (sin A)))) A ps.
Proof.
  induction ps as [|part ps IH]; intros g front sl pt len A Hs Hb Hlen Hall; simpl.
  - now rewrite app_nil_r.
  - inversion Hall as [|? ? Hpart Hrest]; subst.
    destruct (add_part_segs g part) as [s [Hsegs Hwhat]].
    assert (Hs' : s = straight_molding sl (part_a0 part) (part_length part)).
    { rewrite Hs in Hwhat. destruct (front ++ [sl]) as [|a tl] eqn:E.
      - destruct front; discriminate.
      - rewrite Hwhat. f_equal. rewrite <- E. apply last_last. }
    assert (Hbs : base s
                  = mkLine (vadd pt (smul len (mkVector (cos A) (sin A))))
                           (smul (part_length part)
                                 (mkVector (cos (A + part_a0 part))
                                           (sin (A + part_a0 part)))))
      by (rewrite Hs'; now apply straight_molding_polar).
    rewrite (IH (add_part g part) (segs g) s _ _ _ Hsegs Hbs Hpart Hrest).
    rewrite Hsegs, map_app, <- app_assoc. cbn [map app]. now rewrite Hbs.
Qed.

Lemma polar_chain_lengths (ps : list archipack_molding_part) :
  forall pt A,
    Forall (fun part => 0 < part_length part) ps ->
    map length (polar_chain pt A ps) = map part_length ps.
Proof.
  induction ps as [|part ps IH]; intros pt A Hall; [reflexivity|].
  inversion Hall as [|? ? Hpart Hrest]; subst. cbn [polar_chain map].
  rewrite IH by exact Hrest. f_equal.
  unfold length. cbn [v]. rewrite vlength_smul, vlength_polar, Rabs_pos_eq; lra.
Qed.

Lemma build_chain_polar_base (ps : list archipack_molding_part) :
  Forall (fun part => 0 < part_length part) ps ->
  map base (segs (build_chain ps)) = polar_chain (mkVector 0 0) 0 ps.
Proof.
  intros Hall. destruct ps as [|part ps']; [reflexivity|].
  inversion Hall as [|? ? Hpart Hrest]; subst.
  unfold build_chain. cbn [fold_left].
  assert (Hfirst : segs (add_part (MoldingGenerator_init (part :: ps')) part)
                   = [] ++ [first_molding part]) by reflexivity.
  rewrite (fold_add_part_polar ps' _ [] (first_molding part) (mkVector 0 0)
             (part_length part) (part_a0 part) Hfirst eq_refl Hpart Hrest).
  rewrite Hfirst. cbn [map app polar_chain]. rewrite Rplus_0_l. reflexivity.
Qed.

Lemma build_chain_length (ps : list archipack_molding_part) :
  List.length (segs (build_chain ps)) = List.length ps.
Proof.
  destruct (fold_add_part_chained ps (MoldingGenerator_init ps) I) as [Hlen _].
  exact Hlen.
Qed.

(** X2. When every part has a positive length, the chain of [add_part] is the
    polyline that starts at the origin and at each part turns by the part's
    [a0] from the heading reached so far and advances by the part's length:
    headings accumulate, and each segment is as long as its part. *)
Theorem build_chain_polar (ps : list archipack_molding_part) :
  Forall (fun part => 0 < part_length part) ps ->
  map base (segs (build_chain ps)) = polar_chain (mkVector 0 0) 0 ps
  /\ map (fun s => length (base s)) (segs (build_chain ps)) = map part_length ps.
Proof.
  intros Hall. pose proof (build_chain_polar_base ps Hall) as Hpolar.
  split; [exact Hpolar|].
  rewrite <- (map_map base length), Hpolar. now apply polar_chain_lengths.
Qed.

Lemma build_chain_polar_witness :
  Forall (fun part => 0 < part_length part) [mkPart 2 0 0; mkPart 3 (PI / 2) 0]
  /\ map (fun s => length (base s)) (segs (build_chain [mkPart 2 0 0; mkPart 3 (PI / 2) 0]))
     = [2; 3].
Proof.
  assert (H : Forall (fun part => 0 < part_length part)
                     [mkPart 2 0 0; mkPart 3 (PI / 2) 0])
    by (repeat constructor; simpl; lra).
  split; [exact H|].
  exact (proj2 (build_chain_polar [mkPart 2 0 0; mkPart 3 (PI / 2) 0] H)).
Defined.

(** ** From the sampled points to the parts and back *)

Lemma sqrt_sum_scale (dx dy : R) :
  dx <> 0 ->
  sqrt (dx * dx + dy * dy) = Rabs dx * sqrt (1 + (dy / dx)²).
Proof.
  intros Hx.
  replace (dx * dx + dy * dy) with (dx² * (1 + (dy / dx)²))
    by (unfold Rsqr; field; exact Hx).
  rewrite sqrt_mult_alt by apply Rle_0_sqr. now rewrite sqrt_Rsqr_abs.
Qed.

Lemma sqrt_one_plus_sqr_pos (t : R) : 0 < sqrt (1 + t²).
Proof. apply sqrt_lt_R0. pose proof (Rle_0_sqr t). lra. Qed.

(** A step of nonzero planar length is its length times the unit vector of
    its heading. *)
Lemma polar_atan2 (dx dy : R) :
  vlength (mkVector dx dy) <> 0 ->
  vlength (mkVector dx dy) * cos (atan2 dy dx) = dx
  /\ vlength (mkVector dx dy) * sin (atan2 dy dx) = dy.
Proof.
  intros Hnz. unfold vlength in *. cbn [x y] in *.
  pose proof (sqrt_one_plus_sqr_pos (dy / dx)) as Hs.
  destruct (Rlt_dec 0 dx) as [Hpos|Hnpos].
  - rewrite atan2_x_pos by exact Hpos.
    rewrite sqrt_sum_scale by lra. rewrite Rabs_pos_eq by lra.
    rewrite cos_atan, sin_atan. split; field; lra.
  - destruct (Rlt_dec dx 0) as [Hneg|Hnneg].
    + rewrite sqrt_sum_scale by lra. rewrite Rabs_left by exact Hneg.
      destruct (Rle_dec 0 dy) as [Hy|Hy].
      * rewrite atan2_x_neg_y_nonneg by assumption.
        rewrite neg_cos, neg_sin, cos_atan, sin_atan. split; field; lra.
      * rewrite atan2_x_neg_y_neg by lra.
        replace (atan (dy / dx) - PI) with (- (PI - atan (dy / dx))) by ring.
        rewrite cos_neg, sin_neg.
        replace (PI - atan (dy / dx)) with (- atan (dy / dx) + PI) by ring.
        rewrite neg_cos, neg_sin, cos_neg, sin_neg, cos_atan, sin_atan.
        split; field; lra.
    + assert (Hx : dx = 0) by lra. subst dx.
      replace (0 * 0 + dy * dy) with (dy²) in * by (unfold Rsqr; ring).
      rewrite sqrt_Rsqr_abs in *.
      destruct (Rlt_dec 0 dy) as [Hy|Hy].
      * rewrite atan2_x_zero_y_pos by (lra || reflexivity).
        rewrite cos_PI2, sin_PI2, Rabs_pos_eq by lra. lra.
      * destruct (Rlt_dec dy 0) as [Hy'|Hy'].
        -- rewrite atan2_x_zero_y_neg by (lra || reflexivity).
           rewrite cos_neg, sin_neg, cos_PI2, sin_PI2, Rabs_left by lra. lra.
        -- assert (dy = 0) by lra. subst dy. rewrite Rabs_R0 in Hnz. lra.
Qed.

Lemma wrap_angle_cases (d : R) :
  wrap_angle d = d \/ wrap_angle d = d - 2 * PI \/ wrap_angle d = d + 2 * PI.
Proof.
  destruct (Rlt_dec PI d) as [Hh|Hh].
  - right; left. now apply wrap_angle_high.
  - destruct (Rlt_dec d (- PI)) as [Hl|Hl].
    + right; right. now apply wrap_angle_low.
    + left. apply wrap_angle_id. lra.
Qed.

Lemma cos_turn (t : R) : cos (t + 2 * PI) = cos t /\ cos (t - 2 * PI) = cos t.
Proof.
  split.
  - rewrite cos_plus, cos_2PI, sin_2PI. ring.
  - rewrite cos_minus, cos_2PI, sin_2PI. ring.
Qed.

Lemma sin_turn (t : R) : sin (t + 2 * PI) = sin t /\ sin (t - 2 * PI) = sin t.
Proof.
  split.
  - rewrite sin_plus, cos_2PI, sin_2PI. ring.
  - rewrite sin_minus, cos_2PI, sin_2PI. ring.
Qed.

(** The heading reached after a part is the heading of its step, up to a
    whole turn. *)
Lemma heading_after_part (a0 t : R) :
  cos (a0 + wrap_angle (t - a0)) = cos t /\ sin (a0 + wrap_angle (t - a0)) = sin t.
Proof.
  destruct (wrap_angle_cases (t - a0)) as [H|[H|H]]; rewrite H.
  - replace (a0 + (t - a0)) with t by ring. now split.
  - replace (a0 + (t - a0 - 2 * PI)) with (t - 2 * PI) by ring.
    split; [apply cos_turn|apply sin_turn].
  - replace (a0 + (t - a0 + 2 * PI)) with (t + 2 * PI) by ring.
    split; [apply cos_turn|apply sin_turn].
Qed.

Lemma polar_from_spline (rest : list Vector3) :
  forall p0 a0 pt,
    - 3 * PI < a0 <= 3 * PI ->
    planar_steps p0 rest ->
    polar_chain pt a0 (from_spline_loop p0 a0 rest) = path_lines pt p0 rest.
Proof.
  induction rest as [|p1 r IH]; intros p0 a0 pt Ha Hsteps; [reflexivity|].
  destruct Hsteps as [Hlong Hrest].
  assert (Hstep : vlength (to_2d (vsub3 p1 p0)) <> 0) by lra.
  destruct (turn_in_property a0 (atan2 (y3 (vsub3 p1 p0)) (x3 (vsub3 p1 p0))) Ha
              (atan2_bound _ _)) as [_ [Hprop Ha']].
  cbn [from_spline_loop polar_chain path_lines part_length part_a0].
  rewrite Hprop, (length_property_id _ Hlong).
  set (da := wrap_angle (atan2 (y3 (vsub3 p1 p0)) (x3 (vsub3 p1 p0)) - a0)) in *.
  assert (Hvec : smul (vlength (to_2d (vsub3 p1 p0)))
                      (mkVector (cos (a0 + da)) (sin (a0 + da)))
                 = to_2d (vsub3 p1 p0)).
  { destruct (heading_after_part a0 (atan2 (y3 (vsub3 p1 p0)) (x3 (vsub3 p1 p0))))
      as [Hc Hs].
    fold da in Hc, Hs.
    destruct (polar_atan2 (x3 (vsub3 p1 p0)) (y3 (vsub3 p1 p0)) Hstep) as [Hx Hy].
    apply vector_eq; unfold smul; cbn [x y]; [rewrite Hc|rewrite Hs]; assumption. }
  rewrite Hvec. f_equal. now apply IH.
Qed.

Lemma path_lines_nth (rest : list Vector3) :
  forall p0 pt i a b,
    nth_error (p0 :: rest) i = Some a ->
    nth_error (p0 :: rest) (S i) = Some b ->
    exists l,
      nth_error (path_lines pt p0 rest) i = Some l
      /\ p l = vadd pt (to_2d (vsub3 a p0))
      /\ v l = to_2d (vsub3 b a).
Proof.
  induction rest as [|p1 r IH]; intros p0 pt i a b Ha Hb; [destruct i; discriminate|].
  destruct i as [|i'].
  - simpl in Ha, Hb. injection Ha as <-. injection Hb as <-.
    eexists. split; [reflexivity|]. split; [|reflexivity].
    apply vector_eq; simpl; ring.
  - simpl in Ha. change (nth_error (p1 :: r) (S i') = Some b) in Hb.
    destruct (IH p1 (vadd pt (to_2d (vsub3 p1 p0))) i' a b Ha Hb) as [l [Hl [Hp Hv]]].
    exists l. split; [exact Hl|]. split; [|exact Hv].
    rewrite Hp. apply vector_eq; simpl; ring.
Qed.

Lemma from_spline_loop_positive (rest : list Vector3) :
  forall p0 a0,
    planar_steps p0 rest ->
    Forall (fun part => 0 < part_length part) (from_spline_loop p0 a0 rest).
Proof.
  induction rest as [|p1 r IH]; intros p0 a0 Hsteps; [constructor|].
  destruct Hsteps as [Hstep Hrest]. cbn [from_spline_loop]. constructor.
  - cbn [part_length]. rewrite (length_property_id _ Hstep). lra.
  - now apply IH.
Qed.

Lemma from_spline_chain_lines (ps : list archipack_molding_part)
  (user_path_reverse : bool) (pts : list Vector3) (p0 p1 : Vector3)
  (rest : list Vector3) :
  (if user_path_reverse then rev pts else pts) = p0 :: p1 :: rest ->
  planar_steps p0 (p1 :: rest) ->
  from_spline ps user_path_reverse pts = from_spline_loop p0 0 (p1 :: rest)
  /\ Forall (fun part => 0 < part_length part) (from_spline ps user_path_reverse pts)
  /\ map base (segs (build_chain (from_spline ps user_path_reverse pts)))
     = path_lines (mkVector 0 0) p0 (p1 :: rest).
Proof.
  intros Hpath Hsteps.
  assert (Hw : from_spline ps user_path_reverse pts = from_spline_loop p0 0 (p1 :: rest))
    by now apply from_spline_traversal.
  pose proof (from_spline_loop_positive _ p0 0 Hsteps) as Hpos.
  split; [exact Hw|]. rewrite Hw. split; [exact Hpos|].
  rewrite (build_chain_polar_base _ Hpos).
  apply polar_from_spline; [pose proof PI_RGT_0; lra|exact Hsteps].
Qed.

(** X3. Round trip.  When every step of the sampled path is, in the plane, at
    least as long as the minimum 0.01 of the length property, the chain
    [add_part] builds from the parts [from_spline] has written runs through
    the points of the path, seen in the plane and from the first point:
    segment [i] starts at point [i] and ends at point [i + 1]. *)
Theorem from_spline_round_trip (ps : list archipack_molding_part)
  (user_path_reverse : bool) (pts : list Vector3) (p0 p1 : Vector3)
  (rest : list Vector3) :
  (if user_path_reverse then rev pts else pts) = p0 :: p1 :: rest ->
  planar_steps p0 (p1 :: rest) ->
  let chain := segs (build_chain (from_spline ps user_path_reverse pts)) in
  List.length chain = S (List.length rest)
  /\ (forall i a b,
         nth_error (p0 :: p1 :: rest) i = Some a ->
         nth_error (p0 :: p1 :: rest) (S i) = Some b ->
         exists s,
           nth_error chain i = Some s
           /\ p (base s) = to_2d (vsub3 a p0)
           /\ v (base s) = to_2d (vsub3 b a)
           /\ lerp (base s) 1 = to_2d (vsub3 b p0)).
Proof.
  intros Hpath Hsteps chain.
  destruct (from_spline_chain_lines ps user_path_reverse pts p0 p1 rest Hpath Hsteps)
    as [Hw [_ Hbase]].
  fold chain in Hbase.
  pose proof (build_chain_length (from_spline_loop p0 0 (p1 :: rest))) as Hlen.
  split.
  - subst chain. rewrite Hw, Hlen, from_spline_loop_length. reflexivity.
  - intros i a b Ha Hb.
    destruct (path_lines_nth _ p0 (mkVector 0 0) i a b Ha Hb) as [l [Hl [Hp Hv]]].
    rewrite <- Hbase, nth_error_map in Hl.
    destruct (nth_error chain i) as [s|] eqn:Hs; [|discriminate].
    simpl in Hl. injection Hl as Hbs. exists s. split; [reflexivity|].
    unfold lerp. rewrite Hbs, Hp, Hv. repeat split; apply vector_eq; simpl; ring.
Qed.

Lemma from_spline_round_trip_witness :
  planar_steps (mkVector3 1 1 0) [mkVector3 3 1 5]
  /\ List.length (segs (build_chain
                          (from_spline [] false [mkVector3 1 1 0; mkVector3 3 1 5])))
     = 1%nat.
Proof.
  assert (H : planar_steps (mkVector3 1 1 0) [mkVector3 3 1 5]).
  { split; [|exact I]. unfold to_2d, vsub3. cbn [x3 y3 z3].
    rewrite (vlength_mk _ _ 2) by lra. lra. }
  split; [exact H|].
  exact (proj1 (from_spline_round_trip [] false [mkVector3 1 1 0; mkVector3 3 1 5]
                  (mkVector3 1 1 0) (mkVector3 3 1 5) [] eq_refl H)).
Defined.

(** ** When make_profile completes *)

Lemma first_molding_length (offset : R) (part : archipack_molding_part) :
  length (offset_line offset (first_molding part)) = Rabs (part_length part).
Proof.
  unfold length, offset_line, make_offset, first_molding, StraightMolding_init.
  cbn [base v]. rewrite vlength_smul, vlength_polar. ring.
Qed.

Lemma first_molding_nonzero (offset : R) (part : archipack_molding_part) :
  nonzero (offset_line offset (first_molding part)) = true <-> part_length part <> 0.
Proof.
  unfold nonzero. rewrite first_molding_length.
  destruct (Req_dec_T (Rabs (part_length part)) 0) as [Hz|Hnz]; split; intros H.
  - discriminate.
  - exfalso. apply H. destruct (Req_dec_T (part_length part) 0) as [E|E]; [exact E|].
    now apply Rabs_no_R0 in E.
  - intros E. apply Hnz. rewrite E. apply Rabs_R0.
  - reflexivity.
Qed.

Lemma reoffset_get_generator (ps : list archipack_molding_part) (x_offset : R) :
  reoffset (get_generator ps x_offset) x_offset = get_generator ps x_offset.
Proof.
  unfold reoffset, get_generator, set_offset. cbn [parts segs].
  rewrite !offset_loop_map, map_map. reflexivity.
Qed.

Lemma get_generator_head (part : archipack_molding_part)
  (ps : list archipack_molding_part) (x_offset : R) :
  exists rest,
    segs (get_generator (part :: ps) x_offset)
    = Molding_set_offset (first_molding part) x_offset None :: rest.
Proof.
  destruct (build_chain_head part ps) as [rest Hhead].
  unfold get_generator. rewrite set_offset_segs, Hhead. cbn [map]. now eexists.
Qed.

(** X4. On the generator of [get_generator], [make_profile] completes exactly
    when there is no part or the first part has a nonzero length, whatever the
    lengths of the later parts; the only exception it raises is
    [ZeroDivisionError], and then the generator and the four buffers are as
    they were before the call. *)
Theorem make_profile_completes (Panel_uv : Panel -> list uv_quad)
  (ps : list archipack_molding_part) (profile : list Vector) (idmat : Z)
  (x_offset z_offset extend : R) (closed : bool) (b : Buffers) :
  let g := get_generator ps x_offset in
  let run := make_profile Panel_uv g profile idmat x_offset z_offset extend closed b in
  ((exists b', run = Done (g, b'))
   <-> (forall part rest, ps = part :: rest -> part_length part <> 0))
  /\ (forall e st, run = Failed e st -> e = ZeroDivisionError /\ st = (g, b)).
Proof.
  intros g run. destruct ps as [|part ps'].
  - assert (Hrun : run = Done (g, b)).
    { subst run. rewrite make_profile_empty by reflexivity.
      subst g. now rewrite reoffset_get_generator. }
    split; [split|].
    + intros _ part rest E. discriminate.
    + intros _. now exists b.
    + intros e st E. rewrite Hrun in E. discriminate.
  - destruct (get_generator_head part ps' x_offset) as [rest Hsegs]. fold g in Hsegs.
    destruct (nonzero (offset_line x_offset (first_molding part))) eqn:Hnz.
    + assert (Hrun : exists b', run = Done (g, b')).
      { subst run. rewrite (make_profile_done _ _ _ _ _ _ _ _ _ _ _ Hsegs Hnz).
        subst g. rewrite reoffset_get_generator. now eexists. }
      split; [split|].
      * intros _ part' rest' E. injection E as <- _.
        now apply (first_molding_nonzero x_offset).
      * intros _. exact Hrun.
      * intros e st E. destruct Hrun as [b' Hb']. rewrite Hb' in E. discriminate.
    + assert (Hrun : run = Failed ZeroDivisionError (g, b)).
      { subst run. rewrite (make_profile_zero _ _ _ _ _ _ _ _ _ _ _ Hsegs Hnz).
        subst g. now rewrite reoffset_get_generator. }
      split; [split|].
      * intros [b' Hb']. rewrite Hrun in Hb'. discriminate.
      * intros Hlen. exfalso.
        assert (Hn : nonzero (offset_line x_offset (first_molding part)) = true)
          by (apply first_molding_nonzero; now apply (Hlen part ps')).
        rewrite Hn in Hnz. discriminate.
      * intros e st E. rewrite Hrun in E. injection E as <- <-. now split.
Qed.

(** ** The two ends of an open path *)

Lemma mitre_scale_same (u : Vector) : vlength u = 1 -> mitre_scale u u = 1.
Proof.
  intros Hu. unfold mitre_scale. rewrite dot_self, Hu.
  replace (1²) with 1 by (unfold Rsqr; ring).
  rewrite Rmax_right by lra. rewrite (Rmin_left 1 1) by lra.
  rewrite acos_1. replace (0.5 * 0) with 0 by ring. rewrite cos_0.
  cbv zeta. destruct (Req_dec_T 1 0); [lra|].
  replace (1 / 1) with 1 by field. apply Rmin_right. lra.
Qed.

(** X5. On an open path whose first segment is not of length zero, the first
    and the last frame have the mitre scale 1: there the profile is swept at
    its own width. *)
Theorem open_path_end_scale (x_offset : R) (g : MoldingGenerator)
  (f : StraightMolding) (rest : list StraightMolding) :
  segs g = f :: rest ->
  nonzero (offset_line x_offset f) = true ->
  chain_closed x_offset f (segs g) = false ->
  (exists fr frs, emitted_frames x_offset g = fr :: frs /\ mitreScale fr = 1)
  /\ (forall d, mitreScale (last (emitted_frames x_offset g) d) = 1).
Proof.
  intros Hsegs Hnz Hcp. pose proof (nonzero_length _ Hnz) as Hlen.
  rewrite (emitted_frames_open _ _ _ _ Hsegs Hnz Hcp). split.
  - do 2 eexists. split; [reflexivity|].
    cbn [mitreScale joint_frame frame_line fst end_section].
    change (v (sized_normal (offset_line x_offset f) 1 1))
      with (v (sized_normal (offset_line x_offset f) 0 1)).
    apply mitre_scale_same. now apply section_direction.
  - intros d.
    rewrite frames_of_open_last with (d' := end_section x_offset f) by discriminate.
    cbn [mitreScale joint_frame]. apply mitre_scale_same.
    change (last (?a :: end_section x_offset f
                     :: map (end_section x_offset) (nonzero_segs x_offset rest))
                 (end_section x_offset f))
      with (last (map (end_section x_offset) (f :: nonzero_segs x_offset rest))
                 (end_section x_offset f)).
    rewrite last_map. unfold section_unit, end_section, frame_line. cbn [fst].
    apply section_direction. apply nonzero_length.
    assert (Hin : In (last (f :: nonzero_segs x_offset rest) f)
                     (f :: nonzero_segs x_offset rest)).
    { destruct (exists_last (l := f :: nonzero_segs x_offset rest) ltac:(discriminate))
        as [l' [a Hl']].
      rewrite Hl', last_last. apply in_or_app. right. now left. }
    destruct Hin as [<-|Hin]; [exact Hnz|].
    unfold nonzero_segs in Hin. apply filter_In in Hin. now destruct Hin.
Qed.

Lemma open_path_end_scale_witness :
  segs (build_chain [mkPart 2 0 0]) = [first_molding (mkPart 2 0 0)]
  /\ nonzero (offset_line 0 (first_molding (mkPart 2 0 0))) = true
  /\ chain_closed 0 (first_molding (mkPart 2 0 0)) (segs (build_chain [mkPart 2 0 0]))
     = false
  /\ forall d, mitreScale (last (emitted_frames 0 (build_chain [mkPart 2 0 0])) d) = 1.
Proof.
  assert (Hsegs : segs (build_chain [mkPart 2 0 0]) = [first_molding (mkPart 2 0 0)])
    by reflexivity.
  assert (Hnz : nonzero (offset_line 0 (first_molding (mkPart 2 0 0))) = true)
    by (apply straight_line_nonzero; lra).
  assert (Hcp : chain_closed 0 (first_molding (mkPart 2 0 0))
                             (segs (build_chain [mkPart 2 0 0])) = false)
    by (rewrite Hsegs; apply (straight_line_open 2 0); lra).
  split; [exact Hsegs|]. split; [exact Hnz|]. split; [exact Hcp|].
  exact (proj2 (open_path_end_scale 0 _ _ _ Hsegs Hnz Hcp)).
Defined.

(** ** What the lofter is given *)

Lemma path_steps_length (todo : list section_frame) :
  forall p0, List.length (path_steps p0 todo) = List.length todo.
Proof. induction todo as [|s t IH]; intros; simpl; [reflexivity|now rewrite IH]. Qed.

Lemma path_steps_nonneg (todo : list section_frame) :
  forall p0, Forall (fun u => 0 <= u) (path_steps p0 todo).
Proof.
  induction todo as [|s t IH]; intros; simpl; constructor;
    [apply vlength_nonneg|apply IH].
Qed.

(** X6. A call of [make_profile] that completes on a non-empty chain hands the
    lofter the profile's x and y columns, the material id once per profile
    point, the closed flags, and in [user_path_uv_v] one distance per segment
    of nonzero length, none of them negative; on an open path the first of
    them is the length of the first segment.  The faces are numbered from the
    number of vertices that were in the buffer before the call. *)
Theorem lofter_input (Panel_uv : Panel -> list uv_quad) (g : MoldingGenerator)
  (f : StraightMolding) (rest : list StraightMolding)
  (profile : list Vector) (idmat : Z) (x_offset z_offset extend : R)
  (closed : bool) (b : Buffers) :
  segs g = f :: rest ->
  nonzero (offset_line x_offset f) = true ->
  exists lofter vs,
    make_profile Panel_uv g profile idmat x_offset z_offset extend closed b
    = Done (reoffset g x_offset,
            mkBuffers (verts b ++ vs)
                      (faces b ++ Panel_faces lofter (List.length (verts b)))
                      (matids b ++ Panel_mat lofter)
                      (uvs b ++ Panel_uv lofter))
    /\ closed_shape lofter = closed
    /\ closed_path lofter = chain_closed x_offset f (segs g)
    /\ index lofter = seq 0 (List.length profile)
    /\ panel_x lofter = map x profile
    /\ panel_y lofter = map y profile
    /\ List.length (panel_idmat lofter) = List.length profile
    /\ Forall (fun m => m = idmat) (panel_idmat lofter)
    /\ List.length (user_path_uv_v lofter) = n_nonzero x_offset (segs g)
    /\ Forall (fun u => 0 <= u) (user_path_uv_v lofter)
    /\ (chain_closed x_offset f (segs g) = false ->
        exists us, user_path_uv_v lofter = length (offset_line x_offset f) :: us).
Proof.
  intros Hsegs Hnz.
  exists (sweep_panel closed profile idmat (chain_closed x_offset f (segs g))
                      (chain_sections x_offset f (segs g))).
  eexists. split; [now apply (make_profile_done _ _ f rest)|].
  unfold sweep_panel, chain_sections.
  cbn [closed_shape closed_path index panel_x panel_y panel_idmat user_path_uv_v].
  repeat split.
  - now rewrite length_map, length_seq.
  - apply Forall_forall. intros m Hm. apply in_map_iff in Hm.
    now destruct Hm as [_ [<- _]].
  - rewrite path_steps_length, length_map. reflexivity.
  - apply path_steps_nonneg.
  - intros Hcp. rewrite Hcp, Hsegs. cbn [filter]. rewrite Hnz. cbn [map path_steps].
    eexists. f_equal.
    unfold end_section, frame_line, sized_normal, lerp, length. cbn [fst p].
    f_equal. apply vector_eq; simpl; ring.
Qed.

Lemma lofter_input_witness :
  segs (build_chain [mkPart 2 0 0]) = [first_molding (mkPart 2 0 0)]
  /\ nonzero (offset_line 0 (first_molding (mkPart 2 0 0))) = true
  /\ exists st,
       make_profile (fun _ => []) (build_chain [mkPart 2 0 0])
                    (molding_SQUARE 0.02 0.1) 0%Z 0 0 0 true (mkBuffers [] [] [] [])
       = Done st.
Proof.
  assert (Hsegs : segs (build_chain [mkPart 2 0 0]) = [first_molding (mkPart 2 0 0)])
    by reflexivity.
  assert (Hnz : nonzero (offset_line 0 (first_molding (mkPart 2 0 0))) = true)
    by (apply straight_line_nonzero; lra).
  split; [exact Hsegs|]. split; [exact Hnz|].
  destruct (lofter_input (fun _ => []) (build_chain [mkPart 2 0 0])
              (first_molding (mkPart 2 0 0)) [] (molding_SQUARE 0.02 0.1)
              0%Z 0 0 0 true (mkBuffers [] [] [] []) Hsegs Hnz)
    as [lofter [vs [Hrun _]]].
  eexists. exact Hrun.
Defined.

(** ** One offset after another *)

(** X7. The offset set last is the one the segments keep: [set_offset] after
    [set_offset], or [make_profile] with its own [x_offset] after
    [set_offset], leaves each segment with the offset line of the later offset,
    computed from the segment's own line, which no offset changes; the number
    of segments stays. *)
Theorem set_offset_last_wins (Panel_uv : Panel -> list uv_quad) (g : MoldingGenerator)
  (o1 o2 : R) (profile : list Vector) (idmat : Z) (z_offset extend : R)
  (closed : bool) (b : Buffers) :
  set_offset (set_offset g o1) o2 = set_offset g o2
  /\ fst (state_after (make_profile Panel_uv (set_offset g o1) profile idmat
                                    o2 z_offset extend closed b))
     = set_offset g o2
  /\ List.length (segs (set_offset g o2)) = List.length (segs g)
  /\ (forall i s, nth_error (segs g) i = Some s ->
                  exists s',
                    nth_error (segs (set_offset g o2)) i = Some s'
                    /\ base s' = base s
                    /\ line s' = Some (mkLine
                                         (vadd (p (base s))
                                               (smul o2 (left_normal (normalized (v (base s))))))
                                         (v (base s)))).
Proof.
  assert (Hlast : set_offset (set_offset g o1) o2 = set_offset g o2).
  { unfold set_offset. cbn [parts segs]. rewrite !offset_loop_map, map_map.
    reflexivity. }
  split; [exact Hlast|]. split; [|split].
  - rewrite make_profile_generator, reoffset_set_offset. exact Hlast.
  - rewrite set_offset_segs. apply length_map.
  - intros i s Hs. rewrite set_offset_segs.
    exists (Molding_set_offset s o2 None).
    split; [exact (map_nth_error (fun s => Molding_set_offset s o2 None) i (segs g) Hs)|].
    split; reflexivity.
Qed.

(** ** The parts collection *)

(** X8. [update_parts] leaves exactly [n_parts] parts: the parts that were
    there keep their place and their values up to that number, the parts it
    adds have the default values, and calling it again changes nothing. *)
Theorem update_parts_resizes (n_parts : nat) (ps : list archipack_molding_part) :
  List.length (update_parts n_parts ps) = n_parts
  /\ (forall i part, (i < n_parts)%nat -> nth_error ps i = Some part ->
                     nth_error (update_parts n_parts ps) i = Some part)
  /\ (forall i, (List.length ps <= i < n_parts)%nat ->
                nth_error (update_parts n_parts ps) i = Some default_part)
  /\ update_parts n_parts (update_parts n_parts ps) = update_parts n_parts ps.
Proof.
  split; [apply update_parts_length|]. split; [|split].
  - intros i part Hi Hp. unfold update_parts.
    assert (Hlt : (i < List.length ps)%nat) by (apply nth_error_Some; congruence).
    rewrite nth_error_app1 by (rewrite length_firstn; lia).
    rewrite nth_error_firstn.
    destruct (Nat.ltb_spec i n_parts); [exact Hp|lia].
  - intros i Hi. unfold update_parts.
    rewrite nth_error_app2 by (rewrite length_firstn; lia).
    rewrite length_firstn.
    rewrite nth_error_repeat by lia. reflexivity.
  - unfold update_parts at 1.
    rewrite update_parts_length, Nat.sub_diag. cbn [repeat]. rewrite app_nil_r.
    apply firstn_all2. rewrite update_parts_length. lia.
Qed.

Lemma assign_parts_nil (ps : list archipack_molding_part) : assign_parts ps [] = ps.
Proof. destruct ps; reflexivity. Qed.

(** X9. [from_spline] leaves [max(1, len(pts) - 1)] parts; from fewer than two
    points it writes no part: the collection is cut or filled to one part,
    which keeps the values it had. *)
Theorem from_spline_part_count (ps : list archipack_molding_part)
  (user_path_reverse : bool) (pts : list Vector3) :
  List.length (from_spline ps user_path_reverse pts)
  = Nat.max 1 (List.length pts - 1)
  /\ ((List.length pts <= 1)%nat ->
      from_spline ps user_path_reverse pts = update_parts 1 ps
      /\ from_spline ps user_path_reverse pts
         = [match ps with [] => default_part | part :: _ => part end]).
Proof.
  assert (Hplen : List.length (if user_path_reverse then rev pts else pts)
                  = List.length pts)
    by (destruct user_path_reverse; [apply length_rev|reflexivity]).
  split.
  - unfold from_spline.
    destruct (if user_path_reverse then rev pts else pts) as [|p0 rest] eqn:Hpath.
    + apply update_parts_length.
    + simpl in Hplen. destruct rest as [|p1 rest'].
      * cbn [from_spline_loop]. rewrite assign_parts_nil. apply update_parts_length.
      * rewrite assign_parts_all; [rewrite from_spline_loop_length|
                                   rewrite update_parts_length, from_spline_loop_length];
          rewrite <- Hplen; simpl; lia.
  - intros Hshort.
    assert (Hone : from_spline ps user_path_reverse pts = update_parts 1 ps).
    { unfold from_spline.
      replace (Nat.max 1 (List.length pts - 1)) with 1%nat by lia.
      destruct (if user_path_reverse then rev pts else pts) as [|p0 rest] eqn:Hpath;
        [reflexivity|].
      destruct rest as [|p1 rest']; [apply assign_parts_nil|]. simpl in Hplen. lia. }
    split; [exact Hone|]. rewrite Hone. destruct ps as [|part ps']; reflexivity.
Qed.

(** ** The profiles of update *)

Lemma quarter_step : PI / (2 * INR 6) = PI / 12.
Proof. simpl. field. Qed.

Lemma quarter_arc_point (a : nat) :
  (a <= 6)%nat ->
  0 <= cos (INR a * (PI / (2 * INR 6))) <= 1
  /\ 0 <= sin (INR a * (PI / (2 * INR 6))) <= 1.
Proof.
  intros Ha. rewrite quarter_step. pose proof PI_RGT_0 as Hpi.
  assert (H0 : 0 <= INR a) by apply pos_INR.
  assert (H6 : INR a <= 6).
  { apply le_INR in Ha. simpl in Ha. lra. }
  assert (Ht : 0 <= INR a * (PI / 12) <= PI / 2) by (split; nra).
  pose proof (COS_bound (INR a * (PI / 12))) as [_ Hc].
  pose proof (SIN_bound (INR a * (PI / 12))) as [_ Hs].
  repeat split; try assumption.
  - apply cos_ge_0; lra.
  - apply sin_ge_0; lra.
Qed.

(** X10. The ['CIRCLE'] profile of [update] has 10 points; its radius is the
    requested one cut down to the width and to the height; for a width, a
    height and a radius that are not negative every point lies within the
    rectangle of the width and the height, and the rounded corner runs from
    [(x, y - r)] on the right side to [(x - r, y)] on the top. *)
Theorem molding_CIRCLE_fits (profil_x profil_y profil_radius : R) :
  0 <= profil_x -> 0 <= profil_y -> 0 <= profil_radius ->
  let r := Rmin (Rmin profil_radius profil_x) profil_y in
  let profile := molding_CIRCLE profil_x profil_y profil_radius in
  List.length profile = 10%nat
  /\ (0 <= r /\ r <= profil_radius /\ r <= profil_x /\ r <= profil_y)
  /\ Forall (fun pt => 0 <= x pt <= profil_x /\ 0 <= y pt <= profil_y) profile
  /\ nth_error profile 3 = Some (mkVector profil_x (profil_y - r))
  /\ nth_error profile 9 = Some (mkVector (profil_x - r) profil_y).
Proof.
  intros Hx Hy Hr r profile.
  assert (Hrb : 0 <= r /\ r <= profil_radius /\ r <= profil_x /\ r <= profil_y).
  { subst r. unfold Rmin.
    destruct (Rle_dec profil_radius profil_x);
      destruct (Rle_dec _ profil_y); lra. }
  split; [reflexivity|]. split; [exact Hrb|]. split; [|split].
  - subst profile. unfold molding_CIRCLE. fold r. apply Forall_app. split.
    + repeat (constructor; [cbn [x y]; repeat split; lra|]). constructor.
    + apply Forall_map. apply Forall_forall. intros a Ha.
      apply in_seq in Ha.
      destruct (quarter_arc_point a ltac:(lia)) as [[Hc0 Hc1] [Hs0 Hs1]].
      cbn [x y]. split; split; nra.
  - subst profile. unfold molding_CIRCLE. fold r. cbn [app map seq Nat.add nth_error].
    f_equal. apply vector_eq; cbn [x y INR]; rewrite Rmult_0_l, ?cos_0, ?sin_0; ring.
  - subst profile. unfold molding_CIRCLE. fold r. cbn [app map seq Nat.add nth_error].
    f_equal.
    assert (Hq : INR 6 * (PI / (2 * INR 6)) = PI / 2) by (simpl; field).
    apply vector_eq; cbn [x y]; rewrite Hq, ?cos_PI2, ?sin_PI2; ring.
Qed.

Lemma molding_CIRCLE_fits_witness :
  0 <= 0.02 /\ 0 <= 0.1
  /\ List.length (molding_CIRCLE 0.02 0.1 0.02) = 10%nat.
Proof.
  assert (Hx : 0 <= 0.02) by lra. assert (Hy : 0 <= 0.1) by lra.
  split; [exact Hx|]. split; [exact Hy|].
  exact (proj1 (molding_CIRCLE_fits 0.02 0.1 0.02 Hx Hy Hx)).
Defined.

(** X11. The ['COMPLEX'] profile of [update] has 35 points; for a width and a
    height that are not negative it is centred on the path within half the
    width on either side, and it rises from 0 up to 1.915 times the height,
    which its point of index 32 reaches. *)
Theorem molding_COMPLEX_extent (profil_x profil_y : R) :
  0 <= profil_x -> 0 <= profil_y ->
  let profile := molding_COMPLEX profil_x profil_y in
  List.length profile = 35%nat
  /\ Forall (fun pt => - (profil_x / 2) <= x pt <= profil_x / 2
                       /\ 0 <= y pt <= 1.915 * profil_y) profile
  /\ nth_error profile 32 = Some (mkVector (profil_x * 0.0) (profil_y * 1.915)).
Proof.
  intros Hx Hy profile. split; [reflexivity|]. split; [|reflexivity].
  subst profile. unfold molding_COMPLEX, COMPLEX_table. cbn [map fst snd].
  repeat (constructor; [cbn [x y]; repeat split; lra|]). constructor.
Qed.

Lemma molding_COMPLEX_extent_witness :
  0 <= 0.02 /\ 0 <= 0.1 /\ List.length (molding_COMPLEX 0.02 0.1) = 35%nat.
Proof.
  assert (Hx : 0 <= 0.02) by lra. assert (Hy : 0 <= 0.1) by lra.
  split; [exact Hx|]. split; [exact Hy|].
  exact (proj1 (molding_COMPLEX_extent 0.02 0.1 Hx Hy)).
Defined.

(** ** Parts of positive length *)

Lemma offset_line_length (offset : R) (s : StraightMolding) :
  length (offset_line offset s) = length (base s).
Proof. reflexivity. Qed.

Lemma n_nonzero_all (offset : R) (ss : list StraightMolding) :
  Forall (fun s => 0 < length (base s)) ss ->
  n_nonzero offset ss = List.length ss.
Proof.
  unfold n_nonzero. induction 1 as [|s ss Hs _ IH]; [reflexivity|].
  cbn [filter]. unfold nonzero at 1. rewrite offset_line_length.
  destruct (Req_dec_T (length (base s)) 0); [lra|]. simpl. now rewrite IH.
Qed.

Lemma build_chain_positive (ps : list archipack_molding_part) :
  Forall (fun part => 0 < part_length part) ps ->
  Forall (fun s => 0 < length (base s)) (segs (build_chain ps)).
Proof.
  intros Hall. pose proof (build_chain_polar_base ps Hall) as Hpolar.
  pose proof (polar_chain_lengths ps (mkVector 0 0) 0 Hall) as Hlen.
  rewrite <- Hpolar, map_map in Hlen.
  apply Forall_forall. intros s Hs.
  assert (Hin : In (length (base s)) (map part_length ps)).
  { rewrite <- Hlen. apply in_map_iff. now exists s. }
  apply in_map_iff in Hin. destruct Hin as [part [Heq Hpart]].
  rewrite <- Heq. rewrite Forall_forall in Hall. now apply Hall.
Qed.

(** X12. When every part has a positive length, as the minimum of the
    property has it, [make_profile] on the chain of [get_generator] completes
    and sweeps one frame per part on a closed path and one more on an open
    path, appending that many times the number of profile points to the
    vertices. *)
Theorem positive_parts_frames (Panel_uv : Panel -> list uv_quad)
  (ps : list archipack_molding_part) (profile : list Vector) (idmat : Z)
  (x_offset z_offset extend : R) (closed : bool) (b : Buffers) :
  Forall (fun part => 0 < part_length part) ps ->
  ps <> [] ->
  let g := get_generator ps x_offset in
  let run := make_profile Panel_uv g profile idmat x_offset z_offset extend closed b in
  exists f rest b',
    segs g = f :: rest
    /\ run = Done (g, b')
    /\ let frames := if chain_closed x_offset f (segs g)
                     then List.length ps else S (List.length ps) in
       List.length (emitted_frames x_offset g) = frames
       /\ List.length (verts b')
          = (List.length (verts b) + List.length profile * frames)%nat.
Proof.
  intros Hall Hne g run. destruct ps as [|part ps']; [congruence|]. clear Hne.
  destruct (get_generator_head part ps' x_offset) as [rest Hsegs]. fold g in Hsegs.
  assert (Hnz : nonzero (offset_line x_offset
                           (Molding_set_offset (first_molding part) x_offset None))
                = true).
  { rewrite offset_line_set_offset. apply first_molding_nonzero.
    inversion Hall; subst. lra. }
  assert (Hn : n_nonzero x_offset (segs g) = List.length (part :: ps')).
  { rewrite n_nonzero_all.
    - subst g. unfold get_generator. rewrite set_offset_segs, length_map.
      apply build_chain_length.
    - subst g. unfold get_generator. rewrite set_offset_segs.
      apply Forall_map. cbn [base Molding_set_offset].
      now apply build_chain_positive. }
  pose proof (emitted_frames_length x_offset g _ rest Hsegs Hnz) as Hfr.
  rewrite Hn in Hfr.
  pose proof (make_profile_verts Panel_uv g profile idmat x_offset z_offset extend
                                 closed b) as Hverts.
  fold run in Hverts.
  assert (Hrun : run = Done (g, buffers_after run)).
  { subst run. rewrite (make_profile_done _ _ _ _ _ _ _ _ _ _ _ Hsegs Hnz).
    subst g. now rewrite reoffset_get_generator. }
  do 3 eexists. split; [exact Hsegs|]. split; [exact Hrun|].
  cbv zeta. split; [exact Hfr|].
  rewrite Hverts, length_app, frame_vertices_length, Hfr. reflexivity.
Qed.

Lemma positive_parts_frames_witness :
  Forall (fun part => 0 < part_length part) [mkPart 2 0 0]
  /\ [mkPart 2 0 0] <> []
  /\ exists st,
       make_profile (fun _ => []) (get_generator [mkPart 2 0 0] 0)
                    (molding_SQUARE 0.02 0.1) 0%Z 0 0 0 true (mkBuffers [] [] [] [])
       = Done st.
Proof.
  assert (Hall : Forall (fun part => 0 < part_length part) [mkPart 2 0 0])
    by (repeat constructor; simpl; lra).
  assert (Hne : [mkPart 2 0 0] <> []) by discriminate.
  split; [exact Hall|]. split; [exact Hne|].
  destruct (positive_parts_frames (fun _ => []) [mkPart 2 0 0]
              (molding_SQUARE 0.02 0.1) 0%Z 0 0 0 true (mkBuffers [] [] [] [])
              Hall Hne) as [f [rest [b' [_ [Hrun _]]]]].
  eexists. exact Hrun.
Defined.

(** ** A cyclic spline *)

Lemma path_lines_end (rest : list Vector3) :
  forall p0 pt d,
    rest <> [] ->
    lerp (last (path_lines pt p0 rest) d) 1
    = vadd pt (to_2d (vsub3 (last rest p0) p0)).
Proof.
  induction rest as [|p1 r IH]; intros p0 pt d Hne; [congruence|].
  destruct r as [|p2 r'].
  - simpl. apply vector_eq; simpl; ring.
  - change (last (path_lines pt p0 (p1 :: p2 :: r')) d)
      with (last (path_lines (vadd pt (to_2d (vsub3 p1 p0))) p1 (p2 :: r')) d).
    rewrite IH by discriminate.
    change (last (p1 :: p2 :: r') p0) with (last (p2 :: r') p0).
    assert (Hl : last (p2 :: r') p1 = last (p2 :: r') p0).
    { destruct (exists_last (l := p2 :: r') ltac:(discriminate)) as [l' [z Hz]].
      rewrite Hz, !last_last. reflexivity. }
    rewrite Hl. apply vector_eq; simpl; ring.
Qed.

Lemma path_lines_head (rest : list Vector3) (p0 : Vector3) (pt : Vector) (d : Line) :
  p (hd d (path_lines pt p0 rest)) = pt \/ rest = [].
Proof. destruct rest; [now right|now left]. Qed.

Lemma is_closed_path_loop (fl f_last : Line) :
  p fl = lerp f_last 1 -> is_closed_path fl f_last = true.
Proof.
  intros H. unfold is_closed_path.
  assert (Hz : vsub (p fl) (vadd (p f_last) (v f_last)) = vzero).
  { rewrite H. apply vector_eq; simpl; ring. }
  rewrite Hz, vlength_vzero.
  destruct (Rlt_dec 0 0.0001) as [_|Hn]; [reflexivity|]. exfalso. apply Hn. lra.
Qed.

(** X13. A cyclic ['POLY'] spline stays a loop: when every edge of the loop
    is, in the plane, at least as long as the minimum 0.01 of the length
    property, the chain built from the parts [from_spline] writes ends where
    it starts, [make_profile] at offset 0 takes it for a closed path, completes
    and sweeps exactly one frame per point of the spline. *)
Theorem cyclic_spline_closed_path (Panel_uv : Panel -> list uv_quad)
  (ps : list archipack_molding_part) (wM : Vector3 -> Vector3)
  (a : Vector3) (tl pts : list Vector3)
  (profile : list Vector) (idmat : Z) (z_offset extend : R)
  (closed : bool) (b : Buffers) :
  spline_points_POLY wM (a :: tl) true = Ok pts ->
  planar_steps (wM a) (map wM tl ++ [wM a]) ->
  let g := get_generator (from_spline ps false pts) 0 in
  let run := make_profile Panel_uv g profile idmat 0 z_offset extend closed b in
  exists f rest b',
    segs g = f :: rest
    /\ (forall d, lerp (base (last (segs g) d)) 1 = p (base f))
    /\ chain_closed 0 f (segs g) = true
    /\ run = Done (g, b')
    /\ List.length (emitted_frames 0 g) = List.length (a :: tl)
    /\ List.length (verts b')
       = (List.length (verts b) + List.length profile * List.length (a :: tl))%nat.
Proof.
  intros Hpts Hsteps g run.
  assert (Hp : pts = wM a :: (map wM tl ++ [wM a])).
  { cbn in Hpts. now injection Hpts as <-. }
  destruct tl as [|t tl'].
  { exfalso. destruct Hsteps as [Hs _].
    assert (Hz : vlength (to_2d (vsub3 (wM a) (wM a))) = 0).
    { unfold to_2d, vsub3. cbn [x3 y3 z3]. apply vlength_mk; [lra|ring]. }
    rewrite Hz in Hs. lra. }
  set (rest0 := map wM tl' ++ [wM a]).
  assert (Hpath : (if false then rev pts else pts) = wM a :: wM t :: rest0)
    by (rewrite Hp; reflexivity).
  destruct (from_spline_chain_lines ps false pts (wM a) (wM t) rest0 Hpath Hsteps)
    as [Hw [Hpos Hbase]].
  set (parts0 := from_spline ps false pts) in *.
  set (chain := segs (build_chain parts0)) in *.
  assert (Hclen : List.length chain = List.length (a :: t :: tl')).
  { subst chain. rewrite build_chain_length. subst parts0. rewrite Hw.
    rewrite from_spline_loop_length. subst rest0.
    cbn [List.length]. rewrite length_app, length_map. simpl. lia. }
  destruct chain as [|c0 crest] eqn:Hchain; [discriminate|].
  assert (Hc0 : p (base c0) = mkVector 0 0).
  { cbn [map] in Hbase. cbn [path_lines] in Hbase. now injection Hbase as -> _. }
  assert (Hend : forall d, lerp (base (last (c0 :: crest) d)) 1 = mkVector 0 0).
  { intros d. rewrite <- (last_map base), Hbase.
    rewrite path_lines_end by discriminate.
    assert (Hl : last (wM t :: rest0) (wM a) = wM a).
    { subst rest0. change (wM t :: map wM tl' ++ [wM a])
        with ((wM t :: map wM tl') ++ [wM a]). apply last_last. }
    rewrite Hl. apply vector_eq; simpl; ring. }
  assert (Hsegs : segs g = Molding_set_offset c0 0 None
                             :: map (fun s => Molding_set_offset s 0 None) crest).
  { subst g. unfold get_generator. rewrite set_offset_segs.
    fold chain. rewrite Hchain. reflexivity. }
  assert (Hlast : forall d, base (last (segs g) (Molding_set_offset d 0 None))
                            = base (last (c0 :: crest) d)).
  { intros d. rewrite Hsegs.
    change (Molding_set_offset c0 0 None
              :: map (fun s => Molding_set_offset s 0 None) crest)
      with (map (fun s => Molding_set_offset s 0 None) (c0 :: crest)).
    now rewrite (last_map (fun s => Molding_set_offset s 0 None) (c0 :: crest) d). }
  assert (Hlast' : forall d, base (last (segs g) d) = base (last (c0 :: crest) c0)).
  { intros d. rewrite <- (Hlast c0).
    destruct (exists_last (l := segs g) ltac:(rewrite Hsegs; discriminate))
      as [l' [z Hz]].
    rewrite Hz, !last_last. reflexivity. }
  assert (Hnz : nonzero (offset_line 0 (Molding_set_offset c0 0 None)) = true).
  { rewrite offset_line_set_offset. unfold nonzero. rewrite offset_line_length.
    pose proof (build_chain_positive parts0 Hpos) as Hall. fold chain in Hall.
    rewrite Hchain in Hall. inversion Hall as [|? ? H0 _]; subst.
    destruct (Req_dec_T (length (base c0)) 0); [lra|reflexivity]. }
  assert (Hcp : chain_closed 0 (Molding_set_offset c0 0 None) (segs g) = true).
  { unfold chain_closed. apply is_closed_path_loop.
    rewrite !offset_line_zero. cbn [base Molding_set_offset].
    rewrite Hlast', Hend. exact Hc0. }
  assert (Hn : n_nonzero 0 (segs g) = List.length (a :: t :: tl')).
  { rewrite n_nonzero_all.
    - rewrite Hsegs. cbn [List.length] in Hclen |- *. rewrite length_map.
      exact Hclen.
    - rewrite Hsegs.
      change (Molding_set_offset c0 0 None
                :: map (fun s => Molding_set_offset s 0 None) crest)
        with (map (fun s => Molding_set_offset s 0 None) (c0 :: crest)).
      apply Forall_map. cbn [base Molding_set_offset]. rewrite <- Hchain.
      now apply build_chain_positive. }
  pose proof (emitted_frames_length 0 g _ _ Hsegs Hnz) as Hfr.
  rewrite Hcp, Hn in Hfr.
  pose proof (make_profile_verts Panel_uv g profile idmat 0 z_offset extend closed b)
    as Hverts.
  fold run in Hverts.
  assert (Hrun : run = Done (g, buffers_after run)).
  { subst run. rewrite (make_profile_done _ _ _ _ _ _ _ _ _ _ _ Hsegs Hnz).
    subst g. now rewrite reoffset_get_generator. }
  do 3 eexists. split; [exact Hsegs|]. split; [|split; [exact Hcp|]].
  - intros d. rewrite Hlast', Hend. cbn [base Molding_set_offset]. now rewrite Hc0.
  - split; [exact Hrun|]. split; [exact Hfr|].
    rewrite Hverts, length_app, frame_vertices_length, Hfr. reflexivity.
Qed.

Lemma cyclic_spline_closed_path_witness :
  spline_points_POLY (fun pt => pt) square_points true
  = Ok (square_points ++ [mkVector3 0 0 0])
  /\ planar_steps (mkVector3 0 0 0)
       (map (fun pt => pt) [mkVector3 2 0 0; mkVector3 2 2 0; mkVector3 0 2 0]
          ++ [mkVector3 0 0 0])
  /\ List.length
       (emitted_frames 0
          (get_generator (from_spline [] false (square_points ++ [mkVector3 0 0 0])) 0))
     = 4%nat.
Proof.
  assert (H1 : spline_points_POLY (fun pt => pt) square_points true
               = Ok (square_points ++ [mkVector3 0 0 0])) by reflexivity.
  assert (H2 : planar_steps (mkVector3 0 0 0)
                 (map (fun pt => pt) [mkVector3 2 0 0; mkVector3 2 2 0; mkVector3 0 2 0]
                    ++ [mkVector3 0 0 0])).
  { cbn [map app planar_steps]. unfold to_2d, vsub3. cbn [x3 y3 z3].
    repeat split; rewrite (vlength_mk _ _ 2) by lra; lra. }
  split; [exact H1|]. split; [exact H2|].
  pose proof (cyclic_spline_closed_path (fun _ => []) [] (fun pt => pt)
                (mkVector3 0 0 0) [mkVector3 2 0 0; mkVector3 2 2 0; mkVector3 0 2 0]
                (square_points ++ [mkVector3 0 0 0])
                (molding_SQUARE 0.02 0.1) 0%Z 0 0 true (mkBuffers [] [] [] [])
                H1 H2) as H.
  cbv zeta in H. destruct H as [f [rest [b' [_ [_ [_ [_ [Hfr _]]]]]]]].
  exact Hfr.
Defined.

(** ** A part of length zero inside the chain *)

Lemma smul_zero (u : Vector) : smul 0 u = vzero.
Proof. apply vector_eq; simpl; ring. Qed.

Lemma straight_molding_zero_length (s : StraightMolding) (a0 : R) :
  v (base (straight_molding s a0 0)) = vzero.
Proof.
  unfold straight_molding, StraightMolding_init, rotate, straight.
  cbn [base p v]. apply vector_eq; simpl; ring.
Qed.

Lemma straight_molding_stuck (s : StraightMolding) (a0 len : R) :
  v (base s) = vzero -> base (straight_molding s a0 len) = base s.
Proof.
  intros Hv. unfold straight_molding, StraightMolding_init, rotate, straight, lerp.
  cbn [base p v]. rewrite Hv, normalized_vzero.
  destruct (base s) as [pt vec]. cbn [p v] in *. subst vec.
  f_equal; apply vector_eq; simpl; ring.
Qed.

Lemma add_part_zero_length (g : MoldingGenerator) (part : archipack_molding_part) :
  part_length part = 0 ->
  exists s, segs (add_part g part) = segs g ++ [s] /\ v (base s) = vzero.
Proof.
  intros Hlen. destruct (add_part_segs g part) as [s [Hs Hwhat]].
  exists s. split; [exact Hs|].
  destruct (segs g) as [|a tl]; subst s.
  - unfold first_molding, StraightMolding_init. cbn [base v].
    rewrite Hlen. apply smul_zero.
  - rewrite Hlen. apply straight_molding_zero_length.
Qed.

Lemma stuck_last (a : Line) (tl : list Line) :
  Forall (fun b => b = a) tl -> last (a :: tl) a = a.
Proof.
  induction tl as [|b tl IH]; intros Hall; [reflexivity|].
  inversion Hall as [|? ? Hb Htl]; subst.
  change (last (a :: a :: tl) a) with (last (a :: tl) a). now apply IH.
Qed.

Lemma last_default {A : Type} (l : list A) (d d' : A) :
  l <> [] -> last l d = last l d'.
Proof.
  intros Hne. destruct (exists_last Hne) as [l' [z ->]]. now rewrite !last_last.
Qed.

Lemma stuck_snoc (ls : list Line) (b : Line) :
  stuck ls ->
  (forall d, ls <> [] -> v (last ls d) = vzero -> b = last ls d) ->
  stuck (ls ++ [b]).
Proof.
  induction ls as [|a tl IH]; intros Hst Hb.
  - simpl. split; [intros _; constructor|exact I].
  - destruct Hst as [Ha Htl]. cbn [app stuck]. split.
    + intros Hv. specialize (Ha Hv). apply Forall_app. split; [exact Ha|].
      constructor; [|constructor].
      pose proof (stuck_last a tl Ha) as Hl.
      rewrite (Hb a); [exact Hl|discriminate|now rewrite Hl].
    + destruct tl as [|a' tl'].
      * simpl. split; [intros _; constructor|exact I].
      * apply IH; [exact Htl|]. intros d _ Hv.
        change (last (a' :: tl') d) with (last (a :: a' :: tl') d) in *.
        apply Hb; [discriminate|exact Hv].
Qed.

Lemma stuck_nth (ls : list Line) :
  stuck ls ->
  forall i j a b, nth_error ls i = Some a -> v a = vzero -> (i <= j)%nat ->
                  nth_error ls j = Some b -> b = a.
Proof.
  induction ls as [|a0 tl IH]; intros Hst i j a b Ha Hv Hij Hb;
    [destruct i; discriminate|].
  destruct Hst as [H0 Htl]. destruct i as [|i'].
  - simpl in Ha. injection Ha as <-. destruct j as [|j'].
    + simpl in Hb. now injection Hb as <-.
    + simpl in Hb. specialize (H0 Hv). rewrite Forall_forall in H0.
      apply H0. now apply (nth_error_In tl j').
  - destruct j as [|j']; [lia|]. simpl in Ha, Hb.
    apply (IH Htl i' j'); [exact Ha|exact Hv|lia|exact Hb].
Qed.

Lemma fold_add_part_stuck (ps : list archipack_molding_part) :
  forall g, stuck (map base (segs g)) ->
            stuck (map base (segs (fold_left add_part ps g))).
Proof.
  induction ps as [|part ps IH]; intros g Hst; simpl; [exact Hst|].
  apply IH. destruct (add_part_segs g part) as [s [Hs Hwhat]].
  rewrite Hs, map_app. apply stuck_snoc; [exact Hst|].
  intros d Hne Hv. destruct (segs g) as [|a tl]; [now destruct Hne|].
  assert (Hl : last (map base (a :: tl)) d = base (last (a :: tl) a)).
  { rewrite <- (last_map base (a :: tl) a). apply last_default. discriminate. }
  rewrite Hl in *. rewrite Hwhat. cbn [map]. now apply straight_molding_stuck.
Qed.

Lemma fold_add_part_zero_length (ps : list archipack_molding_part) :
  forall g i part,
    nth_error ps i = Some part -> part_length part = 0 ->
    exists s,
      nth_error (segs (fold_left add_part ps g)) (List.length (segs g) + i) = Some s
      /\ v (base s) = vzero.
Proof.
  induction ps as [|q ps IH]; intros g i part Hi Hlen; [destruct i; discriminate|].
  cbn [fold_left]. destruct i as [|i'].
  - simpl in Hi. injection Hi as ->.
    destruct (add_part_zero_length g part Hlen) as [s [Hs Hv]].
    destruct (fold_add_part_segs ps (add_part g part)) as [more Hmore].
    exists s. split; [|exact Hv].
    rewrite Hmore, Hs, <- app_assoc, Nat.add_0_r.
    rewrite nth_error_app2 by lia. now rewrite Nat.sub_diag.
  - simpl in Hi. destruct (IH (add_part g q) i' part Hi Hlen) as [s [Hs Hv]].
    exists s. split; [|exact Hv].
    replace (List.length (segs g) + S i')%nat
      with (List.length (segs (add_part g q)) + i')%nat; [exact Hs|].
    unfold add_part. cbn [segs]. rewrite length_app. simpl. lia.
Qed.

(** X14. A part of length zero stops the chain where it stands: its segment
    has no direction, and every segment [add_part] builds after it is that
    same line, of length zero too, whatever the lengths and angles of the
    later parts; the loop of [make_profile] skips all of them at any offset. *)
Theorem zero_length_part_collapses (ps : list archipack_molding_part)
  (i : nat) (part : archipack_molding_part) :
  nth_error ps i = Some part ->
  part_length part = 0 ->
  exists s,
    nth_error (segs (build_chain ps)) i = Some s
    /\ v (base s) = vzero
    /\ (forall j t, (i <= j)%nat ->
                    nth_error (segs (build_chain ps)) j = Some t ->
                    base t = base s
                    /\ length (base t) = 0
                    /\ forall offset, nonzero (offset_line offset t) = false).
Proof.
  intros Hi Hlen.
  destruct (fold_add_part_zero_length ps (MoldingGenerator_init ps) i part Hi Hlen)
    as [s [Hs Hv]].
  fold (build_chain ps) in Hs. cbn [MoldingGenerator_init segs List.length] in Hs.
  rewrite Nat.add_0_l in Hs.
  exists s. split; [exact Hs|]. split; [exact Hv|].
  intros j t Hij Ht.
  assert (Hst : stuck (map base (segs (build_chain ps))))
    by (apply fold_add_part_stuck; exact I).
  assert (Hb : base t = base s).
  { apply (stuck_nth _ Hst i j); [now apply map_nth_error|exact Hv|exact Hij|].
    now apply map_nth_error. }
  assert (Hz : length (base t) = 0).
  { rewrite Hb. unfold length. rewrite Hv. apply vlength_vzero. }
  split; [exact Hb|]. split; [exact Hz|].
  intros offset. unfold nonzero. rewrite offset_line_length, Hz.
  destruct (Req_dec_T 0 0) as [_|Hn]; [reflexivity|now destruct Hn].
Qed.

Lemma zero_length_part_collapses_witness :
  nth_error [mkPart 2 0 0; mkPart 0 0 0; mkPart 3 (PI / 2) 0] 1
  = Some (mkPart 0 0 0)
  /\ part_length (mkPart 0 0 0) = 0
  /\ exists s,
       nth_error (segs (build_chain [mkPart 2 0 0; mkPart 0 0 0; mkPart 3 (PI / 2) 0])) 1
       = Some s
       /\ v (base s) = vzero.
Proof.
  split; [reflexivity|]. split; [reflexivity|].
  destruct (zero_length_part_collapses
              [mkPart 2 0 0; mkPart 0 0 0; mkPart 3 (PI / 2) 0] 1 (mkPart 0 0 0)
              eq_refl eq_refl) as [s [Hs [Hv _]]].
  exists s. split; [exact Hs|exact Hv].
Defined.

(** ** A 'BEZIER' spline *)

Lemma vlength3_smul3 (k : R) (u : Vector3) :
  0 < k -> vlength3 (smul3 k u) = k * vlength3 u.
Proof.
  intros Hk. unfold vlength3, smul3. cbn [x3 y3 z3].
  replace (k * x3 u * (k * x3 u) + k * y3 u * (k * y3 u) + k * z3 u * (k * z3 u))
    with (k * k * (x3 u * x3 u + y3 u * y3 u + z3 u * z3 u)) by ring.
  rewrite sqrt_mult_alt by nra. rewrite sqrt_square by lra. reflexivity.
Qed.

Lemma normalized3_smul3 (k : R) (u : Vector3) :
  0 < k -> normalized3 (smul3 k u) = normalized3 u.
Proof.
  intros Hk. unfold normalized3. rewrite vlength3_smul3 by exact Hk.
  destruct (Req_dec_T (k * vlength3 u) 0) as [Hz|Hnz];
    destruct (Req_dec_T (vlength3 u) 0) as [Hz'|Hnz'].
  - reflexivity.
  - exfalso. apply Hnz'. nra.
  - exfalso. apply Hnz. rewrite Hz'. ring.
  - unfold smul3. cbn [x3 y3 z3]. f_equal; field; split; lra.
Qed.

Lemma veq3_refl (a : Vector3) : veq3 a a = true.
Proof.
  unfold veq3. repeat (destruct (Req_dec_T _ _) as [_|Hn]; [|now destruct Hn]).
  reflexivity.
Qed.

Lemma last_cons_default {A : Type} (a d : A) (l : list A) :
  last (a :: l) d = last l a.
Proof.
  destruct l as [|b l']; [reflexivity|].
  change (last (a :: b :: l') d) with (last (b :: l') d).
  apply last_default. discriminate.
Qed.

Lemma interpolate_bezier_straight
  (G : Vector3 -> Vector3 -> Vector3 -> Vector3 -> nat -> list Vector3)
  (pts : list Vector3) (wM : Vector3 -> Vector3) (p0 p1 : BezierSplinePoint)
  (resolution : nat) :
  resolution = 0%nat \/ straight_segment p0 p1 ->
  interpolate_bezier G pts wM p0 p1 resolution = Ok (pts ++ [wM (co p0)]).
Proof.
  intros [->|[k1 [k2 [Hk1 [Hk2 [H1 H2]]]]]]; [reflexivity|].
  unfold interpolate_bezier. destruct resolution as [|n]; [reflexivity|].
  cbv zeta. rewrite H1, H2, !normalized3_smul3 by assumption.
  rewrite veq3_refl. reflexivity.
Qed.

Lemma bezier_loop_straight
  (G : Vector3 -> Vector3 -> Vector3 -> Vector3 -> nat -> list Vector3)
  (wM : Vector3 -> Vector3) (resolution : nat) (rest : list BezierSplinePoint) :
  forall p0 pts,
    resolution = 0%nat \/ straight_run p0 rest ->
    exists pts',
      bezier_loop G wM resolution p0 rest pts = Ok pts'
      /\ pts' ++ [wM (co (last rest p0))]
         = pts ++ map (fun q => wM (co q)) (p0 :: rest).
Proof.
  induction rest as [|p1 r IH]; intros p0 pts H.
  - exists pts. split; reflexivity.
  - cbn [bezier_loop].
    rewrite interpolate_bezier_straight
      by (destruct H as [H|[H _]]; [now left|now right]).
    cbn [bind].
    destruct (IH p1 (pts ++ [wM (co p0)])) as [pts' [Hrun Hpts]].
    { destruct H as [H|[_ H]]; [now left|now right]. }
    exists pts'. split; [exact Hrun|].
    rewrite last_cons_default, Hpts, <- app_assoc. reflexivity.
Qed.

(** X15. A ['BEZIER'] spline whose segments are all straight, each handle
    lying from its point in the direction of the chord, is sampled at its
    control points only, whatever the resolution: the points are those of the
    ['POLY'] spline with the same control points, closed in the same way when
    the spline is cyclic.  The same holds at resolution 0.  Without a control
    point the branch raises [IndexError], cyclic or not. *)
Theorem bezier_straight_as_poly
  (G : Vector3 -> Vector3 -> Vector3 -> Vector3 -> nat -> list Vector3)
  (wM : Vector3 -> Vector3) (resolution : nat)
  (points : list BezierSplinePoint) (use_cyclic_u : bool) :
  resolution = 0%nat \/ straight_spline points use_cyclic_u ->
  spline_points_BEZIER G wM resolution points use_cyclic_u
  = match points with
    | [] => Raise IndexError
    | _ :: _ => spline_points_POLY wM (map co points) use_cyclic_u
    end.
Proof.
  intros H. destruct points as [|first rest]; [reflexivity|].
  unfold spline_points_BEZIER.
  destruct (bezier_loop_straight G wM resolution rest first []) as [pts [Hrun Hpts]].
  { destruct H as [H|[H _]]; [now left|now right]. }
  rewrite Hrun. cbn [bind]. rewrite last_cons_default.
  cbn [app] in Hpts. unfold spline_points_POLY. rewrite map_map.
  destruct use_cyclic_u.
  - rewrite interpolate_bezier_straight.
    + cbn [bind]. rewrite Hpts. reflexivity.
    + destruct H as [H|[_ H]]; [now left|right].
      rewrite <- (last_cons_default first first rest). now apply H.
  - now rewrite Hpts.
Qed.

Lemma bezier_straight_as_poly_witness :
  (12%nat = 0%nat
   \/ straight_spline
        [mkBezierSplinePoint (mkVector3 0 0 0) (mkVector3 (-1) 0 0) (mkVector3 1 0 0);
         mkBezierSplinePoint (mkVector3 3 0 0) (mkVector3 2 0 0) (mkVector3 4 0 0)]
        false)
  /\ spline_points_BEZIER (fun k1 _ _ _ n => repeat k1 n) (fun pt => pt) 12
       [mkBezierSplinePoint (mkVector3 0 0 0) (mkVector3 (-1) 0 0) (mkVector3 1 0 0);
        mkBezierSplinePoint (mkVector3 3 0 0) (mkVector3 2 0 0) (mkVector3 4 0 0)]
       false
     = Ok [mkVector3 0 0 0; mkVector3 3 0 0].
Proof.
  assert (H : 12%nat = 0%nat
              \/ straight_spline
                   [mkBezierSplinePoint (mkVector3 0 0 0) (mkVector3 (-1) 0 0)
                                        (mkVector3 1 0 0);
                    mkBezierSplinePoint (mkVector3 3 0 0) (mkVector3 2 0 0)
                                        (mkVector3 4 0 0)]
                   false).
  { right. split; [|discriminate]. split; [|exact I].
    exists (1 / 3), (1 / 3). unfold vsub3, smul3. cbn [co handle_left handle_right x3 y3 z3].
    repeat split; try lra; f_equal; lra. }
  split; [exact H|].
  exact (bezier_straight_as_poly (fun k1 _ _ _ n => repeat k1 n) (fun pt => pt) 12
           _ false H).
Defined.

Lemma append_first_ok (n : nat) :
  forall seg pts, (n <= List.length seg)%nat ->
                  append_first n seg pts = Ok (pts ++ firstn n seg).
Proof.
  induction n as [|n IH]; intros seg pts Hn.
  - simpl. now rewrite app_nil_r.
  - destruct seg as [|q seg']; [simpl in Hn; lia|].
    cbn [append_first firstn]. rewrite IH by (simpl in Hn; lia).
    now rewrite <- app_assoc.
Qed.

Lemma interpolate_bezier_adds
  (G : Vector3 -> Vector3 -> Vector3 -> Vector3 -> nat -> list Vector3)
  (pts : list Vector3) (wM : Vector3 -> Vector3) (p0 p1 : BezierSplinePoint)
  (resolution : nat) :
  returns_resolution G ->
  exists added,
    interpolate_bezier G pts wM p0 p1 resolution = Ok (pts ++ added)
    /\ (1 <= List.length added <= Nat.max 1 resolution)%nat.
Proof.
  intros Hlib. unfold interpolate_bezier. destruct resolution as [|n].
  - eexists. split; [reflexivity|]. simpl. lia.
  - cbv zeta. destruct (veq3 _ _ && veq3 _ _).
    + eexists. split; [reflexivity|]. simpl. lia.
    + rewrite append_first_ok by (rewrite Hlib; lia).
      eexists. split; [reflexivity|].
      rewrite length_firstn, Hlib. lia.
Qed.

Lemma bezier_loop_adds
  (G : Vector3 -> Vector3 -> Vector3 -> Vector3 -> nat -> list Vector3)
  (wM : Vector3 -> Vector3) (resolution : nat) (rest : list BezierSplinePoint) :
  returns_resolution G ->
  forall p0 pts,
    exists added,
      bezier_loop G wM resolution p0 rest pts = Ok (pts ++ added)
      /\ (List.length rest <= List.length added
          <= List.length rest * Nat.max 1 resolution)%nat.
Proof.
  intros Hlib. induction rest as [|p1 r IH]; intros p0 pts.
  - exists []. split; [simpl; now rewrite app_nil_r|simpl; lia].
  - cbn [bezier_loop].
    destruct (interpolate_bezier_adds G pts wM p0 p1 resolution Hlib)
      as [a1 [H1 Hl1]].
    rewrite H1. cbn [bind].
    destruct (IH p1 (pts ++ a1)) as [a2 [H2 Hl2]].
    exists (a1 ++ a2). split; [now rewrite H2, app_assoc|].
    rewrite length_app. cbn [List.length]. lia.
Qed.

(** X16. When the host's [interpolate_bezier] returns as many points as it is
    asked for, the ['BEZIER'] branch of [from_spline] raises nothing on a
    spline with a control point: it samples at least one point and at most
    [max(1, resolution)] points for each segment, the closing segment of a
    cyclic spline included, and one point more.  That last point is the first
    sampled point again on a cyclic spline, and the last control point under
    the world matrix otherwise. *)
Theorem bezier_sample_count
  (G : Vector3 -> Vector3 -> Vector3 -> Vector3 -> nat -> list Vector3)
  (wM : Vector3 -> Vector3) (resolution : nat)
  (first : BezierSplinePoint) (rest : list BezierSplinePoint) (use_cyclic_u : bool) :
  returns_resolution G ->
  let segments := (List.length rest + (if use_cyclic_u then 1 else 0))%nat in
  exists pts,
    spline_points_BEZIER G wM resolution (first :: rest) use_cyclic_u = Ok pts
    /\ (segments + 1 <= List.length pts)%nat
    /\ (List.length pts <= segments * Nat.max 1 resolution + 1)%nat
    /\ (forall d, last pts d
                  = if use_cyclic_u then hd d pts
                    else wM (co (last (first :: rest) first))).
Proof.
  intros Hlib segments. subst segments. unfold spline_points_BEZIER.
  destruct (bezier_loop_adds G wM resolution rest Hlib first []) as [a1 [H1 Hl1]].
  rewrite H1. cbn [bind app]. destruct use_cyclic_u.
  - destruct (interpolate_bezier_adds G a1 wM (last (first :: rest) first) first
                resolution Hlib) as [a2 [H2 Hl2]].
    rewrite H2. cbn [bind].
    destruct (a1 ++ a2) as [|q tl] eqn:E.
    + apply (f_equal (@List.length Vector3)) in E. rewrite length_app in E.
      simpl in E. lia.
    + exists ((q :: tl) ++ [q]).
      assert (Hlen : List.length (q :: tl) = (List.length a1 + List.length a2)%nat)
        by (rewrite <- E; apply length_app).
      split; [reflexivity|]. rewrite length_app, Hlen. cbn [List.length].
      split; [lia|]. split; [lia|]. intros d. now rewrite last_last.
  - exists (a1 ++ [wM (co (last (first :: rest) first))]).
    split; [reflexivity|]. rewrite length_app. cbn [List.length].
    split; [lia|]. split; [lia|]. intros d. now rewrite last_last.
Qed.

Lemma bezier_sample_count_witness :
  returns_resolution (fun k1 _ _ _ n => repeat k1 n)
  /\ exists pts,
       spline_points_BEZIER (fun k1 _ _ _ n => repeat k1 n) (fun pt => pt) 12
         (mkBezierSplinePoint (mkVector3 0 0 0) (mkVector3 0 (-1) 0) (mkVector3 0 1 0)
          :: [mkBezierSplinePoint (mkVector3 3 0 0) (mkVector3 3 1 0) (mkVector3 3 (-1) 0)])
         true
       = Ok pts
       /\ (3 <= List.length pts)%nat.
Proof.
  assert (H : returns_resolution (fun k1 _ _ _ n => repeat k1 n)).
  { intros k1 h1 h2 k2 n. apply repeat_length. }
  split; [exact H|].
  pose proof (bezier_sample_count (fun k1 _ _ _ n => repeat k1 n) (fun pt => pt) 12
                (mkBezierSplinePoint (mkVector3 0 0 0) (mkVector3 0 (-1) 0)
                                     (mkVector3 0 1 0))
                [mkBezierSplinePoint (mkVector3 3 0 0) (mkVector3 3 1 0)
                                     (mkVector3 3 (-1) 0)]
                true H) as Hc.
  cbv zeta in Hc. destruct Hc as [pts [Hrun [Hlow _]]].
  exists pts. split; [exact Hrun|exact Hlow].
Defined.

(** ** The path, walked backwards *)

Lemma step_values_snoc {B : Type} (f : Vector3 -> Vector3 -> B) (l : list Vector3)
  (x : Vector3) :
  step_values f (l ++ [x])
  = step_values f l ++ match l with [] => [] | _ :: _ => [f (last l x) x] end.
Proof.
  induction l as [|a tl IH]; [reflexivity|].
  destruct tl as [|b tl']; [reflexivity|].
  change (step_values f ((a :: b :: tl') ++ [x]))
    with (f a b :: step_values f ((b :: tl') ++ [x])).
  rewrite IH. reflexivity.
Qed.

Lemma step_values_rev {B : Type} (f : Vector3 -> Vector3 -> B) (l : list Vector3) :
  step_values f (rev l) = rev (step_values (fun a b => f b a) l).
Proof.
  induction l as [|a tl IH]; [reflexivity|].
  cbn [rev]. rewrite step_values_snoc, IH.
  destruct tl as [|b tl']; [reflexivity|].
  cbn [rev step_values]. rewrite last_last.
  destruct (rev tl' ++ [b]) eqn:E; [now destruct (rev tl')|reflexivity].
Qed.

Lemma step_values_ext {B : Type} (f g : Vector3 -> Vector3 -> B) (l : list Vector3) :
  (forall a b, f a b = g a b) -> step_values f l = step_values g l.
Proof.
  intros H. induction l as [|a tl IH]; [reflexivity|].
  destruct tl as [|b tl']; [reflexivity|].
  change (f a b :: step_values f (b :: tl') = g a b :: step_values g (b :: tl')).
  now rewrite H, IH.
Qed.

Lemma from_spline_loop_steps {B : Type} (h : archipack_molding_part -> B)
  (f : Vector3 -> Vector3 -> B) (rest : list Vector3) :
  (forall p0 p1 a0,
      h (mkPart (length_property (vlength (to_2d (vsub3 p1 p0))))
                (a0_property
                   (wrap_angle (atan2 (y3 (vsub3 p1 p0)) (x3 (vsub3 p1 p0)) - a0)))
                (z3 (vsub3 p1 p0)))
      = f p0 p1) ->
  forall p0 a0,
    map h (from_spline_loop p0 a0 rest) = step_values f (p0 :: rest).
Proof.
  intros Hh. induction rest as [|p1 r IH]; intros p0 a0; [reflexivity|].
  cbn [from_spline_loop map]. rewrite IH, Hh. reflexivity.
Qed.

Lemma from_spline_steps {B : Type} (h : archipack_molding_part -> B)
  (f : Vector3 -> Vector3 -> B) (ps : list archipack_molding_part)
  (user_path_reverse : bool) (pts : list Vector3) :
  (forall p0 p1 a0,
      h (mkPart (length_property (vlength (to_2d (vsub3 p1 p0))))
                (a0_property
                   (wrap_angle (atan2 (y3 (vsub3 p1 p0)) (x3 (vsub3 p1 p0)) - a0)))
                (z3 (vsub3 p1 p0)))
      = f p0 p1) ->
  (2 <= List.length pts)%nat ->
  map h (from_spline ps user_path_reverse pts)
  = step_values f (if user_path_reverse then rev pts else pts).
Proof.
  intros Hh Hlen.
  destruct (if user_path_reverse then rev pts else pts) as [|p0 [|p1 rest]] eqn:Hpath.
  1,2: apply (f_equal (@List.length _)) in Hpath;
       destruct user_path_reverse; [rewrite length_rev in Hpath|];
       simpl in Hpath; lia.
  rewrite (from_spline_traversal ps user_path_reverse pts p0 p1 rest Hpath).
  now apply from_spline_loop_steps.
Qed.

(** X17. Walking the path backwards ([user_path_reverse]) gives the same part
    lengths in the reverse order, and the same differences in z in the
    reverse order with the opposite sign, whatever the parts held before. *)
Theorem from_spline_reversed (ps ps' : list archipack_molding_part)
  (pts : list Vector3) :
  (2 <= List.length pts)%nat ->
  map part_length (from_spline ps true pts)
  = rev (map part_length (from_spline ps' false pts))
  /\ map part_dz (from_spline ps true pts)
     = rev (map (fun part => - part_dz part) (from_spline ps' false pts)).
Proof.
  intros Hlen. split.
  - rewrite (from_spline_steps part_length
               (fun a b => length_property (vlength (to_2d (vsub3 b a)))) ps true pts)
      by (intros; reflexivity || exact Hlen).
    rewrite (from_spline_steps part_length
               (fun a b => length_property (vlength (to_2d (vsub3 b a)))) ps' false pts)
      by (intros; reflexivity || exact Hlen).
    rewrite step_values_rev. f_equal. apply step_values_ext.
    intros a b. unfold vlength, to_2d, vsub3. cbn [x y x3 y3]. do 2 f_equal. ring.
  - rewrite (from_spline_steps part_dz (fun a b => z3 (vsub3 b a)) ps true pts)
      by (intros; reflexivity || exact Hlen).
    rewrite (from_spline_steps (fun part => - part_dz part)
               (fun a b => - z3 (vsub3 b a)) ps' false pts)
      by (intros; reflexivity || exact Hlen).
    rewrite step_values_rev. f_equal. apply step_values_ext.
    intros a b. unfold vsub3. cbn [z3]. ring.
Qed.

Lemma from_spline_reversed_witness :
  (2 <= List.length [mkVector3 1 1 0; mkVector3 3 1 5; mkVector3 3 2 4])%nat
  /\ map part_dz (from_spline [] true [mkVector3 1 1 0; mkVector3 3 1 5; mkVector3 3 2 4])
     = rev (map (fun part => - part_dz part)
                (from_spline [] false [mkVector3 1 1 0; mkVector3 3 1 5; mkVector3 3 2 4])).
Proof.
  assert (H : (2 <= List.length [mkVector3 1 1 0; mkVector3 3 1 5; mkVector3 3 2 4])%nat)
    by (simpl; lia).
  split; [exact H|].
  exact (proj2 (from_spline_reversed [] []
                  [mkVector3 1 1 0; mkVector3 3 1 5; mkVector3 3 2 4] H)).
Defined.

(** ** The closed square, swept at an offset *)

Lemma vlength_lower (a b c : R) :
  0 <= c -> c * c <= a * a + b * b -> c <= vlength (mkVector a b).
Proof.
  intros Hc Hle. unfold vlength. cbn [x y].
  rewrite <- (sqrt_square c) at 1 by exact Hc. now apply sqrt_le_1_alt.
Qed.

Lemma normalized_mk (a b c : R) :
  0 < c -> a * a + b * b = c * c -> normalized (mkVector a b) = mkVector (a / c) (b / c).
Proof.
  intros Hc Hab. unfold normalized. rewrite (vlength_mk a b c) by lra.
  destruct (Req_dec_T c 0); [lra|]. apply vector_eq; simpl; field; lra.
Qed.

Lemma square_chain_bases :
  exists s0 s1 s2 s3,
    segs (build_chain square_chain_parts) = [s0; s1; s2; s3]
    /\ base s0 = mkLine (mkVector 0 0) (mkVector 2 0)
    /\ base s1 = mkLine (mkVector 2 0) (mkVector 0 2)
    /\ base s2 = mkLine (mkVector 2 2) (mkVector (- 2) 0)
    /\ base s3 = mkLine (mkVector 0 2) (mkVector 0 (- 2)).
Proof.
  set (s0 := first_molding (mkPart 2 0 0)).
  set (s1 := straight_molding s0 (PI / 2) 2).
  set (s2 := straight_molding s1 (PI / 2) 2).
  set (s3 := straight_molding s2 (PI / 2) 2).
  exists s0, s1, s2, s3.
  assert (B0 : base s0 = mkLine (mkVector 0 0) (mkVector 2 0)).
  { subst s0. unfold first_molding, StraightMolding_init. cbn [base part_length part_a0].
    rewrite cos_0, sin_0. f_equal. apply vector_eq; simpl; ring. }
  assert (B1 : base s1 = mkLine (mkVector 2 0) (mkVector 0 2)).
  { subst s1. rewrite (straight_molding_quarter s0 _ _ _ B0) by ring.
    f_equal; apply vector_eq; simpl; ring. }
  assert (B2 : base s2 = mkLine (mkVector 2 2) (mkVector (- 2) 0)).
  { subst s2. rewrite (straight_molding_quarter s1 _ _ _ B1) by ring.
    f_equal; apply vector_eq; simpl; ring. }
  assert (B3 : base s3 = mkLine (mkVector 0 2) (mkVector 0 (- 2))).
  { subst s3. rewrite (straight_molding_quarter s2 _ _ _ B2) by ring.
    f_equal; apply vector_eq; simpl; ring. }
  split; [reflexivity|]. repeat split; assumption.
Qed.

(** C1, the counterexample: the chain of the square of side 2 ends on the
    origin of its first segment, at distance 0, and has four segments of
    nonzero length; swept at the offset 1 it is taken for an open path, and
    the sweep emits five frames, not four: the offset lines of the first and
    of the last segment do not meet. *)
Lemma closed_chain_swept_open :
  exists f rest,
    segs (build_chain square_chain_parts) = f :: rest
    /\ vlength (vsub (p (base f))
                     (vadd (p (base (last (f :: rest) f)))
                           (v (base (last (f :: rest) f))))) = 0
    /\ n_nonzero 1 (f :: rest) = 4%nat
    /\ chain_closed 1 f (f :: rest) = false
    /\ List.length (emitted_frames 1 (build_chain square_chain_parts)) = 5%nat
    /\ List.length
         (verts (buffers_after
                   (make_profile (fun _ => []) (build_chain square_chain_parts)
                                 (molding_SQUARE 0.02 0.1) 0%Z 1 0 0 true
                                 (mkBuffers [] [] [] []))))
       = 20%nat.
Proof.
  destruct square_chain_bases as [s0 [s1 [s2 [s3 [Hsegs [B0 [B1 [B2 B3]]]]]]]].
  exists s0, [s1; s2; s3]. split; [exact Hsegs|].
  assert (Hpos : Forall (fun s => 0 < length (base s)) [s0; s1; s2; s3]).
  { rewrite <- Hsegs. apply build_chain_positive.
    unfold square_chain_parts. repeat constructor; simpl; lra. }
  assert (Hn : n_nonzero 1 [s0; s1; s2; s3] = 4%nat)
    by (rewrite (n_nonzero_all 1 _ Hpos); reflexivity).
  assert (Hnz : nonzero (offset_line 1 s0) = true).
  { unfold nonzero. rewrite offset_line_length.
    inversion Hpos as [|? ? H0 _]; subst.
    destruct (Req_dec_T (length (base s0)) 0); [lra|reflexivity]. }
  assert (Hcp : chain_closed 1 s0 [s0; s1; s2; s3] = false).
  { unfold chain_closed, offset_line, make_offset. cbn [last].
    rewrite B0, B3. cbn [p v].
    rewrite (normalized_mk 2 0 2) by lra.
    rewrite (normalized_mk 0 (- 2) 2) by lra.
    unfold is_closed_path, vsub, vadd, smul, left_normal. cbn [p v x y].
    destruct (Rlt_dec _ 0.0001) as [Hlt|_]; [|reflexivity].
    exfalso. revert Hlt. apply Rle_not_lt.
    apply Rle_trans with 1; [lra|]. apply vlength_lower; [lra|]. field_simplify. lra. }
  assert (Hfr : List.length (emitted_frames 1 (build_chain square_chain_parts)) = 5%nat).
  { rewrite (emitted_frames_length 1 _ s0 [s1; s2; s3] Hsegs Hnz).
    rewrite Hsegs, Hcp, Hn. reflexivity. }
  split.
  - cbn [last]. rewrite B0, B3. unfold vsub, vadd. cbn [p v x y].
    apply vlength_mk; lra.
  - split; [exact Hn|]. split; [exact Hcp|]. split; [exact Hfr|].
    rewrite make_profile_verts, length_app, frame_vertices_length, Hfr.
    reflexivity.
Qed.
